(** * kt consume: offset expressions, range maps, partition workers

    A shallow embedding of [consume.go].  Go strings are byte sequences and
    are modelled by [string] (a list of 8-bit [ascii]); [int64] and [int32]
    values are integers in [Z] with the wrap-around of Go's arithmetic
    written out; [map[int32]interval] is a [gmap Z interval]; the sarama
    interfaces are records of their methods. *)

From Stdlib Require Import ZArith Lia Bool Ascii.
From stdpp Require Import gmap strings list.

Local Open Scope Z_scope.

(** ** Machine integers *)

Module Int.

Definition maxInt64 : Z := 2 ^ 63 - 1.
Definition minInt64 : Z := - 2 ^ 63.
Definition maxUint64 : Z := 2 ^ 64 - 1.

Definition inInt64 (z : Z) : Prop := minInt64 <= z <= maxInt64.

(** Two's complement wrap-around of a mathematical integer into [int64]. *)
Definition wrap64 (z : Z) : Z := (z + 2 ^ 63) mod 2 ^ 64 - 2 ^ 63.

(** The conversion [int32(i)] of an [int]. *)
Definition wrap32 (z : Z) : Z := (z + 2 ^ 31) mod 2 ^ 32 - 2 ^ 31.

Definition add64 (a b : Z) : Z := wrap64 (a + b).
Definition sub64 (a b : Z) : Z := wrap64 (a - b).
Definition neg64 (a : Z) : Z := wrap64 (- a).

End Int.
Export Int.

(** ** Bytes and strings *)

Module Bytes.

Definition code (c : ascii) : Z := Z.of_N (Ascii.N_of_ascii c).

Definition between (lo hi : Z) (c : ascii) : bool :=
  (lo <=? code c) && (code c <=? hi).

(** ['0' <= c && c <= '9'] *)
Definition isDigit (c : ascii) : bool := between 48 57 c.

Definition digitVal (c : ascii) : Z := code c - 48.

Definition digitChar (d : Z) : ascii := Ascii.ascii_of_N (Z.to_N (48 + d)).

(** [s[n:]] *)
Fixpoint drop (n : nat) (s : string) : string :=
  match n, s with
  | O, _ => s
  | S n', String _ s' => drop n' s'
  | S _, EmptyString => EmptyString
  end.

(** [s[:n]] *)
Fixpoint take (n : nat) (s : string) : string :=
  match n, s with
  | O, _ => EmptyString
  | S n', String c s' => String c (take n' s')
  | S _, EmptyString => EmptyString
  end.

(** [strings.HasPrefix(s, p)], returning the rest of [s] behind [p]. *)
Fixpoint stripPrefix (p s : string) : option string :=
  match p, s with
  | EmptyString, _ => Some s
  | String a p', String b s' =>
      if Ascii.eqb a b then stripPrefix p' s' else None
  | String _ _, EmptyString => None
  end.

Fixpoint rev_onto (s acc : string) : string :=
  match s with
  | EmptyString => acc
  | String c s' => rev_onto s' (String c acc)
  end.

Definition rev (s : string) : string := rev_onto s EmptyString.

Fixpoint all (p : ascii -> bool) (s : string) : bool :=
  match s with
  | EmptyString => true
  | String c s' => p c && all p s'
  end.

Definition isEmpty (s : string) : bool :=
  match s with EmptyString => true | _ => false end.

End Bytes.
Export Bytes.

(** ** strconv *)

Module strconv.

Inductive NumError := ErrSyntax | ErrRange.

(** The digit loop of [strconv.ParseUint(s, 10, 64)]: [n] is the value
    accumulated so far.  A byte that is no decimal digit is a syntax error
    with value 0; an overflow of [uint64] is a range error with value
    [maxUint64].  The first offending byte decides. *)
Fixpoint parseUintLoop (s : string) (n : Z) : Z * option NumError :=
  match s with
  | EmptyString => (n, None)
  | String c s' =>
      if negb (isDigit c) then (0, Some ErrSyntax)
      else if maxUint64 / 10 + 1 <=? n then (maxUint64, Some ErrRange)
      else
        let n1 := n * 10 + digitVal c in
        if maxUint64 <? n1 then (maxUint64, Some ErrRange)
        else parseUintLoop s' n1
  end.

Definition ParseUint (s : string) : Z * option NumError :=
  match s with
  | EmptyString => (0, Some ErrSyntax)
  | _ => parseUintLoop s 0
  end.

(** [strconv.ParseInt(s, 10, 64)]. *)
Definition ParseInt (s : string) : Z * option NumError :=
  match s with
  | EmptyString => (0, Some ErrSyntax)
  | String c0 s' =>
      let neg := Ascii.eqb c0 "-" in
      let body := if Ascii.eqb c0 "+" || neg then s' else s in
      let '(un, err) := ParseUint body in
      match err with
      | Some ErrSyntax => (0, Some ErrSyntax)
      | _ =>
          let cutoff := 2 ^ 63 in
          if negb neg && (cutoff <=? un) then (cutoff - 1, Some ErrRange)
          else if neg && (cutoff <? un) then (- cutoff, Some ErrRange)
          else (if neg then - un else un, None)
      end
  end.

(** [strconv.Atoi(s)] on a platform whose [int] has 64 bits: the value and
    the nil-ness of the error are those of [ParseInt(s, 10, 0)]. *)
Definition Atoi (s : string) : Z * option NumError := ParseInt s.

(** Decimal rendering of a non-negative integer ([%v] of an offset). *)
Fixpoint decimalAux (fuel : nat) (n : Z) (acc : string) : string :=
  match fuel with
  | O => String (digitChar (n mod 10)) acc
  | S fuel' =>
      if n <? 10 then String (digitChar n) acc
      else decimalAux fuel' (n / 10) (String (digitChar (n mod 10)) acc)
  end.

Definition decimal (n : Z) : string := decimalAux 20 n EmptyString.

End strconv.
Export strconv.

(** ** unicode/utf8 *)

Module utf8.

(** Width in bytes of the rune that [utf8.DecodeRuneInString] decodes at the
    head of [s]: 0 on the empty string, 1 for an ASCII byte and for every
    byte that does not start a well-formed encoding (decoded as
    [RuneError]), 2 to 4 for a well-formed multi-byte encoding. *)
Definition runeWidth (s : string) : nat :=
  let cont := between 128 191 in
  match s with
  | EmptyString => 0%nat
  | String b0 s1 =>
      if between 194 223 b0 then
        match s1 with
        | String b1 _ => if cont b1 then 2%nat else 1%nat
        | _ => 1%nat
        end
      else if between 224 239 b0 then
        match s1 with
        | String b1 (String b2 _) =>
            let lo := if code b0 =? 224 then 160 else 128 in
            let hi := if code b0 =? 237 then 159 else 191 in
            if between lo hi b1 && cont b2 then 3%nat else 1%nat
        | _ => 1%nat
        end
      else if between 240 244 b0 then
        match s1 with
        | String b1 (String b2 (String b3 _)) =>
            let lo := if code b0 =? 240 then 144 else 128 in
            let hi := if code b0 =? 244 then 143 else 191 in
            if between lo hi b1 && cont b2 && cont b3 then 4%nat else 1%nat
        | _ => 1%nat
        end
      else 1%nat
  end.

End utf8.

(** ** regexp

    The fragment of Go's [regexp] that [consume.go] uses: literals, byte
    classes, alternation, concatenation, greedy [?], greedy [+] over a class
    and capturing groups, with Go's leftmost-first (backtracking priority)
    semantics.  The classes of the two expressions of this program ([\d],
    [[^:]], [.]) are decided by ASCII bytes alone and a multi-byte rune
    consists of bytes above 127 only, so matching bytes and matching runes
    yield the same submatches. *)

Module regexp.

Inductive Regexp :=
| Lit (s : string)
| Class (p : ascii -> bool)
| Alt (a b : Regexp)
| Cat (a b : Regexp)
| Quest (a : Regexp)
| PlusClass (p : ascii -> bool)
| Group (i : nat) (a : Regexp).

(** Submatches recorded so far, by group number. *)
Definition caps := nat -> option string.

Definition noCaps : caps := fun _ => None.

Definition setCap (i : nat) (v : string) (c : caps) : caps :=
  fun j => if Nat.eqb j i then Some v else c j.

(** The bytes consumed between the input [s] and its suffix [s']. *)
Definition consumed (s s' : string) : string :=
  take (String.length s - String.length s') s.

Section Matcher.
Context {R : Type}.

(** [p+], preferring the longest run. *)
Fixpoint matchPlus (p : ascii -> bool) (s : string)
    (k : string -> option R) : option R :=
  match s with
  | String c s' =>
      if p c then
        match matchPlus p s' k with
        | Some r => Some r
        | None => k s'
        end
      else None
  | EmptyString => None
  end.

(** Backtracking matcher in continuation-passing style: [k] matches the
    rest of the expression on the rest of the input; the first success in
    priority order is the result. *)
Fixpoint matchRe (r : Regexp) (s : string) (c : caps)
    (k : string -> caps -> option R) : option R :=
  match r with
  | Lit l =>
      match stripPrefix l s with
      | Some s' => k s' c
      | None => None
      end
  | Class p =>
      match s with
      | String b s' => if p b then k s' c else None
      | EmptyString => None
      end
  | Alt a b =>
      match matchRe a s c k with
      | Some x => Some x
      | None => matchRe b s c k
      end
  | Cat a b => matchRe a s c (fun s' c' => matchRe b s' c' k)
  | Quest a =>
      match matchRe a s c k with
      | Some x => Some x
      | None => k s c
      end
  | PlusClass p => matchPlus p s (fun s' => k s' c)
  | Group i a =>
      matchRe a s c (fun s' c' => k s' (setCap i (consumed s s') c'))
  end.
End Matcher.

(** A match found in the input: its bounds and its submatches. *)
Record Match := { mStart : nat; mEnd : nat; mCaps : caps }.

(** The match at exactly the head of [s], which is at offset [pos]. *)
Definition matchHere (r : Regexp) (s : string) (pos : nat) : option Match :=
  matchRe r s noCaps (fun s' c =>
    Some {| mStart := pos;
            mEnd := (pos + (String.length s - String.length s'))%nat;
            mCaps := c |}).

(** [doExecute] of an unanchored expression: the leftmost match at or behind
    [pos], where [s] is the input from [pos] on. *)
Fixpoint execute (r : Regexp) (s : string) (pos : nat) : option Match :=
  match matchHere r s pos with
  | Some m => Some m
  | None =>
      match s with
      | String _ s' => execute r s' (S pos)
      | EmptyString => None
      end
  end.

(** The result row of one match: the whole match, then the text of each of
    the [n] groups, the empty string for a group that took no part. *)
Definition submatches (n : nat) (s : string) (m : Match) : list string :=
  take (mEnd m - mStart m) (drop (mStart m) s)
    :: map (fun i => default EmptyString (mCaps m i)) (seq 1 n).

(** The loop of the method [allMatches] of Go's [Regexp] with no bound on the number of
    matches: [pos] is the offset at which the next search starts,
    [prevMatchEnd] the end of the previous match ([-1] before the first).
    An empty match right behind the previous match is dropped; after an
    empty match the search moves on by one rune, otherwise to the end of
    the match.  [fuel] bounds the number of rounds. *)
Fixpoint allMatches (fuel : nat) (r : Regexp) (n : nat) (s : string)
    (pos : nat) (prevMatchEnd : Z) : list (list string) :=
  match fuel with
  | O => []
  | S fuel' =>
      if (String.length s <? pos)%nat then []
      else
        match execute r (drop pos s) pos with
        | None => []
        | Some m =>
            let empty := (mEnd m =? pos)%nat in
            let accept := negb (empty && (Z.of_nat (mStart m) =? prevMatchEnd)) in
            let width := utf8.runeWidth (drop pos s) in
            let pos' :=
              if empty then
                if (0 <? width)%nat then (pos + width)%nat
                else S (String.length s)
              else mEnd m in
            let rest := allMatches fuel' r n s pos' (Z.of_nat (mEnd m)) in
            if accept then submatches n s m :: rest else rest
        end
  end.

(** [re.FindAllStringSubmatch(s, -1)] for an expression with [n] groups.
    Every round moves [pos] forward and stops behind the end of the input,
    so [length s + 2] rounds are never used up. *)
Definition FindAllStringSubmatch (r : Regexp) (n : nat) (s : string)
    : list (list string) :=
  allMatches (String.length s + 2) r n s 0 (-1).

End regexp.
Export regexp.

(** ** strings *)

Module strings.

(** The six ASCII bytes of Go's [asciiSpace] table. *)
Definition asciiSpace (c : ascii) : bool :=
  between 9 13 c || (code c =? 32).

(** The encodings of the runes above 127 that [unicode.IsSpace] accepts:
    U+0085 and U+00A0 in two bytes; U+1680, U+2000 to U+200A, U+2028,
    U+2029, U+202F, U+205F and U+3000 in three. *)
Definition space2 (b0 b1 : ascii) : bool :=
  (code b0 =? 194) && ((code b1 =? 133) || (code b1 =? 160)).

Definition space3 (b0 b1 b2 : ascii) : bool :=
  ((code b0 =? 225) && (code b1 =? 154) && (code b2 =? 128))
  || ((code b0 =? 226) && (code b1 =? 128)
      && (between 128 138 b2 || between 168 169 b2 || (code b2 =? 175)))
  || ((code b0 =? 226) && (code b1 =? 129) && (code b2 =? 159))
  || ((code b0 =? 227) && (code b1 =? 128) && (code b2 =? 128)).

(** Drops the white space runes at the head of [s].  With [fwd = false] the
    input is a reversed string and the bytes of an encoding are met last
    byte first, as [DecodeLastRuneInString] walks them. *)
Fixpoint trimHead (fwd : bool) (s : string) : string :=
  match s with
  | EmptyString => EmptyString
  | String c0 s1 =>
      if asciiSpace c0 then trimHead fwd s1
      else
        match s1 with
        | EmptyString => s
        | String c1 s2 =>
            if (if fwd then space2 c0 c1 else space2 c1 c0)
            then trimHead fwd s2
            else
              match s2 with
              | EmptyString => s
              | String c2 s3 =>
                  if (if fwd then space3 c0 c1 c2 else space3 c2 c1 c0)
                  then trimHead fwd s3
                  else s
              end
        end
  end.

(** [strings.TrimSpace]: all leading and trailing white space removed, as
    defined by Unicode. *)
Definition TrimSpace (s : string) : string :=
  rev (trimHead false (rev (trimHead true s))).

(** [strings.Split(s, sep)] for a separator of one byte. *)
Fixpoint Split (s : string) (sep : ascii) : list string :=
  match s with
  | EmptyString => [EmptyString]
  | String c s' =>
      if Ascii.eqb c sep then EmptyString :: Split s' sep
      else
        match Split s' sep with
        | h :: t => String c h :: t
        | [] => [String c EmptyString]
        end
  end.

End strings.

(** ** sarama: constants and interfaces *)

Module sarama.

(** [sarama.OffsetNewest] and [sarama.OffsetOldest], as the library
    declares them. *)
Definition OffsetNewest : Z := -1.
Definition OffsetOldest : Z := -2.

(** Go's [error]: [None] is [nil], [Some msg] an error with that text. *)
Definition error := option string.

(** [sarama.Client]: [GetOffset(topic, partitionID, time)]. *)
Record Client := {
  GetOffset : string -> Z -> Z -> Z * error
}.

(** [sarama.Consumer]: [Partitions(topic)] and the error of
    [ConsumePartition(topic, partition, offset)]; the partition consumer it
    opens is the source of the events of the worker. *)
Record Consumer := {
  Partitions : string -> list Z * error;
  ConsumePartition : string -> Z -> Z -> error
}.

(** [sarama.PartitionOffsetManager]: [NextOffset()] answers the next offset
    to read and its metadata.  [MarkOffset] changes the manager and is
    recorded in the trace of the worker that calls it. *)
Record PartitionOffsetManager := {
  pomPartition : Z;
  NextOffset : Z * string
}.

(** [sarama.OffsetManager]: [ManagePartition(topic, partition)]. *)
Record OffsetManager := {
  ManagePartition : string -> Z -> PartitionOffsetManager * error
}.

(** [sarama.ConsumerMessage], the fields that [consume.go] reads. *)
Record ConsumerMessage := {
  Key : option string;
  Value : option string;
  Offset : Z;
  Partition : Z;
  Timestamp : option Z
}.

End sarama.
Export sarama.

(** ** Offsets and intervals *)

Definition offsetResume : Z := -3.

Record offset := {
  relative : bool;
  start : Z;
  diff : Z
}.

Record interval := {
  start_ : offset;
  end_ : offset
}.

Definition withRelative (b : bool) (o : offset) : offset :=
  {| relative := b; start := start o; diff := diff o |}.
Definition withStart (z : Z) (o : offset) : offset :=
  {| relative := relative o; start := z; diff := diff o |}.
Definition withDiff (z : Z) (o : offset) : offset :=
  {| relative := relative o; start := start o; diff := z |}.

Definition notColon (c : ascii) : bool := negb (Ascii.eqb c ":").
Definition notNewline (c : ascii) : bool := negb (code c =? 10).

(** [(oldest|newest|resume)?(-|\+)?(\d+)?] *)
Definition offsetRe : Regexp :=
  Cat (Quest (Group 1 (Alt (Lit "oldest") (Alt (Lit "newest") (Lit "resume")))))
 (Cat (Quest (Group 2 (Alt (Lit "-") (Lit "+"))))
      (Quest (Group 3 (PlusClass isDigit)))).

(** [(all|\d+)?=?([^:]+)?:?(.+)?] *)
Definition partitionRe : Regexp :=
  Cat (Quest (Group 1 (Alt (Lit "all") (PlusClass isDigit))))
 (Cat (Quest (Lit "="))
 (Cat (Quest (Group 2 (PlusClass notColon)))
 (Cat (Quest (Lit ":"))
      (Quest (Group 3 (PlusClass notNewline)))))).

(** [err != nil], and the [ok] of a map lookup. *)
Definition notNil {A : Type} (x : option A) : bool :=
  match x with Some _ => true | None => false end.

Definition errorf (pre arg : string) : error :=
  Some (pre +:+ "[" +:+ arg +:+ "]").

(** [parseOffset] behind the submatch row: [startStr], [qualifierStr] and
    [intStr] are [matches[0][1]], [matches[0][2]] and [matches[0][3]]. *)
Definition parseOffsetTokens (str startStr qualifierStr intStr : string)
    : offset * error :=
  let result := {| relative := false; start := 0; diff := 0 |} in
  let '(n, err) := ParseInt intStr in
  let result := withStart n result in
  if notNil err && (0 <? String.length intStr)%nat
  then (result, errorf "Invalid offset " str)
  else
    let result :=
      if (0 <? String.length qualifierStr)%nat then
        let result := withRelative true result in
        let result := withDiff (start result) result in
        let result := withStart OffsetOldest result in
        if String.eqb qualifierStr "-" then
          let result := withStart OffsetNewest result in
          withDiff (neg64 (diff result)) result
        else result
      else result in
    let result :=
      if String.eqb startStr "newest" then
        withStart OffsetNewest (withRelative true result)
      else if String.eqb startStr "oldest" then
        withStart OffsetOldest (withRelative true result)
      else if String.eqb startStr "resume" then
        withStart offsetResume (withRelative true result)
      else result in
    (result, None).

Definition parseOffset (str : string) : offset * error :=
  let result := {| relative := false; start := 0; diff := 0 |} in
  match FindAllStringSubmatch offsetRe 3 str with
  | [] => (result, errorf "Could not parse offset " str)
  | m0 :: _ =>
      if (length m0 <? 4)%nat
      then (result, errorf "Could not parse offset " str)
      else
        parseOffsetTokens str (nth 1 m0 EmptyString) (nth 2 m0 EmptyString)
          (nth 3 m0 EmptyString)
  end.

Definition defaultInterval : interval :=
  {| start_ := {| relative := true; start := OffsetOldest; diff := 0 |};
     end_ := {| relative := false; start := 2 ^ 63 - 1; diff := 0 |} |}.

(** The offset token at index [i] of a row of submatches: taken when the row
    has the index and the trimmed token is not empty, and kept only when
    [parseOffset] reports no error; otherwise [dflt] stays. *)
Definition offsetField (partitionMatches : list string) (i : nat)
    (dflt : offset) : offset :=
  if (i <? length partitionMatches)%nat
     && (0 <? String.length
               (strings.TrimSpace (nth i partitionMatches EmptyString)))%nat
  then
    let tok := strings.TrimSpace (nth i partitionMatches EmptyString) in
    let '(o, err) := parseOffset tok in
    match err with
    | None => o
    | Some _ => dflt
    end
  else dflt.

(** The partition of a segment from its token [partitionStr]: the wildcard
    [-1] for [all] and for no token, else [int32] of what [Atoi] reads. *)
Definition parsePartition (partitionStr : string) : Z * error :=
  if String.eqb partitionStr "all" || (String.length partitionStr =? 0)%nat
  then (-1, None)
  else
    let '(i, err) := Atoi partitionStr in
    match err with
    | Some _ => (0, errorf "Invalid partition " partitionStr)
    | None => (wrap32 i, None)
    end.

(** One round of the loop of [parseOffsets] over the segment
    [partitionInfo]: an error ends the function with the map built so far,
    [None] goes on with the next segment. *)
Definition parseOffsetsBody (result : gmap Z interval) (partitionInfo : string)
    : gmap Z interval * error :=
  let matches :=
    FindAllStringSubmatch partitionRe 3 (strings.TrimSpace partitionInfo) in
  match matches with
  | [partitionMatches] =>
      if (length partitionMatches <? 3)%nat
      then (result, errorf "Invalid partition info " partitionInfo)
      else
        match parsePartition (nth 1 partitionMatches EmptyString) with
        | (_, Some e) => (result, Some e)
        | (partition, None) =>
            let start := offsetField partitionMatches 2 (start_ defaultInterval) in
            let end' := offsetField partitionMatches 3 (end_ defaultInterval) in
            (<[partition := {| start_ := start; end_ := end' |}]> result, None)
        end
  | _ => (result, errorf "Invalid partition info " partitionInfo)
  end.

Fixpoint parseOffsetsLoop (segments : list string) (result : gmap Z interval)
    : gmap Z interval * error :=
  match segments with
  | [] => (result, None)
  | partitionInfo :: rest =>
      match parseOffsetsBody result partitionInfo with
      | (result', None) => parseOffsetsLoop rest result'
      | (result', Some e) => (result', Some e)
      end
  end.

Definition parseOffsets (str : string) : gmap Z interval * error :=
  if (String.length str =? 0)%nat
  then ({[ -1 := defaultInterval ]}, None)
  else parseOffsetsLoop (strings.Split str ",") ∅.

(** ** The command and its collaborators *)

(** [consumeCmd], the fields that the functions below read or write.
    [poms = None] is the nil map.  The embedded mutex orders the accesses of
    concurrent workers to [poms]; one call of [getPOM] is one critical
    section and is modelled as one state change. *)
Record consumeCmd := {
  topic : string;
  offsets : gmap Z interval;
  timeout : Z;
  encodeValue : string;
  encodeKey : string;
  group : string;
  client : Client;
  consumer : Consumer;
  offsetManager : OffsetManager;
  poms : option (gmap Z PartitionOffsetManager)
}.

Definition withPoms (m : gmap Z PartitionOffsetManager) (cmd : consumeCmd)
    : consumeCmd :=
  {| topic := topic cmd; offsets := offsets cmd; timeout := timeout cmd;
     encodeValue := encodeValue cmd; encodeKey := encodeKey cmd;
     group := group cmd; client := client cmd; consumer := consumer cmd;
     offsetManager := offsetManager cmd; poms := Some m |}.

(** A call either returns or ends the process. *)
Inductive outcome (A : Type) :=
| Ret (a : A)
| Fatal (msg : string).
Arguments Ret {A} a.
Arguments Fatal {A} msg.

(** Modelled from the spec: [failf] is declared outside [consume.go]; by
    section 7 a fatal error prints its diagnostic and terminates the
    process, so the call never returns to its caller. *)
Definition failf {A : Type} (msg : string) : outcome A := Fatal msg.

(** Methods of [*consumeCmd]: the command is threaded as state. *)
Definition M (A : Type) : Type := consumeCmd -> outcome (A * consumeCmd).

Definition ret {A} (a : A) : M A := fun cmd => Ret (a, cmd).

Definition bind {A B} (m : M A) (f : A -> M B) : M B :=
  fun cmd =>
    match m cmd with
    | Ret (a, cmd') => f a cmd'
    | Fatal msg => Fatal msg
    end.

Definition get : M consumeCmd := fun cmd => Ret (cmd, cmd).
Definition put (cmd : consumeCmd) : M unit := fun _ => Ret (tt, cmd).
Definition abort {A} (msg : string) : M A := fun _ => failf msg.

Notation "'do' x <- m ; f" := (bind m (fun x => f))
  (at level 10, x name, m at level 100, f at level 200).

Definition getPOM (p : Z) : M PartitionOffsetManager :=
  do cmd <- get;
  let poms0 := default ∅ (poms cmd) in
  match poms0 !! p with
  | Some pom => do _ <- put (withPoms poms0 cmd); ret pom
  | None =>
      let '(pom, err) := ManagePartition (offsetManager cmd) (topic cmd) p in
      match err with
      | Some e =>
          abort ("failed to create partition offset manager err=" +:+ e)
      | None => do _ <- put (withPoms (<[p := pom]> poms0) cmd); ret pom
      end
  end.

Definition resolveOffset (o : offset) (partition : Z) : M (Z * error) :=
  if negb (relative o) then ret (start o, None)
  else
    do cmd <- get;
    if (start o =? OffsetNewest) || (start o =? OffsetOldest) then
      let '(res, err) := GetOffset (client cmd) (topic cmd) partition (start o) in
      match err with
      | Some e => ret (0, Some e)
      | None =>
          let res := if start o =? OffsetNewest then sub64 res 1 else res in
          ret (add64 res (diff o), None)
      end
    else if start o =? offsetResume then
      if String.eqb (group cmd) ""
      then ret (0, Some "cannot resume without -group argument")
      else
        do pom <- getPOM partition;
        let '(next, _) := NextOffset pom in
        ret (next, None)
    else ret (add64 (start o) (diff o), None).

(** The guards under which [resolveOffset] reaches its last [return], the
    sum of [o.start] and [o.diff]: a relative offset whose start is none of
    the three reserved values. *)
Definition fallsThrough (o : offset) : bool :=
  relative o
  && negb ((start o =? OffsetNewest) || (start o =? OffsetOldest))
  && negb (start o =? offsetResume).

(** The loop of [findPartitions] over the partitions the broker reports. *)
Definition findPartitionsLoop (offsets : gmap Z interval) (all : list Z)
    : list Z :=
  fold_left
    (fun res p => if notNil (offsets !! p) then res ++ [p] else res)
    all [].

Definition findPartitions : M (list Z) :=
  do cmd <- get;
  let '(all, err) := Partitions (consumer cmd) (topic cmd) in
  match err with
  | Some e =>
      abort ("failed to read partitions for topic " +:+ topic cmd
             +:+ " err=" +:+ e)
  | None =>
      if notNil (offsets cmd !! (-1))
      then ret all
      else ret (findPartitionsLoop (offsets cmd) all)
  end.

(** [pom = cmd.getPOM(p)] under [cmd.group != ""], at the head of
    [partitionLoop]; [None] is the nil [pom] of a worker without group. *)
Definition workerPom (p : Z) : M (option PartitionOffsetManager) :=
  do cmd <- get;
  if negb (String.eqb (group cmd) "")
  then (do pm <- getPOM p; ret (Some pm))
  else ret None.

(** ** Consumed messages *)

(** The value of an [interface{}] field of a printed message. *)
Inductive encoded :=
| Nil
| Str (s : string)
| Decoded (v : string).

(** The codecs of [encoding/hex], [encoding/base64] and the schema registry
    decoder [ar]; [avroDecode] answers [None] when decoding fails. *)
Record Codecs := {
  hexEncodeToString : string -> string;
  base64EncodeToString : string -> string;
  avroDecode : string -> option string
}.

Record consumedMessage := {
  cmPartition : Z;
  cmOffset : Z;
  cmKey : encoded;
  cmValue : encoded;
  cmTimestamp : option Z
}.

Section Worker.
Variable codecs : Codecs.

(** [data == nil] is [None].  The line that a failed avro decoding logs is
    not part of the result. *)
Definition encodeBytes (data : option string) (encoding : string) : encoded :=
  match data with
  | None => Nil
  | Some d =>
      if String.eqb encoding "hex" then Str (hexEncodeToString codecs d)
      else if String.eqb encoding "base64"
      then Str (base64EncodeToString codecs d)
      else if String.eqb encoding "avro" then
        match avroDecode codecs d with
        | None => Nil
        | Some v => Decoded v
        end
      else Str d
  end.

(** [Timestamp = None] is the zero time, which the result leaves out. *)
Definition newConsumedMessage (m : ConsumerMessage)
    (encodeKey encodeValue : string) : consumedMessage :=
  {| cmPartition := Partition m;
     cmOffset := Offset m;
     cmKey := encodeBytes (Key m) encodeKey;
     cmValue := encodeBytes (Value m) encodeValue;
     cmTimestamp := Timestamp m |}.

(** *** The partition worker as a state machine

    The worker blocks at three places: in the [select] of the loop, in the
    send [out <- ctx] and in the receive [<-ctx.done].  An [event] is what
    lets it go on: a case of the [select], the sequencer taking the record
    from [out] ([Taken]), the sequencer signalling [ctx.done] ([Done]).  The
    sequencer [print] itself is declared outside [consume.go] and is part of
    the environment.  An [action] is an operation the worker has
    completed. *)
Inductive event :=
| TimerFired
| ConsumerError (err : string)
| MessagesClosed
| Message (msg : ConsumerMessage)
| Taken
| Done.

Inductive logLine :=
| LogTimedOut (p : Z) (d : Z)
| LogConsumerErr (p : Z) (err : string)
| LogClosedChan
| LogStartOffset (p : Z) (err : string)
| LogEndOffset (p : Z) (err : string)
| LogConsume (p : Z) (err : string).

Inductive action :=
| ArmTimer (d : Z)
| Recv (msg : ConsumerMessage)
| Send (m : consumedMessage)
| Acked
| MarkOffset (pom : PartitionOffsetManager) (offset : Z) (metadata : string)
| Log (l : logLine)
| ClosePartitionConsumer (p : Z).

Inductive wstate :=
| Selecting
| Sending (msg : ConsumerMessage)
| Waiting (msg : ConsumerMessage)
| Exited.

Section Loop.
Variable cmd : consumeCmd.
Variable pom : option PartitionOffsetManager.
Variable p : Z.
Variable end' : Z.

(** The head of the [for] loop: the timer is set anew when a timeout is
    configured; otherwise the timeout channel never delivers. *)
Definition loopHead : list action :=
  if 0 <? timeout cmd then [ArmTimer (timeout cmd)] else [].

(** [pom.MarkOffset(msg.Offset+1, "")] under [cmd.group != ""]; [pom]
    was set under the same condition before the loop. *)
Definition mark (msg : ConsumerMessage) : list action :=
  if negb (String.eqb (group cmd) "") then
    match pom with
    | Some pm => [MarkOffset pm (add64 (Offset msg) 1) ""]
    | None => []
    end
  else [].

(** Modelled from the spec: [logClose] is declared outside [consume.go];
    by section 4.6 a terminated worker releases its fetch stream, so the
    deferred call is the one action of closing the partition consumer. *)
Definition logClose : list action := [ClosePartitionConsumer p].

(** One step of [partitionLoop]; [None] when the event cannot occur in
    the state.  The deferred [logClose] runs on every return. *)
Definition step (st : wstate) (ev : event) : option (wstate * list action) :=
  match st, ev with
  | Selecting, TimerFired =>
      if 0 <? timeout cmd
      then Some (Exited, Log (LogTimedOut p (timeout cmd)) :: logClose)
      else None
  | Selecting, ConsumerError err =>
      Some (Exited, Log (LogConsumerErr p err) :: logClose)
  | Selecting, MessagesClosed =>
      Some (Exited, Log LogClosedChan :: logClose)
  | Selecting, Message msg => Some (Sending msg, [Recv msg])
  | Sending msg, Taken =>
      Some (Waiting msg,
            [Send (newConsumedMessage msg (encodeKey cmd) (encodeValue cmd))])
  | Waiting msg, Done =>
      if (0 <? end') && (end' <=? Offset msg)
      then Some (Exited, Acked :: mark msg ++ logClose)
      else Some (Selecting, Acked :: mark msg ++ loopHead)
  | _, _ => None
  end.

(** The worker from state [st] under the events [evs]: the state it
    reaches and the actions it completes, in order. *)
Fixpoint run (st : wstate) (evs : list event)
    : option (wstate * list action) :=
  match evs with
  | [] => Some (st, [])
  | ev :: evs' =>
      match step st ev with
      | None => None
      | Some (st', acts) =>
          match run st' evs' with
          | None => None
          | Some (st'', acts') => Some (st'', acts ++ acts')
          end
      end
  end.
End Loop.

(** [partitionLoop] up to the events [evs]: the offset manager of the
    partition is fetched when a group is set, then the loop runs. *)
Definition partitionLoop (p : Z) (end' : Z) (evs : list event)
    : M (option (wstate * list action)) :=
  do pom <- workerPom p;
  do cmd <- get;
  ret (match run cmd pom p end' Selecting evs with
       | Some (st, acts) => Some (st, loopHead cmd ++ acts)
       | None => None
       end).

(** [cmd.offsets[partition]], else [cmd.offsets[-1]], else the zero
    [interval]. *)
Definition lookupInterval (offsets : gmap Z interval) (partition : Z)
    : interval :=
  let zero := {| relative := false; start := 0; diff := 0 |} in
  match offsets !! partition with
  | Some i => i
  | None => default {| start_ := zero; end_ := zero |} (offsets !! (-1))
  end.

(** [consumePartition] up to the events [evs] of its worker. *)
Definition consumePartition (partition : Z) (evs : list event)
    : M (option (wstate * list action)) :=
  do cmd <- get;
  let offsets := lookupInterval (offsets cmd) partition in
  do s <- resolveOffset (start_ offsets) partition;
  match s with
  | (_, Some err) => ret (Some (Exited, [Log (LogStartOffset partition err)]))
  | (start, None) =>
      do e <- resolveOffset (end_ offsets) partition;
      match e with
      | (_, Some err) => ret (Some (Exited, [Log (LogEndOffset partition err)]))
      | (end', None) =>
          match ConsumePartition (consumer cmd) (topic cmd) partition start with
          | Some err => ret (Some (Exited, [Log (LogConsume partition err)]))
          | None => partitionLoop partition end' evs
          end
      end
  end.
End Worker.

(** ** Vocabulary of the statements *)

(** Longest prefix of bytes in the class [p], and what follows it. *)
Fixpoint takeWhile (p : ascii -> bool) (s : string) : string :=
  match s with
  | String c s' => if p c then String c (takeWhile p s') else EmptyString
  | EmptyString => EmptyString
  end.

Fixpoint dropWhile (p : ascii -> bool) (s : string) : string :=
  match s with
  | String c s' => if p c then dropWhile p s' else s
  | EmptyString => EmptyString
  end.

(** What the offset expression captures at the head of a token, written
    without the matcher: the anchor word, the sign and the run of digits. *)
Definition keyword (s : string) : option (string * string) :=
  match stripPrefix "oldest" s with
  | Some s' => Some ("oldest", s')
  | None =>
      match stripPrefix "newest" s with
      | Some s' => Some ("newest", s')
      | None =>
          match stripPrefix "resume" s with
          | Some s' => Some ("resume", s')
          | None => None
          end
      end
  end.

Definition sign (s : string) : option (string * string) :=
  match stripPrefix "-" s with
  | Some s' => Some ("-", s')
  | None =>
      match stripPrefix "+" s with
      | Some s' => Some ("+", s')
      | None => None
      end
  end.

Definition afterKeyword (s : string) : string :=
  match keyword s with Some (_, s') => s' | None => s end.
Definition afterSign (s : string) : string :=
  match sign s with Some (_, s') => s' | None => s end.

Definition startTok (str : string) : string :=
  match keyword str with Some (w, _) => w | None => "" end.
Definition qualifierTok (str : string) : string :=
  match sign (afterKeyword str) with Some (q, _) => q | None => "" end.
Definition intTok (str : string) : string :=
  takeWhile isDigit (afterSign (afterKeyword str)).

Definition offsetCaps (s : string) : caps :=
  let c1 := match keyword s with
            | Some (w, _) => setCap 1 w noCaps
            | None => noCaps
            end in
  let c2 := match sign (afterKeyword s) with
            | Some (q, _) => setCap 2 q c1
            | None => c1
            end in
  if isEmpty (intTok s) then c2 else setCap 3 (intTok s) c2.

(** Value of a run of decimal digits read behind the value [n]. *)
Fixpoint digitsAcc (s : string) (n : Z) : Z :=
  match s with
  | EmptyString => n
  | String c s' => digitsAcc s' (n * 10 + digitVal c)
  end.

Definition digitsValue (s : string) : Z := digitsAcc s 0.


(** The events of records that are fetched, handed to the sequencer and
    acknowledged, one after the other. *)
Definition served (msgs : list ConsumerMessage) : list event :=
  flat_map (fun m => [Message m; Taken; Done]) msgs.



(** The order of the actions of a worker with the offset manager [pm]:
    every [Send] comes right behind the [Recv] of its record and is followed
    by nothing but [Acked]; every [Acked] comes right behind a [Send] and
    right before the [MarkOffset] of the next offset; every [MarkOffset]
    comes right behind such a triple.  The last field ties the end of the
    trace to the state. *)
Record ordered (codecs : Codecs) (cmd : consumeCmd)
    (pm : PartitionOffsetManager) (st : wstate) (tr : list action) : Prop := {
  ord_send : forall i m, tr !! i = Some (Send m) ->
    exists j msg, i = S j /\ tr !! j = Some (Recv msg)
      /\ m = newConsumedMessage codecs msg (encodeKey cmd) (encodeValue cmd);
  ord_acked : forall i, tr !! i = Some Acked ->
    exists j msg, i = S (S j) /\ tr !! j = Some (Recv msg)
      /\ tr !! S j
         = Some (Send (newConsumedMessage codecs msg (encodeKey cmd)
                         (encodeValue cmd)))
      /\ tr !! S i = Some (MarkOffset pm (add64 (Offset msg) 1) "");
  ord_mark : forall i pm' o md, tr !! i = Some (MarkOffset pm' o md) ->
    exists j msg, i = S (S (S j)) /\ tr !! j = Some (Recv msg)
      /\ tr !! S j
         = Some (Send (newConsumedMessage codecs msg (encodeKey cmd)
                         (encodeValue cmd)))
      /\ tr !! S (S j) = Some Acked
      /\ pm' = pm /\ o = add64 (Offset msg) 1 /\ md = "";
  ord_next : forall i m, tr !! i = Some (Send m) -> (S i < length tr)%nat ->
    tr !! S i = Some Acked;
  ord_tail :
    match st with
    | Sending msg => exists tr0, tr = tr0 ++ [Recv msg]
    | Waiting msg =>
        exists tr0,
          tr = tr0 ++ [Recv msg;
                       Send (newConsumedMessage codecs msg (encodeKey cmd)
                               (encodeValue cmd))]
    | _ => forall m, last tr <> Some (Send m)
    end
}.

(** ** Concrete commands and records *)

Definition plainCodecs : Codecs :=
  {| hexEncodeToString := fun s => s;
     base64EncodeToString := fun s => s;
     avroDecode := fun s => Some s |}.

Definition record (k : Z) : ConsumerMessage :=
  {| Key := None; Value := Some "v"; Offset := k; Partition := 0;
     Timestamp := None |}.

Definition printed (k : Z) : consumedMessage :=
  {| cmPartition := 0; cmOffset := k; cmKey := Nil; cmValue := Str "v";
     cmTimestamp := None |}.

(** A command for the topic ["t"] with the ranges [spec] and the group [g];
    the broker reports the boundary [b] and the partitions 0, 1 and 2, the
    offset manager the checkpoint [next]. *)
Definition testCmd (spec g : string) (b next : Z) : consumeCmd :=
  {| topic := "t"; offsets := fst (parseOffsets spec); timeout := 0;
     encodeValue := "string"; encodeKey := "string"; group := g;
     client := {| GetOffset := fun _ _ _ => (b, None) |};
     consumer := {| Partitions := fun _ => ([0; 1; 2], None);
                    ConsumePartition := fun _ _ _ => None |};
     offsetManager :=
       {| ManagePartition := fun _ p =>
            ({| pomPartition := p; NextOffset := (next, "") |}, None) |};
     poms := None |}.

(** ** parseArgs *)

(** [strings.Contains(s, sub)] for a substring [sub] of the one byte [c]. *)
Fixpoint containsByte (c : ascii) (s : string) : bool :=
  match s with
  | EmptyString => false
  | String b s' => Ascii.eqb b c || containsByte c s'
  end.

(** [consumeArgs], the values of the flags behind [parseFlags]. *)
Module consumeArgs.
Record t := {
  topic : string;
  brokers : string;
  tlsCA : string;
  tlsCert : string;
  tlsCertKey : string;
  timeout : Z;
  offsets : string;
  verbose : bool;
  version : string;
  encodeValue : string;
  encodeKey : string;
  encodeAvro : bool;
  pretty : bool;
  group : string
}.
End consumeArgs.

(** The fields of [consumeCmd] that [parseArgs] writes; [V] is
    [sarama.KafkaVersion]. *)
Module parsed.
Record t (V : Type) := {
  topic : string;
  tlsCA : string;
  tlsCert : string;
  tlsCertKey : string;
  timeout : Z;
  verbose : bool;
  pretty : bool;
  version : V;
  group : string;
  encodeValue : string;
  encodeKey : string;
  brokers : list string;
  offsets : gmap Z interval
}.
Arguments topic {V} _.
Arguments tlsCA {V} _.
Arguments tlsCert {V} _.
Arguments tlsCertKey {V} _.
Arguments timeout {V} _.
Arguments verbose {V} _.
Arguments pretty {V} _.
Arguments version {V} _.
Arguments group {V} _.
Arguments encodeValue {V} _.
Arguments encodeKey {V} _.
Arguments brokers {V} _.
Arguments offsets {V} _.
End parsed.

(** The lines that [failStartup] prints; [shown] is the value that the
    format of the line shows. *)
Inductive startupLine :=
| TopicRequired
| UnsupportedEncodeValue (shown : string)
| UnsupportedEncodeKey (shown : string)
| SchemaRegistryNotSet
| OffsetsError (err : string).

Definition usageHint : string :=
  let quote := String (Ascii.ascii_of_N 34) EmptyString in
  "use " +:+ quote +:+ "kt consume -help" +:+ quote +:+ " for more information".

(** [failStartup]: the line goes to the error stream, then [failf] ends the
    process. *)
Definition failStartup {A : Type} (line : startupLine)
    : list startupLine * outcome A :=
  ([line], failf usageHint).

Definition supportedEncoding (e : string) : bool :=
  String.eqb e "string" || String.eqb e "hex" || String.eqb e "base64"
  || String.eqb e "avro".

(** The port 9092 for a broker without colon. *)
Definition withPort (b : string) : string :=
  if containsByte ":" b then b else b +:+ ":9092".

Section ParseArgs.
Variable V : Type.

(** [kafkaVersion] is declared outside [consume.go]; it reads the protocol
    version or ends the process. *)
Variable kafkaVersion : string -> outcome V.

(** [parseArgs] behind [parseFlags]: [envTopic] and [envBrokers] are the
    values of [KT_TOPIC] and [KT_BROKERS], [schemaRegistryUrl] that of the
    package variable.  The result is what the error stream receives and the
    fields written, or the end of the process. *)
Definition parseArgs (envTopic envBrokers schemaRegistryUrl : string)
    (args : consumeArgs.t) : list startupLine * outcome (parsed.t V) :=
  if isEmpty (consumeArgs.topic args) && isEmpty envTopic
  then failStartup TopicRequired
  else
    let topic :=
      if isEmpty (consumeArgs.topic args) then envTopic
      else consumeArgs.topic args in
    match kafkaVersion (consumeArgs.version args) with
    | Fatal msg => ([], Fatal msg)
    | Ret version =>
        let encodeValue :=
          if consumeArgs.encodeAvro args then "avro"
          else consumeArgs.encodeValue args in
        let encodeKey :=
          if consumeArgs.encodeAvro args then "avro"
          else consumeArgs.encodeKey args in
        if negb (supportedEncoding encodeValue)
        then failStartup (UnsupportedEncodeValue encodeValue)
        else if negb (supportedEncoding encodeKey)
        then failStartup (UnsupportedEncodeKey encodeValue)
        else if (String.eqb encodeKey "avro" || String.eqb encodeValue "avro")
                && isEmpty schemaRegistryUrl
        then failStartup SchemaRegistryNotSet
        else
          let brokers :=
            if isEmpty (consumeArgs.brokers args) then
              if negb (isEmpty envBrokers) then envBrokers else "localhost:9092"
            else consumeArgs.brokers args in
          let brokers := map withPort (strings.Split brokers ",") in
          let '(offsets, err) := parseOffsets (consumeArgs.offsets args) in
          match err with
          | Some e => failStartup (OffsetsError e)
          | None =>
              ([], Ret {| parsed.topic := topic;
                          parsed.tlsCA := consumeArgs.tlsCA args;
                          parsed.tlsCert := consumeArgs.tlsCert args;
                          parsed.tlsCertKey := consumeArgs.tlsCertKey args;
                          parsed.timeout := consumeArgs.timeout args;
                          parsed.verbose := consumeArgs.verbose args;
                          parsed.pretty := consumeArgs.pretty args;
                          parsed.version := version;
                          parsed.group := consumeArgs.group args;
                          parsed.encodeValue := encodeValue;
                          parsed.encodeKey := encodeKey;
                          parsed.brokers := brokers;
                          parsed.offsets := offsets |})
          end
    end.
End ParseArgs.

(** ** More vocabulary of the statements *)

(** The reserved start of an anchor word. *)
Definition anchorOf (w : string) : Z :=
  if String.eqb w "newest" then OffsetNewest
  else if String.eqb w "oldest" then OffsetOldest
  else offsetResume.

(** A byte with which neither an anchor word, nor a sign, nor digits
    start. *)
Definition startsNoToken (c : ascii) : bool :=
  negb (isDigit c || Ascii.eqb c "o" || Ascii.eqb c "n" || Ascii.eqb c "r"
        || Ascii.eqb c "+" || Ascii.eqb c "-").

Definition headIs (p : ascii -> bool) (s : string) : bool :=
  match s with
  | EmptyString => false
  | String c _ => p c
  end.

(** What the partition expression captures at the head of a segment,
    written without the matcher: the partition token and what follows it,
    the start token, the end token, and what the match leaves. *)
Definition partToken (s : string) : string * string :=
  match stripPrefix "all" s with
  | Some s' => ("all", s')
  | None => (takeWhile isDigit s, dropWhile isDigit s)
  end.

Definition skipLit (l s : string) : string :=
  match stripPrefix l s with Some s' => s' | None => s end.

Definition afterPartition (s : string) : string := skipLit "=" (snd (partToken s)).
Definition segStart (s : string) : string := takeWhile notColon (afterPartition s).
Definition afterStart (s : string) : string :=
  skipLit ":" (dropWhile notColon (afterPartition s)).
Definition segEnd (s : string) : string := takeWhile notNewline (afterStart s).
Definition segRest (s : string) : string := dropWhile notNewline (afterStart s).

Definition partitionCaps (s : string) : caps :=
  let c1 := if isEmpty (fst (partToken s)) then noCaps
            else setCap 1 (fst (partToken s)) noCaps in
  let c2 := if isEmpty (segStart s) then c1 else setCap 2 (segStart s) c1 in
  if isEmpty (segEnd s) then c2 else setCap 3 (segEnd s) c2.

(** An ASCII byte that is no white space. *)
Definition plain (c : ascii) : bool := (code c <? 128) && negb (strings.asciiSpace c).

Fixpoint lastIs (p : ascii -> bool) (s : string) : bool :=
  match s with
  | EmptyString => false
  | String c EmptyString => p c
  | String _ s' => lastIs p s'
  end.

(** The offset that [parseOffsets] keeps for the token [tok] of a field
    with the default [dflt]. *)
Definition offsetOr (dflt : offset) (tok : string) : offset :=
  match parseOffset tok with
  | (o, None) => o
  | (_, Some _) => dflt
  end.

Definition absolute (n : Z) : offset :=
  {| relative := false; start := n; diff := 0 |}.

(** The same for a token that may be missing: the default stays. *)
Definition fieldOr (dflt : offset) (tok : string) : offset :=
  if isEmpty tok then dflt else offsetOr dflt tok.

Definition notComma (c : ascii) : bool := negb (Ascii.eqb c ",").

(** The segment [P=S:E] of decimal numbers. *)
Definition numericSegment (P S E : Z) : string :=
  decimal P +:+ "=" +:+ decimal S +:+ ":" +:+ decimal E.

(** What follows the first colon of [s]; empty when [s] has no colon. *)
Definition afterColon (s : string) : string :=
  match dropWhile notColon s with
  | String _ r => r
  | EmptyString => EmptyString
  end.

(** Projections of the events and of the trace of a worker: the records
    delivered by the fetch stream, the records the worker fetched, and the
    records it handed to the sequencer. *)
Definition messages (evs : list event) : list ConsumerMessage :=
  omap (fun ev => match ev with Message m => Some m | _ => None end) evs.

Definition recvs (tr : list action) : list ConsumerMessage :=
  omap (fun a => match a with Recv m => Some m | _ => None end) tr.

Definition sends (tr : list action) : list consumedMessage :=
  omap (fun a => match a with Send m => Some m | _ => None end) tr.

Definition isMark (a : action) : bool :=
  match a with MarkOffset _ _ _ => true | _ => false end.

Definition isClose (a : action) : bool :=
  match a with ClosePartitionConsumer _ => true | _ => false end.

Definition isTimerAction (a : action) : bool :=
  match a with
  | ArmTimer _ | Log (LogTimedOut _ _) => true
  | _ => false
  end.

(** What the worker hands to the sequencer for the record [m]. *)
Definition emitted (codecs : Codecs) (cmd : consumeCmd) (m : ConsumerMessage)
    : consumedMessage :=
  newConsumedMessage codecs m (encodeKey cmd) (encodeValue cmd).

(** The record that the worker has fetched and not yet handed over. *)
Definition unsent (st : wstate) : list ConsumerMessage :=
  match st with Sending m => [m] | _ => [] end.

(** Scans a trace for the timer: [ArmTimer d] arms it, a [Recv] needs it
    armed and uses it up.  [None] when a record is fetched with the timer
    not armed, else whether the timer is armed at the end. *)
Fixpoint timerScan (d : Z) (armed : bool) (tr : list action) : option bool :=
  match tr with
  | [] => Some armed
  | ArmTimer d' :: tr' => if d' =? d then timerScan d true tr' else None
  | Recv _ :: tr' => if armed then timerScan d false tr' else None
  | _ :: tr' => timerScan d armed tr'
  end.

(** The deferred close of a worker: done once, as its last action, by a
    worker that has returned, and not done by one that is running. *)
Definition closedOnce (p : Z) (st : wstate) (tr : list action) : Prop :=
  match st with
  | Exited => exists tr0, tr = tr0 ++ [ClosePartitionConsumer p]
                /\ Forall (fun a => isClose a = false) tr0
  | _ => Forall (fun a => isClose a = false) tr
  end.

(** The timer is armed whenever the worker fetches, and whenever it waits
    in its [select]. *)
Definition timerInv (cmd : consumeCmd) (st : wstate) (tr : list action) : Prop :=
  exists b, timerScan (timeout cmd) false tr = Some b
            /\ (st = Selecting -> b = true).


(** [testCmd] with the timeout [d]. *)
Definition timedCmd (d : Z) (spec g : string) (b next : Z) : consumeCmd :=
  let c := testCmd spec g b next in
  {| topic := topic c; offsets := offsets c; timeout := d;
     encodeValue := encodeValue c; encodeKey := encodeKey c; group := group c;
     client := client c; consumer := consumer c;
     offsetManager := offsetManager c; poms := poms c |}.

(** The values that [parseFlags] gives the flags that are not set, with
    the topic [t]. *)
Definition flagDefaults (t : string) : consumeArgs.t :=
  {| consumeArgs.topic := t; consumeArgs.brokers := "";
     consumeArgs.tlsCA := ""; consumeArgs.tlsCert := "";
     consumeArgs.tlsCertKey := ""; consumeArgs.timeout := 0;
     consumeArgs.offsets := ""; consumeArgs.verbose := false;
     consumeArgs.version := ""; consumeArgs.encodeValue := "string";
     consumeArgs.encodeKey := "string"; consumeArgs.encodeAvro := false;
     consumeArgs.pretty := true; consumeArgs.group := "" |}.

(** [flagDefaults] with the encodings [v] and [k] and the brokers [b]. *)
Definition flagsWith (t v k b : string) : consumeArgs.t :=
  {| consumeArgs.topic := t; consumeArgs.brokers := b;
     consumeArgs.tlsCA := ""; consumeArgs.tlsCert := "";
     consumeArgs.tlsCertKey := ""; consumeArgs.timeout := 0;
     consumeArgs.offsets := ""; consumeArgs.verbose := false;
     consumeArgs.version := ""; consumeArgs.encodeValue := v;
     consumeArgs.encodeKey := k; consumeArgs.encodeAvro := false;
     consumeArgs.pretty := true; consumeArgs.group := "" |}.

(** * Facts *)

(** ** Strings and the matcher *)

Lemma length_stripPrefix p : forall s s',
  stripPrefix p s = Some s' ->
  String.length s = (String.length p + String.length s')%nat.
Proof.
  induction p as [|a p IH]; intros s s' H; simpl in *.
  - by inversion H.
  - destruct s as [|b s]; [done|].
    destruct (Ascii.eqb a b); [|done]. simpl. f_equal. by apply IH.
Qed.

Lemma stripPrefix_take p : forall s s',
  stripPrefix p s = Some s' -> take (String.length p) s = p.
Proof.
  induction p as [|a p IH]; intros s s' H; simpl in *; [done|].
  destruct s as [|b s]; [done|].
  destruct (Ascii.eqb_spec a b) as [->|]; [|done].
  f_equal. by eapply IH.
Qed.

Lemma consumed_length s s' n :
  String.length s = (n + String.length s')%nat -> consumed s s' = take n s.
Proof. intros H. unfold consumed. f_equal. lia. Qed.

Lemma stripPrefix_consumed p s s' :
  stripPrefix p s = Some s' -> consumed s s' = p.
Proof.
  intros H. rewrite (consumed_length _ _ (String.length p)).
  - by eapply stripPrefix_take.
  - by apply length_stripPrefix.
Qed.

Lemma length_takeWhile_dropWhile p s :
  String.length s =
  (String.length (takeWhile p s) + String.length (dropWhile p s))%nat.
Proof. induction s as [|c s IH]; simpl; [done|]. destruct (p c); simpl; lia. Qed.

Lemma take_takeWhile p s : take (String.length (takeWhile p s)) s = takeWhile p s.
Proof. induction s as [|c s IH]; simpl; [done|]. destruct (p c); simpl; by f_equal. Qed.

Lemma consumed_dropWhile p s : consumed s (dropWhile p s) = takeWhile p s.
Proof.
  rewrite (consumed_length _ _ (String.length (takeWhile p s))).
  - apply take_takeWhile.
  - apply length_takeWhile_dropWhile.
Qed.

Lemma takeWhile_all p s : all p s = true -> takeWhile p s = s.
Proof.
  induction s as [|c s IH]; simpl; [done|].
  intros [-> Hs]%andb_prop. by rewrite IH.
Qed.

Lemma all_takeWhile p s : all p (takeWhile p s) = true.
Proof.
  induction s as [|c s IH]; simpl; [done|].
  destruct (p c) eqn:Hc; simpl; [by rewrite Hc|done].
Qed.

Lemma isEmpty_true s : isEmpty s = true -> s = EmptyString.
Proof. by destruct s. Qed.

Lemma length_pos_nonempty s : (0 <? String.length s)%nat = negb (isEmpty s).
Proof. by destruct s. Qed.

Lemma matchRe_Cat {R} a b s c (k : string -> caps -> option R) :
  matchRe (Cat a b) s c k = matchRe a s c (fun s' c' => matchRe b s' c' k).
Proof. reflexivity. Qed.

(** *** Answers of the matcher come from its continuation *)

Lemma matchPlus_result {R} p s (k : string -> option R) x :
  matchPlus p s k = Some x ->
  exists s', k s' = Some x /\ (String.length s' <= String.length s)%nat.
Proof.
  revert x. induction s as [|c s IH]; intros x; cbn [matchPlus]; [done|].
  destruct (p c); [|done].
  destruct (matchPlus p s k) as [y|] eqn:E.
  - intros [= <-]. destruct (IH y eq_refl) as (s' & Hk & Hl).
    exists s'. split; [done|]. cbn. lia.
  - intros Hk. exists s. split; [done|]. cbn. lia.
Qed.

Lemma matchRe_result {R} r : forall s c (k : string -> caps -> option R) x,
  matchRe r s c k = Some x ->
  exists s' c', k s' c' = Some x /\ (String.length s' <= String.length s)%nat.
Proof.
  induction r as [l | p | a IHa b IHb | a IHa b IHb | a IHa | p | i a IHa];
    intros s c k x; cbn [matchRe].
  - destruct (stripPrefix l s) as [s'|] eqn:E; [|done].
    intros Hk. exists s', c. split; [done|].
    apply length_stripPrefix in E. lia.
  - destruct s as [|ch s]; [done|]. destruct (p ch); [|done].
    intros Hk. exists s, c. split; [done|]. cbn. lia.
  - destruct (matchRe a s c k) as [y|] eqn:E.
    + intros [= <-]. by eapply IHa.
    + by apply IHb.
  - intros H. apply IHa in H as (s1 & c1 & H & Hl1).
    apply IHb in H as (s2 & c2 & H & Hl2). exists s2, c2. split; [done|lia].
  - destruct (matchRe a s c k) as [y|] eqn:E.
    + intros [= <-]. by eapply IHa.
    + intros Hk. exists s, c. split; [done|lia].
  - intros H. apply matchPlus_result in H as (s' & H & Hl). eauto.
  - intros H. apply IHa in H as (s' & c' & H & Hl). eauto.
Qed.

Lemma matchHere_bounds r s pos m :
  matchHere r s pos = Some m ->
  mStart m = pos /\ (pos <= mEnd m <= pos + String.length s)%nat.
Proof.
  unfold matchHere. intros H.
  apply matchRe_result in H as (s' & c' & [= <-] & Hl). cbn. lia.
Qed.

Lemma execute_here r s pos m :
  matchHere r s pos = Some m -> execute r s pos = Some m.
Proof. intros H. destruct s; simpl; by rewrite H. Qed.

Lemma execute_bounds r s : forall pos m,
  execute r s pos = Some m ->
  (pos <= mStart m <= mEnd m)%nat /\ (mEnd m <= pos + String.length s)%nat.
Proof.
  induction s as [|c s IH]; intros pos m; cbn [execute].
  - destruct (matchHere r "" pos) as [m'|] eqn:E; [|done].
    intros [= <-]. apply matchHere_bounds in E. cbn in *. lia.
  - destruct (matchHere r (String c s) pos) as [m'|] eqn:E.
    + intros [= <-]. apply matchHere_bounds in E. cbn in *. lia.
    + intros H%IH. cbn. lia.
Qed.

(** With [length s + 2 - pos] rounds the loop of [allMatches] has all the
    rounds it takes: more fuel changes nothing. *)
Lemma allMatches_fuel r n s fuel : forall fuel' pos prev,
  (String.length s + 2 - pos <= fuel)%nat -> (fuel <= fuel')%nat ->
  allMatches fuel' r n s pos prev = allMatches fuel r n s pos prev.
Proof.
  induction fuel as [|fuel IH]; intros fuel' pos prev Hf Hle.
  - destruct fuel' as [|fuel']; [done|]. cbn [allMatches].
    destruct (Nat.ltb_spec (String.length s) pos); [done|lia].
  - destruct fuel' as [|fuel']; [lia|]. cbn [allMatches].
    destruct (Nat.ltb_spec (String.length s) pos) as [|Hpos]; [done|].
    destruct (execute r (drop pos s) pos) as [m|] eqn:E; [|done].
    apply execute_bounds in E as [Hb _].
    set (pos' := if (mEnd m =? pos)%nat then _ else _).
    assert (pos < pos')%nat as Hlt.
    { subst pos'. destruct (Nat.eqb_spec (mEnd m) pos).
      - destruct (Nat.ltb_spec 0 (utf8.runeWidth (drop pos s))); lia.
      - lia. }
    rewrite (IH fuel' pos') by lia. done.
Qed.

Lemma FindAllStringSubmatch_fuel r n s fuel :
  (String.length s + 2 <= fuel)%nat ->
  allMatches fuel r n s 0 (-1) = FindAllStringSubmatch r n s.
Proof. intros H. unfold FindAllStringSubmatch. apply allMatches_fuel; lia. Qed.



(** ** The offset expression on any input *)

Section OffsetRe.
Context {R : Type} (k : string -> caps -> option R).
Hypothesis Hk : forall s c, is_Some (k s c).

Ltac total :=
  repeat match goal with
  | |- context [match k ?s ?c with _ => _ end] =>
      let r := fresh "r" in destruct (Hk s c) as [r ->]
  end.

Lemma matchPlus_total p (k' : string -> option R) :
  (forall s, is_Some (k' s)) ->
  forall s, matchPlus p s k' =
    match s with
    | String c _ => if p c then k' (dropWhile p s) else None
    | EmptyString => None
    end.
Proof.
  intros Hk'. induction s as [|c s IH]; simpl; [done|].
  destruct (p c) eqn:Hc; [|done].
  rewrite IH. destruct s as [|c' s']; simpl.
  - done.
  - destruct (p c') eqn:Hc'; [|done].
    destruct (Hk' (dropWhile p s')) as [r ->]. done.
Qed.

Lemma match_keyword s c :
  matchRe (Quest (Group 1 (Alt (Lit "oldest") (Alt (Lit "newest") (Lit "resume")))))
    s c k
  = match keyword s with
    | Some (w, s') => k s' (setCap 1 w c)
    | None => k s c
    end.
Proof.
  cbn [matchRe]. unfold keyword.
  destruct (stripPrefix "oldest" s) as [s'|] eqn:E1.
  { rewrite (stripPrefix_consumed _ _ _ E1). by total. }
  destruct (stripPrefix "newest" s) as [s'|] eqn:E2.
  { rewrite (stripPrefix_consumed _ _ _ E2). by total. }
  destruct (stripPrefix "resume" s) as [s'|] eqn:E3.
  { rewrite (stripPrefix_consumed _ _ _ E3). by total. }
  done.
Qed.

Lemma match_sign s c :
  matchRe (Quest (Group 2 (Alt (Lit "-") (Lit "+")))) s c k
  = match sign s with
    | Some (q, s') => k s' (setCap 2 q c)
    | None => k s c
    end.
Proof.
  cbn [matchRe]. unfold sign.
  destruct (stripPrefix "-" s) as [s'|] eqn:E1.
  { rewrite (stripPrefix_consumed _ _ _ E1). by total. }
  destruct (stripPrefix "+" s) as [s'|] eqn:E2.
  { rewrite (stripPrefix_consumed _ _ _ E2). by total. }
  done.
Qed.

Lemma match_digits i p s c :
  matchRe (Quest (Group i (PlusClass p))) s c k
  = if isEmpty (takeWhile p s) then k s c
    else k (dropWhile p s) (setCap i (takeWhile p s) c).
Proof.
  cbn [matchRe]. rewrite matchPlus_total by (intros; apply Hk).
  destruct s as [|ch s]; [done|].
  cbn [takeWhile]. destruct (p ch) eqn:Hp; [|done]. cbn [isEmpty].
  rewrite consumed_dropWhile. cbn [takeWhile]. rewrite Hp. by total.
Qed.

End OffsetRe.

Lemma match_offsetRe {R} (k : string -> caps -> option R) s :
  (forall s c, is_Some (k s c)) ->
  exists rest, matchRe offsetRe s noCaps k = k rest (offsetCaps s).
Proof.
  intros Hk. unfold offsetRe.
  assert (Hd : forall s c,
    is_Some (matchRe (Quest (Group 3 (PlusClass isDigit))) s c k)).
  { intros s2 c2. rewrite match_digits by done.
    destruct (isEmpty _); apply Hk. }
  assert (Hs : forall s c,
    is_Some (matchRe (Cat (Quest (Group 2 (Alt (Lit "-") (Lit "+"))))
                          (Quest (Group 3 (PlusClass isDigit)))) s c k)).
  { intros s1 c1. rewrite matchRe_Cat, match_sign by done.
    destruct (sign s1) as [[q s2]|]; apply Hd. }
  rewrite matchRe_Cat, match_keyword by done.
  unfold offsetCaps, intTok, afterSign, afterKeyword.
  destruct (keyword s) as [[w s1]|];
    rewrite matchRe_Cat, match_sign by done;
    match goal with |- context [sign ?x] => destruct (sign x) as [[q s2]|] end;
    rewrite match_digits by done;
    destruct (isEmpty _); eauto.
Qed.

Lemma offsetCaps_1 s : default EmptyString (offsetCaps s 1%nat) = startTok s.
Proof.
  unfold offsetCaps, startTok.
  destruct (keyword s) as [[w s1]|], (sign _) as [[q s2]|], (isEmpty _); done.
Qed.

Lemma offsetCaps_2 s : default EmptyString (offsetCaps s 2%nat) = qualifierTok s.
Proof.
  unfold offsetCaps, qualifierTok.
  destruct (keyword s) as [[w s1]|], (sign _) as [[q s2]|], (isEmpty _); done.
Qed.

Lemma offsetCaps_3 s : default EmptyString (offsetCaps s 3%nat) = intTok s.
Proof.
  unfold offsetCaps.
  destruct (isEmpty (intTok s)) eqn:E.
  - rewrite (isEmpty_true _ E).
    destruct (keyword s) as [[w s1]|], (sign _) as [[q s2]|]; done.
  - done.
Qed.

(** The first row that [FindAllStringSubmatch] finds for the offset
    expression holds the three tokens at the head of the input. *)
Lemma offsetRe_first_row str :
  exists whole rows,
    FindAllStringSubmatch offsetRe 3 str
    = [whole; startTok str; qualifierTok str; intTok str] :: rows.
Proof.
  unfold FindAllStringSubmatch.
  replace (String.length str + 2)%nat with (S (String.length str + 1)) by lia.
  cbn [allMatches].
  replace (String.length str <? 0)%nat with false
    by (symmetry; apply Nat.ltb_ge; lia).
  change (drop 0 str) with str.
  destruct (match_offsetRe (fun s' c =>
    Some {| mStart := 0;
            mEnd := (0 + (String.length str - String.length s'))%nat;
            mCaps := c |}) str) as [rest Hm]; [by eauto|].
  erewrite execute_here; last by (unfold matchHere; exact Hm).
  cbn [mStart mEnd mCaps].
  replace (Z.of_nat 0 =? -1) with false by done.
  rewrite andb_false_r. cbn [negb].
  unfold submatches. cbn [mStart mEnd mCaps seq map].
  rewrite offsetCaps_1, offsetCaps_2, offsetCaps_3. eauto.
Qed.

Lemma parseOffset_tokens str :
  parseOffset str
  = parseOffsetTokens str (startTok str) (qualifierTok str) (intTok str).
Proof.
  unfold parseOffset.
  destruct (offsetRe_first_row str) as (whole & rows & ->). done.
Qed.

Lemma startTok_cases str :
  startTok str = "" \/ startTok str = "oldest" \/ startTok str = "newest"
  \/ startTok str = "resume".
Proof.
  unfold startTok, keyword.
  destruct (stripPrefix "oldest" str); [tauto|].
  destruct (stripPrefix "newest" str); [tauto|].
  destruct (stripPrefix "resume" str); tauto.
Qed.

Lemma qualifierTok_cases str :
  qualifierTok str = "" \/ qualifierTok str = "-" \/ qualifierTok str = "+".
Proof.
  unfold qualifierTok, sign.
  destruct (stripPrefix "-" _); [tauto|].
  destruct (stripPrefix "+" _); tauto.
Qed.

(** ** Integers and strconv *)

Lemma maxUint64_eq : maxUint64 = 18446744073709551615.
Proof. reflexivity. Qed.

Lemma maxInt64_eq : maxInt64 = 9223372036854775807.
Proof. reflexivity. Qed.

Lemma wrap64_small z : inInt64 z -> wrap64 z = z.
Proof.
  unfold inInt64, wrap64, minInt64, maxInt64. intros H.
  rewrite Z.mod_small; lia.
Qed.

Lemma wrap64_add_l a b : wrap64 (wrap64 a + b) = wrap64 (a + b).
Proof.
  unfold wrap64. f_equal.
  replace ((a + 2 ^ 63) mod 2 ^ 64 - 2 ^ 63 + b + 2 ^ 63)
    with ((a + 2 ^ 63) mod 2 ^ 64 + b) by lia.
  rewrite Z.add_mod_idemp_l by lia. f_equal. lia.
Qed.

Lemma isDigit_digitVal c : isDigit c = true -> 0 <= digitVal c <= 9.
Proof.
  destruct c as [[] [] [] [] [] [] [] []]; vm_compute; intros H;
    try discriminate H; split; discriminate.
Qed.

Lemma isDigit_not_head c :
  isDigit c = true ->
  Ascii.eqb "o" c = false /\ Ascii.eqb "n" c = false /\ Ascii.eqb "r" c = false
  /\ Ascii.eqb "-" c = false /\ Ascii.eqb "+" c = false
  /\ Ascii.eqb c "-" = false /\ Ascii.eqb c "+" = false.
Proof.
  destruct c as [[] [] [] [] [] [] [] []]; vm_compute; intros H;
    try discriminate H; done.
Qed.

Lemma digitVal_digitChar d : 0 <= d <= 9 -> digitVal (digitChar d) = d.
Proof.
  intros H.
  assert (d = 0 \/ d = 1 \/ d = 2 \/ d = 3 \/ d = 4 \/ d = 5 \/ d = 6
          \/ d = 7 \/ d = 8 \/ d = 9) as Hd by lia.
  repeat destruct Hd as [->|Hd]; try reflexivity. by subst.
Qed.

Lemma isDigit_digitChar d : 0 <= d <= 9 -> isDigit (digitChar d) = true.
Proof.
  intros H.
  assert (d = 0 \/ d = 1 \/ d = 2 \/ d = 3 \/ d = 4 \/ d = 5 \/ d = 6
          \/ d = 7 \/ d = 8 \/ d = 9) as Hd by lia.
  repeat destruct Hd as [->|Hd]; try reflexivity. by subst.
Qed.

Lemma digitsAcc_ge s : forall n,
  all isDigit s = true -> 0 <= n -> n <= digitsAcc s n.
Proof.
  induction s as [|c s IH]; intros n Hs Hn; simpl in *; [lia|].
  apply andb_prop in Hs as [Hc Hs].
  pose proof (isDigit_digitVal c Hc).
  etransitivity; [|apply IH]; [lia|done|lia].
Qed.

Lemma parseUintLoop_digits s : forall n,
  all isDigit s = true -> 0 <= n <= maxUint64 ->
  parseUintLoop s n =
    if digitsAcc s n <=? maxUint64 then (digitsAcc s n, None)
    else (maxUint64, Some ErrRange).
Proof.
  induction s as [|c s IH]; intros n Hs Hn.
  - simpl. destruct (Z.leb_spec n maxUint64); [done|lia].
  - simpl in Hs. apply andb_prop in Hs as [Hc Hs].
    pose proof (isDigit_digitVal c Hc) as Hd.
    cbn [parseUintLoop digitsAcc]. rewrite Hc. cbn [negb].
    pose proof (digitsAcc_ge s (n * 10 + digitVal c) Hs ltac:(lia)) as Hge.
    change (maxUint64 / 10 + 1) with 1844674407370955162.
    rewrite maxUint64_eq in *.
    destruct (Z.leb_spec 1844674407370955162 n) as [Hcut|Hcut].
    + destruct (Z.leb_spec (digitsAcc s (n * 10 + digitVal c))
                  18446744073709551615); [lia|done].
    + destruct (Z.ltb_spec 18446744073709551615 (n * 10 + digitVal c)) as [Hov|Hov].
      * destruct (Z.leb_spec (digitsAcc s (n * 10 + digitVal c))
                    18446744073709551615); [lia|done].
      * apply IH; [done|lia].
Qed.

(** [ParseInt] on a non-empty run of decimal digits: its value when that
    fits [int64], else the range error with the largest [int64]. *)
Lemma ParseInt_digits s :
  s <> EmptyString -> all isDigit s = true ->
  ParseInt s =
    if digitsValue s <=? maxInt64 then (digitsValue s, None)
    else (maxInt64, Some ErrRange).
Proof.
  intros Hne Hs. destruct s as [|c s]; [done|].
  pose proof Hs as Hs'. simpl in Hs'. apply andb_prop in Hs' as [Hc _].
  destruct (isDigit_not_head c Hc) as (_ & _ & _ & _ & _ & Hm & Hp).
  unfold ParseInt. rewrite Hp, Hm. cbn [orb negb andb].
  unfold ParseUint. rewrite parseUintLoop_digits by (rewrite ?maxUint64_eq; done || lia).
  fold (digitsValue (String c s)).
  pose proof (digitsAcc_ge (String c s) 0 Hs ltac:(lia)) as Hge.
  fold (digitsValue (String c s)) in Hge.
  rewrite maxUint64_eq, maxInt64_eq.
  change (2 ^ 63) with 9223372036854775808.
  destruct (Z.leb_spec (digitsValue (String c s)) 18446744073709551615);
    destruct (Z.leb_spec (digitsValue (String c s)) 9223372036854775807);
    destruct (Z.leb_spec 9223372036854775808 (digitsValue (String c s)));
    try lia; try done.
Qed.

Lemma decimalAux_value fuel : forall n acc,
  0 <= n < 10 ^ Z.of_nat (S fuel) ->
  digitsAcc (decimalAux fuel n acc) 0 = digitsAcc acc n.
Proof.
  induction fuel as [|fuel IH]; intros n acc Hn.
  - change (10 ^ Z.of_nat 1) with 10 in Hn. cbn [decimalAux digitsAcc].
    rewrite Z.mod_small by lia. rewrite digitVal_digitChar by lia.
    f_equal.
  - cbn [decimalAux]. destruct (Z.ltb_spec n 10) as [Hlt|Hge].
    + cbn [digitsAcc]. rewrite digitVal_digitChar by lia. f_equal.
    + rewrite IH.
      * cbn [digitsAcc].
        pose proof (Z.mod_pos_bound n 10 ltac:(lia)).
        rewrite digitVal_digitChar by lia. f_equal.
        pose proof (Z.div_mod n 10 ltac:(lia)). lia.
      * split; [apply Z.div_pos; lia|].
        apply Z.div_lt_upper_bound; [lia|].
        rewrite <- Z.pow_succ_r by lia. rewrite <- Nat2Z.inj_succ. lia.
Qed.

Lemma decimalAux_digits fuel : forall n acc,
  0 <= n -> all isDigit acc = true ->
  all isDigit (decimalAux fuel n acc) = true.
Proof.
  induction fuel as [|fuel IH]; intros n acc Hn Hacc.
  - cbn [decimalAux all]. pose proof (Z.mod_pos_bound n 10 ltac:(lia)).
    rewrite isDigit_digitChar by lia. done.
  - cbn [decimalAux]. destruct (Z.ltb_spec n 10).
    + cbn [all]. rewrite isDigit_digitChar by lia. done.
    + apply IH; [apply Z.div_pos; lia|].
      cbn [all]. pose proof (Z.mod_pos_bound n 10 ltac:(lia)).
      rewrite isDigit_digitChar by lia. done.
Qed.

Lemma decimalAux_nonempty fuel : forall n acc,
  decimalAux fuel n acc <> EmptyString.
Proof.
  induction fuel as [|fuel IH]; intros n acc; cbn [decimalAux]; [done|].
  destruct (n <? 10); [done|apply IH].
Qed.

(** The decimal rendering of a non-negative [int64] is a non-empty run of
    digits with that value. *)
Lemma decimal_spec n :
  0 <= n <= maxInt64 ->
  decimal n <> EmptyString /\ all isDigit (decimal n) = true
  /\ digitsValue (decimal n) = n.
Proof.
  intros Hn. rewrite maxInt64_eq in Hn. unfold decimal, digitsValue.
  split; [apply decimalAux_nonempty|].
  split; [apply decimalAux_digits; [lia|done]|].
  rewrite decimalAux_value; [done|].
  change (10 ^ Z.of_nat 21) with 1000000000000000000000. lia.
Qed.

(** ** parseOffset *)

(** [ParseInt] on the digits token: empty, in range, or out of range. *)
Lemma ParseInt_intTok str :
  (intTok str = "" /\ ParseInt (intTok str) = (0, Some ErrSyntax))
  \/ (intTok str <> "" /\ digitsValue (intTok str) <= maxInt64
      /\ ParseInt (intTok str) = (digitsValue (intTok str), None))
  \/ (intTok str <> "" /\ maxInt64 < digitsValue (intTok str)
      /\ ParseInt (intTok str) = (maxInt64, Some ErrRange)).
Proof.
  destruct (intTok str) as [|c s] eqn:E; [by left|right].
  rewrite ParseInt_digits; [|done|rewrite <- E; apply all_takeWhile].
  destruct (Z.leb_spec (digitsValue (String c s)) maxInt64); [left|right]; done.
Qed.

(** [parseOffset] reports an error exactly when the digits at the head of
    the token, behind the anchor word and the sign, overflow [int64]; the
    text names the token.  The error for a token of the wrong shape is never
    returned. *)
Lemma parseOffset_error_iff str e :
  snd (parseOffset str) = Some e <->
  intTok str <> "" /\ maxInt64 < digitsValue (intTok str)
  /\ e = "Invalid offset [" +:+ str +:+ "]".
Proof.
  rewrite parseOffset_tokens. unfold parseOffsetTokens.
  destruct (ParseInt_intTok str) as [(E & ->) | [(E & Hle & ->) | (E & Hlt & ->)]].
  - rewrite E. cbn. split; [done|]. by intros [? _].
  - cbn [notNil andb snd]. split; [done|]. intros (_ & ? & _). lia.
  - cbn [notNil andb]. rewrite length_pos_nonempty.
    destruct (intTok str); [done|]. cbn. unfold errorf. split.
    + intros [= <-]. done.
    + intros (_ & _ & ->). done.
Qed.

(** C3, the code at the failing inputs: for tokens that do not have the
    shape of the offset grammar [parseOffset] returns an offset and no
    error.  ["abc"] and ["x99999999999999999999"] yield the absolute offset
    0, ["10x"] the absolute offset 10; the digits of the second token do not
    fit 64 bits and are never read. *)
Theorem parseOffset_accepts_malformed :
  parseOffset "abc" = ({| relative := false; start := 0; diff := 0 |}, None)
  /\ parseOffset "10x" = ({| relative := false; start := 10; diff := 0 |}, None)
  /\ parseOffset "x99999999999999999999"
     = ({| relative := false; start := 0; diff := 0 |}, None).
Proof. repeat split; vm_compute; reflexivity. Qed.

Lemma keyword_digit c s : isDigit c = true -> keyword (String c s) = None.
Proof.
  intros (Ho & Hn & Hr & _)%isDigit_not_head.
  unfold keyword. cbn [stripPrefix]. by rewrite Ho, Hn, Hr.
Qed.

Lemma sign_digit c s : isDigit c = true -> sign (String c s) = None.
Proof.
  intros (_ & _ & _ & Hm & Hp & _)%isDigit_not_head.
  unfold sign. cbn [stripPrefix]. by rewrite Hm, Hp.
Qed.

Lemma tokens_digits ds :
  ds <> EmptyString -> all isDigit ds = true ->
  startTok ds = EmptyString /\ qualifierTok ds = EmptyString /\ intTok ds = ds.
Proof.
  intros Hne Hds. destruct ds as [|c s]; [done|].
  pose proof Hds as [Hc _]%andb_prop.
  unfold startTok, qualifierTok, intTok, afterSign, afterKeyword.
  rewrite keyword_digit by done. rewrite sign_digit by done.
  by rewrite takeWhile_all.
Qed.

Lemma tokens_signed (q : ascii) ds :
  q = "+"%char \/ q = "-"%char -> all isDigit ds = true ->
  startTok (String q ds) = EmptyString
  /\ qualifierTok (String q ds) = String q EmptyString
  /\ intTok (String q ds) = ds.
Proof.
  intros Hq Hds.
  unfold startTok, qualifierTok, intTok, afterSign, afterKeyword.
  destruct Hq as [-> | ->]; cbn; by rewrite takeWhile_all.
Qed.

Lemma tokens_anchored (w : string) (q : ascii) ds :
  w = "oldest" \/ w = "newest" \/ w = "resume" ->
  q = "+"%char \/ q = "-"%char -> all isDigit ds = true ->
  startTok (w +:+ String q ds) = w
  /\ qualifierTok (w +:+ String q ds) = String q EmptyString
  /\ intTok (w +:+ String q ds) = ds.
Proof.
  intros Hw Hq Hds.
  unfold startTok, qualifierTok, intTok, afterSign, afterKeyword.
  destruct Hw as [-> | [-> | ->]], Hq as [-> | ->]; cbn;
    by rewrite takeWhile_all.
Qed.

(** C8: a token that consists of decimal digits only (at least one, no
    anchor word, no sign) and whose value fits a signed 64-bit integer
    parses, without error, to the non-relative offset of that value. *)
Theorem parseOffset_digits_absolute ds :
  ds <> "" -> all isDigit ds = true -> digitsValue ds <= maxInt64 ->
  parseOffset ds
  = ({| relative := false; start := digitsValue ds; diff := 0 |}, None).
Proof.
  intros Hne Hds Hv. rewrite parseOffset_tokens.
  destruct (tokens_digits ds Hne Hds) as (-> & -> & ->).
  unfold parseOffsetTokens. rewrite ParseInt_digits by done.
  destruct (Z.leb_spec (digitsValue ds) maxInt64); [|lia]. done.
Qed.

Lemma parseOffset_digits_absolute_witness :
  parseOffset "0042" = ({| relative := false; start := 42; diff := 0 |}, None).
Proof.
  apply (parseOffset_digits_absolute "0042");
    [discriminate | reflexivity | vm_compute; discriminate].
Defined.

Lemma parseOffsetTokens_plus str w ds :
  w = "" \/ w = "oldest" ->
  ds <> "" -> all isDigit ds = true -> digitsValue ds <= maxInt64 ->
  parseOffsetTokens str w "+" ds
  = ({| relative := true; start := OffsetOldest; diff := digitsValue ds |}, None).
Proof.
  intros Hw Hne Hds Hv. unfold parseOffsetTokens.
  rewrite ParseInt_digits by done.
  destruct (Z.leb_spec (digitsValue ds) maxInt64); [|lia].
  by destruct Hw as [-> | ->].
Qed.

Lemma parseOffsetTokens_minus str w ds :
  w = "" \/ w = "newest" ->
  ds <> "" -> all isDigit ds = true -> digitsValue ds <= maxInt64 ->
  parseOffsetTokens str w "-" ds
  = ({| relative := true; start := OffsetNewest; diff := - digitsValue ds |}, None).
Proof.
  intros Hw Hne Hds Hv. unfold parseOffsetTokens.
  rewrite ParseInt_digits by done.
  destruct (Z.leb_spec (digitsValue ds) maxInt64); [|lia].
  pose proof (digitsAcc_ge ds 0 Hds ltac:(lia)) as Hge.
  fold (digitsValue ds) in Hge.
  assert (neg64 (digitsValue ds) = - digitsValue ds) as Hneg.
  { apply wrap64_small. unfold inInt64, minInt64. rewrite maxInt64_eq in *. lia. }
  destruct Hw as [-> | ->]; cbn; by rewrite Hneg.
Qed.

(** Signed digits with and without the anchor word, for any run of digits
    (leading zeros included). *)
Lemma parseOffset_signed_digits ds :
  ds <> "" -> all isDigit ds = true -> digitsValue ds <= maxInt64 ->
  parseOffset (String "+" ds)
  = ({| relative := true; start := OffsetOldest; diff := digitsValue ds |}, None)
  /\ parseOffset ("oldest" +:+ String "+" ds)
  = ({| relative := true; start := OffsetOldest; diff := digitsValue ds |}, None)
  /\ parseOffset (String "-" ds)
  = ({| relative := true; start := OffsetNewest; diff := - digitsValue ds |}, None)
  /\ parseOffset ("newest" +:+ String "-" ds)
  = ({| relative := true; start := OffsetNewest; diff := - digitsValue ds |}, None).
Proof.
  intros Hne Hds Hv. rewrite !parseOffset_tokens.
  destruct (tokens_signed "+" ds) as (-> & -> & ->); [tauto|done|].
  destruct (tokens_signed "-" ds) as (-> & -> & ->); [tauto|done|].
  destruct (tokens_anchored "oldest" "+" ds) as (-> & -> & ->); [tauto|tauto|done|].
  destruct (tokens_anchored "newest" "-" ds) as (-> & -> & ->); [tauto|tauto|done|].
  rewrite !parseOffsetTokens_plus, !parseOffsetTokens_minus by tauto. done.
Qed.

(** C9: for every integer [N] from 0 to the largest [int64], written in
    decimal, ["+N"] parses to the same offset as ["oldest+N"], which is
    relative to [OffsetOldest] with diff [N], and ["-N"] to the same offset
    as ["newest-N"], which is relative to [OffsetNewest] with diff [-N]. *)
Theorem parseOffset_bare_sign_is_anchored N :
  0 <= N <= maxInt64 ->
  parseOffset ("+" +:+ decimal N) = parseOffset ("oldest+" +:+ decimal N)
  /\ parseOffset ("oldest+" +:+ decimal N)
     = ({| relative := true; start := OffsetOldest; diff := N |}, None)
  /\ parseOffset ("-" +:+ decimal N) = parseOffset ("newest-" +:+ decimal N)
  /\ parseOffset ("newest-" +:+ decimal N)
     = ({| relative := true; start := OffsetNewest; diff := - N |}, None).
Proof.
  intros HN. destruct (decimal_spec N HN) as (Hne & Hds & Hv).
  destruct (parseOffset_signed_digits (decimal N)) as (H1 & H2 & H3 & H4);
    [done|done|lia|].
  rewrite Hv in *.
  change ("+" +:+ decimal N) with (String "+" (decimal N)).
  change ("-" +:+ decimal N) with (String "-" (decimal N)).
  change ("oldest+" +:+ decimal N) with ("oldest" +:+ String "+" (decimal N)).
  change ("newest-" +:+ decimal N) with ("newest" +:+ String "-" (decimal N)).
  rewrite H1, H2, H3, H4. done.
Qed.

Lemma parseOffset_bare_sign_is_anchored_witness :
  parseOffset "+10" = parseOffset "oldest+10"
  /\ parseOffset "-10" = parseOffset "newest-10".
Proof.
  destruct (parseOffset_bare_sign_is_anchored 10) as (H1 & _ & H3 & _).
  - rewrite maxInt64_eq. lia.
  - split; [exact H1 | exact H3].
Defined.

(** C10: an offset that [parseOffset] returns without error and with
    [relative = true] has [OffsetOldest], [OffsetNewest] or [offsetResume]
    as its start, so the guards of the last [return] of [resolveOffset]
    ([o.start + o.diff]) are never all met for it. *)
Theorem parseOffset_relative_anchor str o :
  parseOffset str = (o, None) -> relative o = true ->
  (start o = OffsetOldest \/ start o = OffsetNewest \/ start o = offsetResume)
  /\ fallsThrough o = false.
Proof.
  rewrite parseOffset_tokens. unfold parseOffsetTokens.
  destruct (ParseInt (intTok str)) as [n err].
  destruct (notNil err && _); [done|].
  destruct (startTok_cases str) as [-> | [-> | [-> | ->]]];
    destruct (qualifierTok_cases str) as [-> | [-> | ->]];
    cbn; intros [= <-]; cbn; intros Hrel; try discriminate Hrel; tauto.
Qed.

Lemma parseOffset_relative_anchor_witness :
  fallsThrough {| relative := true; start := offsetResume; diff := -5 |} = false.
Proof.
  apply (parseOffset_relative_anchor "resume-5"); reflexivity.
Defined.

(** ** parseOffsets *)




(** An error of [parseOffsets] is never one of [parseOffset]: it names a
    segment of the wrong shape or a partition that [Atoi] rejects. *)
Lemma parseOffsetsLoop_errors segs : forall result m e,
  parseOffsetsLoop segs result = (m, Some e) ->
  exists seg, seg ∈ segs
    /\ (e = "Invalid partition info [" +:+ seg +:+ "]"
        \/ exists tok, e = "Invalid partition [" +:+ tok +:+ "]").
Proof.
  induction segs as [|seg segs IH]; intros result m e; cbn [parseOffsetsLoop].
  - done.
  - destruct (parseOffsetsBody result seg) as [result' [e'|]] eqn:Hb.
    + intros [= <- <-]. exists seg. split; [apply elem_of_cons; by left|].
      unfold parseOffsetsBody in Hb.
      destruct (FindAllStringSubmatch _ _ _) as [|row [|? ?]];
        try (injection Hb as _ <-; by left).
      destruct (length row <? 3)%nat; [injection Hb as _ <-; by left|].
      unfold parsePartition in Hb.
      destruct (_ || _); [done|].
      destruct (Atoi _) as [i [?|]]; [|done].
      injection Hb as _ <-. right. by eexists.
    + intros H. destruct (IH _ _ _ H) as (seg' & Hin & He).
      exists seg'. split; [apply elem_of_cons; by right|done].
Qed.

Example parseOffsets_examples :
  parseOffsets "0=10:20"
  = ({[ 0 := {| start_ := {| relative := false; start := 10; diff := 0 |};
                end_ := {| relative := false; start := 20; diff := 0 |} |} ]},
     None)
  /\ parseOffsets "" = ({[ -1 := defaultInterval ]}, None)
  /\ fst (parseOffsets "0=99999999999999999999:5,1=3:99999999999999999999")
     = {[ 0 := {| start_ := {| relative := true; start := OffsetOldest; diff := 0 |};
                  end_ := {| relative := false; start := 5; diff := 0 |} |};
          1 := {| start_ := {| relative := false; start := 3; diff := 0 |};
                  end_ := {| relative := false; start := maxInt64; diff := 0 |} |} ]}.
Proof. repeat split; vm_compute; reflexivity. Qed.

(** ** resolveOffset *)

Lemma resolveOffset_absolute o p cmd :
  relative o = false -> resolveOffset o p cmd = Ret ((start o, None), cmd).
Proof. unfold resolveOffset, ret. by intros ->. Qed.

(** Under the guards of [fallsThrough] the last [return] is taken. *)
Lemma resolveOffset_fallsThrough o p cmd :
  fallsThrough o = true ->
  resolveOffset o p cmd = Ret ((add64 (start o) (diff o), None), cmd).
Proof.
  unfold fallsThrough, resolveOffset, bind, get, ret.
  intros [[-> Hb]%andb_prop Hr]%andb_prop. cbn [negb].
  apply negb_true_iff in Hb, Hr. by rewrite Hb, Hr.
Qed.

(** C5: when the metadata query for [OffsetNewest] reports the boundary [B]
    without error, a relative offset with anchor [OffsetNewest] and diff [d]
    resolves to [B - 1 + d], and to [B - 1] for diff 0; when the query for
    [OffsetOldest] reports [B], anchor [OffsetOldest] resolves to [B + d].
    The sums are those of [int64], which are the exact sums whenever these
    fit [int64]. *)
Theorem resolveOffset_boundary cmd p d B :
  (GetOffset (client cmd) (topic cmd) p OffsetNewest = (B, None) ->
     resolveOffset {| relative := true; start := OffsetNewest; diff := d |} p cmd
       = Ret ((wrap64 (B - 1 + d), None), cmd)
     /\ resolveOffset {| relative := true; start := OffsetNewest; diff := 0 |} p cmd
       = Ret ((wrap64 (B - 1), None), cmd))
  /\ (GetOffset (client cmd) (topic cmd) p OffsetOldest = (B, None) ->
     resolveOffset {| relative := true; start := OffsetOldest; diff := d |} p cmd
       = Ret ((wrap64 (B + d), None), cmd))
  /\ (inInt64 (B - 1 + d) -> wrap64 (B - 1 + d) = B - 1 + d)
  /\ (inInt64 (B - 1) -> wrap64 (B - 1) = B - 1)
  /\ (inInt64 (B + d) -> wrap64 (B + d) = B + d).
Proof.
  split; [|split].
  - intros HB. unfold resolveOffset, bind, get, ret. cbn. rewrite HB. cbn.
    unfold add64, sub64. rewrite !wrap64_add_l. rewrite Z.add_0_r. done.
  - intros HB. unfold resolveOffset, bind, get, ret. cbn. rewrite HB. done.
  - repeat split; apply wrap64_small.
Qed.

Lemma resolveOffset_boundary_witness :
  resolveOffset {| relative := true; start := OffsetNewest; diff := -10 |} 0
    (testCmd "" "" 100 0)
  = Ret ((89, None), testCmd "" "" 100 0)
  /\ resolveOffset {| relative := true; start := OffsetOldest; diff := 10 |} 0
    (testCmd "" "" 100 0)
  = Ret ((110, None), testCmd "" "" 100 0).
Proof.
  destruct (resolveOffset_boundary (testCmd "" "" 100 0) 0 (-10) 100)
    as (Hn & _ & Hw & _).
  destruct (resolveOffset_boundary (testCmd "" "" 100 0) 0 10 100)
    as (_ & Ho & _ & _ & Hw').
  destruct Hn as [Hn _]; [reflexivity|].
  rewrite Hn, Hw by (vm_compute; split; discriminate).
  rewrite Ho, Hw' by (reflexivity || (vm_compute; split; discriminate)).
  split; reflexivity.
Defined.

(** C4: resolving a resume offset returns an error if and only if no group
    is configured, and that error is the one about the missing group
    argument; with a group, the result is the next offset that the offset
    manager of the partition reports, whatever the diff of the expression. *)
Theorem resolveOffset_resume cmd p d :
  let o := {| relative := true; start := offsetResume; diff := d |} in
  ((exists v e cmd', resolveOffset o p cmd = Ret ((v, Some e), cmd'))
     <-> group cmd = "")
  /\ (group cmd = "" ->
      resolveOffset o p cmd
      = Ret ((0, Some "cannot resume without -group argument"), cmd))
  /\ (group cmd <> "" -> forall pom cmd',
      getPOM p cmd = Ret (pom, cmd') ->
      resolveOffset o p cmd = Ret ((fst (NextOffset pom), None), cmd')).
Proof.
  intros o.
  assert (Hno : group cmd = "" ->
      resolveOffset o p cmd
      = Ret ((0, Some "cannot resume without -group argument"), cmd)).
  { intros Hg. unfold resolveOffset, bind, get, ret. cbn. by rewrite Hg. }
  assert (Hyes : group cmd <> "" -> forall pom cmd',
      getPOM p cmd = Ret (pom, cmd') ->
      resolveOffset o p cmd = Ret ((fst (NextOffset pom), None), cmd')).
  { intros Hg pom cmd' Hpom. unfold resolveOffset, bind, get. cbn -[getPOM].
    destruct (String.eqb_spec (group cmd) "") as [|_]; [done|].
    rewrite Hpom. by destruct (NextOffset pom). }
  split; [|done]. split.
  - intros (v & e & cmd' & Hres).
    destruct (String.eqb_spec (group cmd) "") as [|Hg]; [done|exfalso].
    destruct (getPOM p cmd) as [[pom cmd'']|msg] eqn:Hpom.
    + rewrite (Hyes Hg pom cmd'' eq_refl) in Hres. done.
    + revert Hres. unfold resolveOffset, bind, get. cbn -[getPOM].
      destruct (String.eqb_spec (group cmd) "") as [|_]; [done|].
      by rewrite Hpom.
  - intros Hg. rewrite (Hno Hg). eauto.
Qed.

Lemma resolveOffset_resume_witness :
  resolveOffset {| relative := true; start := offsetResume; diff := -5 |} 3
    (testCmd "" "g" 100 42)
  = Ret ((42, None),
         withPoms {[ 3 := {| pomPartition := 3; NextOffset := (42, "") |} ]}
           (testCmd "" "g" 100 42))
  /\ resolveOffset {| relative := true; start := offsetResume; diff := -5 |} 3
    (testCmd "" "" 100 42)
  = Ret ((0, Some "cannot resume without -group argument"), testCmd "" "" 100 42).
Proof.
  split.
  - destruct (resolveOffset_resume (testCmd "" "g" 100 42) 3 (-5)) as (_ & _ & H).
    apply (H ltac:(discriminate)
             {| pomPartition := 3; NextOffset := (42, "") |}
             (withPoms {[ 3 := {| pomPartition := 3; NextOffset := (42, "") |} ]}
                (testCmd "" "g" 100 42))).
    reflexivity.
  - destruct (resolveOffset_resume (testCmd "" "" 100 42) 3 (-5)) as (_ & H & _).
    apply H. reflexivity.
Defined.

(** ** findPartitions *)

Lemma findPartitionsLoop_filter (offsets : gmap Z interval) all :
  findPartitionsLoop offsets all = filter (fun p => is_Some (offsets !! p)) all.
Proof.
  unfold findPartitionsLoop.
  enough (forall acc,
    fold_left (fun res p => if notNil (offsets !! p) then res ++ [p] else res)
      all acc = acc ++ filter (fun p => is_Some (offsets !! p)) all) as H
    by apply (H []).
  induction all as [|q all IH]; intros acc; cbn [fold_left].
  - by rewrite filter_nil, app_nil_r.
  - rewrite IH, filter_cons. destruct (offsets !! q) as [i|] eqn:Hq; cbn [notNil].
    + rewrite decide_True by eauto. by rewrite <- app_assoc.
    + rewrite decide_False by (by intros [? ?]). done.
Qed.

(** C7: when the broker reports the partitions [all] without error,
    [findPartitions] returns [all] unchanged if the range map has the
    wildcard key [-1], and otherwise the partitions of [all] that are keys
    of the map, in the order of [all]. *)
Theorem findPartitions_selects cmd all :
  Partitions (consumer cmd) (topic cmd) = (all, None) ->
  (is_Some (offsets cmd !! (-1)) -> findPartitions cmd = Ret (all, cmd))
  /\ (offsets cmd !! (-1) = None ->
      findPartitions cmd
      = Ret (filter (fun p => is_Some (offsets cmd !! p)) all, cmd)).
Proof.
  intros Hall. unfold findPartitions, bind, get, ret. rewrite Hall. split.
  - by intros [i ->].
  - intros ->. cbn [notNil]. by rewrite findPartitionsLoop_filter.
Qed.

Lemma findPartitions_selects_witness :
  findPartitions (testCmd "2=5:10,0=1:" "" 0 0)
  = Ret ([0; 2], testCmd "2=5:10,0=1:" "" 0 0)
  /\ findPartitions (testCmd "all=1:10,2=5:10" "" 0 0)
  = Ret ([0; 1; 2], testCmd "all=1:10,2=5:10" "" 0 0).
Proof.
  destruct (findPartitions_selects (testCmd "2=5:10,0=1:" "" 0 0) [0; 1; 2] eq_refl)
    as [_ H1].
  destruct (findPartitions_selects (testCmd "all=1:10,2=5:10" "" 0 0) [0; 1; 2] eq_refl)
    as [H2 _].
  split.
  - rewrite H1 by (vm_compute; reflexivity). vm_compute. reflexivity.
  - apply H2. vm_compute. eauto.
Defined.

(** ** The partition worker *)

Lemma lookup_app_plus {A} (l l' : list A) k :
  (l ++ l') !! (length l + k)%nat = l' !! k.
Proof. rewrite lookup_app_r by lia. f_equal. lia. Qed.

Lemma loopHead_quiet cmd a :
  a ∈ loopHead cmd -> exists d, a = ArmTimer d.
Proof.
  unfold loopHead. destruct (0 <? timeout cmd).
  - intros ->%list_elem_of_singleton. eauto.
  - by intros ?%elem_of_nil.
Qed.


Section LoopFacts.
Variable codecs : Codecs.
Variable cmd : consumeCmd.
Variable pom : option PartitionOffsetManager.
Variable p : Z.
Variable end' : Z.

Lemma run_app evs1 : forall st evs2,
  run codecs cmd pom p end' st (evs1 ++ evs2) =
  match run codecs cmd pom p end' st evs1 with
  | Some (st1, tr1) =>
      match run codecs cmd pom p end' st1 evs2 with
      | Some (st2, tr2) => Some (st2, tr1 ++ tr2)
      | None => None
      end
  | None => None
  end.
Proof.
  induction evs1 as [|ev evs1 IH]; intros st evs2; cbn [run app].
  - by destruct (run codecs cmd pom p end' st evs2) as [[? ?]|].
  - destruct (step codecs cmd pom p end' st ev) as [[st' acts]|]; [|done].
    rewrite IH. destruct (run codecs cmd pom p end' st' evs1) as [[st1 tr1]|]; [|done].
    destruct (run codecs cmd pom p end' st1 evs2) as [[st2 tr2]|]; [|done].
    by rewrite app_assoc.
Qed.

(** An invariant of the pairs of state and trace is kept by [run] when
    every step keeps it. *)
Lemma run_invariant (Inv : wstate -> list action -> Prop) :
  (forall st tr ev st' acts,
      Inv st tr -> step codecs cmd pom p end' st ev = Some (st', acts) ->
      Inv st' (tr ++ acts)) ->
  forall evs st tr st' acts,
    Inv st tr -> run codecs cmd pom p end' st evs = Some (st', acts) ->
    Inv st' (tr ++ acts).
Proof.
  intros Hstep. induction evs as [|ev evs IH]; intros st tr st' acts HI; cbn [run].
  - intros [= <- <-]. by rewrite app_nil_r.
  - destruct (step codecs cmd pom p end' st ev) as [[st1 acts1]|] eqn:Hs; [|done].
    destruct (run codecs cmd pom p end' st1 evs) as [[st2 acts2]|] eqn:Hr; [|done].
    intros [= <- <-]. rewrite app_assoc. eapply IH; [|done]. by eapply Hstep.
Qed.

(** A worker that has returned takes no event. *)
Lemma step_Exited ev : step codecs cmd pom p end' Exited ev = None.
Proof. by destruct ev. Qed.

Lemma run_Exited evs : evs <> [] -> run codecs cmd pom p end' Exited evs = None.
Proof. by destruct evs as [|[] ?]. Qed.








End LoopFacts.

Section Checkpoint.
Variable codecs : Codecs.
Variable cmd : consumeCmd.
Variable pm : PartitionOffsetManager.
Variable p : Z.
Variable end' : Z.
Hypothesis Hgroup : group cmd <> "".

Ltac lift := repeat split; first [done | by apply lookup_app_l_Some].

Lemma mark_group msg :
  mark cmd (Some pm) msg = [MarkOffset pm (add64 (Offset msg) 1) ""].
Proof. unfold mark. destruct (String.eqb_spec (group cmd) ""); done. Qed.

Lemma ordered_loopHead : ordered codecs cmd pm Selecting (loopHead cmd).
Proof.
  assert (forall i a, loopHead cmd !! i = Some a -> exists d, a = ArmTimer d) as Hq.
  { intros i a H%list_elem_of_lookup_2. by apply (loopHead_quiet cmd). }
  split.
  - intros i m [d ?]%Hq. done.
  - intros i [d ?]%Hq. done.
  - intros i pm' o md [d ?]%Hq. done.
  - intros i m [d ?]%Hq. done.
  - intros m. unfold loopHead. by destruct (0 <? timeout cmd).
Qed.

(** Appending actions that are no [Send], [Acked] or [MarkOffset] behind a
    trace that does not end in a [Send]. *)
Lemma ordered_quiet st tr st' acts :
  ordered codecs cmd pm st tr ->
  (forall m, last tr <> Some (Send m)) ->
  (forall a, a ∈ acts ->
     match a with Send _ | Acked | MarkOffset _ _ _ => False | _ => True end) ->
  match st' with
  | Sending msg => exists tr0, tr ++ acts = tr0 ++ [Recv msg]
  | Waiting msg => False
  | _ => forall m, last (tr ++ acts) <> Some (Send m)
  end ->
  ordered codecs cmd pm st' (tr ++ acts).
Proof.
  intros [HA HB HC HD _] Hlast Hq Htail.
  assert (Hnew : forall i a, (tr ++ acts) !! i = Some a ->
            match a with
            | Send _ | Acked | MarkOffset _ _ _ => tr !! i = Some a
            | _ => True
            end).
  { intros i a [Hi | [_ Hi]]%lookup_app_Some; [by destruct a|].
    apply list_elem_of_lookup_2, Hq in Hi. by destruct a. }
  split.
  - intros i m Hi. apply Hnew in Hi.
    destruct (HA i m Hi) as (j & msg & -> & ? & ->). exists j, msg. lift.
  - intros i Hi. apply Hnew in Hi.
    destruct (HB i Hi) as (j & msg & -> & ? & ? & ?). exists j, msg. lift.
  - intros i pm' o md Hi. apply Hnew in Hi.
    destruct (HC i pm' o md Hi) as (j & msg & -> & ? & ? & ? & -> & -> & ->).
    exists j, msg. lift.
  - intros i m Hi Hlen. apply Hnew in Hi.
    destruct (decide (S i < length tr)%nat) as [Hlt|Hge].
    + apply lookup_app_l_Some. by eapply HD.
    + exfalso. apply (Hlast m). rewrite last_lookup.
      apply lookup_lt_Some in Hi as Hi'.
      replace (Nat.pred (length tr)) with i by lia. done.
  - by destruct st'.
Qed.

Lemma ordered_step st tr ev st' acts :
  ordered codecs cmd pm st tr ->
  step codecs cmd (Some pm) p end' st ev = Some (st', acts) ->
  ordered codecs cmd pm st' (tr ++ acts).
Proof.
  intros HI Hs.
  destruct st as [| msg | msg |], ev; cbn in Hs; try done.
  - destruct (0 <? timeout cmd); [|done]. injection Hs as <- <-.
    eapply ordered_quiet; [done|apply (ord_tail _ _ _ _ _ HI)| |].
    + intros a [-> | ->%list_elem_of_singleton]%elem_of_cons; done.
    + intros m. by rewrite last_app_cons.
  - injection Hs as <- <-.
    eapply ordered_quiet; [done|apply (ord_tail _ _ _ _ _ HI)| |].
    + intros a [-> | ->%list_elem_of_singleton]%elem_of_cons; done.
    + intros m. by rewrite last_app_cons.
  - injection Hs as <- <-.
    eapply ordered_quiet; [done|apply (ord_tail _ _ _ _ _ HI)| |].
    + intros a [-> | ->%list_elem_of_singleton]%elem_of_cons; done.
    + intros m. by rewrite last_app_cons.
  - injection Hs as <- <-.
    eapply ordered_quiet; [done|apply (ord_tail _ _ _ _ _ HI)| |].
    + by intros a ->%list_elem_of_singleton.
    + by exists tr.
  - (* the sequencer takes the record *)
    injection Hs as <- <-.
    destruct HI as [HA HB HC HD [tr0 ->]].
    split.
    + intros i m [Hi | [Hlen Hi]]%lookup_app_Some.
      * destruct (HA i m Hi) as (j & msg' & -> & ? & ->). exists j, msg'. lift.
      * destruct (i - length (tr0 ++ [Recv msg]))%nat as [|?] eqn:Hd; [|done].
        injection Hi as <-. exists (length tr0), msg.
        rewrite length_app in *. cbn in *.
        split; [lia|]. split; [|done].
        apply lookup_app_l_Some.
        rewrite <- (Nat.add_0_r (length tr0)). by rewrite lookup_app_plus.
    + intros i [Hi | [Hlen Hi]]%lookup_app_Some.
      * destruct (HB i Hi) as (j & msg' & -> & ? & ? & ?). exists j, msg'. lift.
      * by destruct (i - length (tr0 ++ [Recv msg]))%nat as [|[|?]].
    + intros i pm' o md [Hi | [Hlen Hi]]%lookup_app_Some.
      * destruct (HC i pm' o md Hi) as (j & msg' & -> & ? & ? & ? & -> & -> & ->).
        exists j, msg'. lift.
      * by destruct (i - length (tr0 ++ [Recv msg]))%nat as [|[|?]].
    + intros i m [Hi | [Hlen Hi]]%lookup_app_Some Hlt.
      * apply lookup_lt_Some in Hi as Hi'.
        destruct (decide (S i < length (tr0 ++ [Recv msg]))%nat).
        { apply lookup_app_l_Some. by eapply HD. }
        exfalso. rewrite length_app in *. cbn in *.
        replace i with (length tr0 + 0)%nat in Hi by lia.
        by rewrite lookup_app_plus in Hi.
      * apply lookup_lt_Some in Hi. rewrite !length_app in *. cbn in *. lia.
    + exists tr0. by rewrite <- app_assoc.
  - (* the sequencer acknowledges the record *)
    rewrite mark_group in Hs.
    assert (exists rest,
              acts = Acked :: MarkOffset pm (add64 (Offset msg) 1) "" :: rest
              /\ (forall m, st' <> Sending m) /\ (forall m, st' <> Waiting m)
              /\ (forall a, a ∈ rest ->
                    match a with
                    | Send _ | Acked | MarkOffset _ _ _ => False
                    | _ => True
                    end)
              /\ (forall m x, last (x :: rest) = Some (Send m) -> x = Send m))
      as (rest & -> & Hns & Hnw & Hq & Hl).
    { destruct (_ && _); injection Hs as <- <-.
      - eexists. split; [done|]. split; [done|]. split; [done|]. split.
        + by intros a ->%list_elem_of_singleton.
        + by intros m x [=].
      - exists (loopHead cmd). split; [done|]. split; [done|]. split; [done|].
        unfold loopHead. destruct (0 <? timeout cmd); split.
        + by intros a ->%list_elem_of_singleton.
        + by intros m x [=].
        + by intros a ?%elem_of_nil.
        + by intros m x [= ->]. }
    destruct HI as [HA HB HC HD [tr0 ->]].
    set (cm := newConsumedMessage codecs msg (encodeKey cmd) (encodeValue cmd)) in *.
    assert (Hlen : length (tr0 ++ [Recv msg; Send cm]) = (length tr0 + 2)%nat)
      by (rewrite length_app; cbn; lia).
    assert (H0 : forall l, ((tr0 ++ [Recv msg; Send cm]) ++ l) !! length tr0
                   = Some (Recv msg)).
    { intros l. rewrite <- app_assoc.
      rewrite <- (Nat.add_0_r (length tr0)). by rewrite lookup_app_plus. }
    assert (H1 : forall l, ((tr0 ++ [Recv msg; Send cm]) ++ l) !! S (length tr0)
                   = Some (Send cm)).
    { intros l. rewrite <- app_assoc.
      replace (S (length tr0)) with (length tr0 + 1)%nat by lia.
      by rewrite lookup_app_plus. }
    assert (H2 : forall x l, ((tr0 ++ [Recv msg; Send cm]) ++ x :: l)
                     !! S (S (length tr0)) = Some x).
    { intros x l. replace (S (S (length tr0)))
        with (length (tr0 ++ [Recv msg; Send cm]) + 0)%nat by lia.
      by rewrite lookup_app_plus. }
    assert (H3 : forall x y l, ((tr0 ++ [Recv msg; Send cm]) ++ x :: y :: l)
                     !! S (S (S (length tr0))) = Some y).
    { intros x y l. replace (S (S (S (length tr0))))
        with (length (tr0 ++ [Recv msg; Send cm]) + 1)%nat by lia.
      by rewrite lookup_app_plus. }
    split.
    + intros i m [Hi | [Hge Hi]]%lookup_app_Some.
      * destruct (HA i m Hi) as (j & msg' & -> & ? & ->). exists j, msg'. lift.
      * destruct (i - length (tr0 ++ [Recv msg; Send cm]))%nat
          as [|[|k]]; [done..|].
        cbn in Hi. apply list_elem_of_lookup_2, Hq in Hi. done.
    + intros i [Hi | [Hge Hi]]%lookup_app_Some.
      * destruct (HB i Hi) as (j & msg' & -> & ? & ? & ?). exists j, msg'. lift.
      * destruct (i - length (tr0 ++ [Recv msg; Send cm]))%nat
          as [|[|k]] eqn:Hd.
        -- exists (length tr0), msg.
           assert (i = S (S (length tr0))) as -> by lia.
           rewrite H0, H1, H3. done.
        -- done.
        -- cbn in Hi. apply list_elem_of_lookup_2, Hq in Hi. done.
    + intros i pm' o md [Hi | [Hge Hi]]%lookup_app_Some.
      * destruct (HC i pm' o md Hi) as (j & msg' & -> & ? & ? & ? & -> & -> & ->).
        exists j, msg'. lift.
      * destruct (i - length (tr0 ++ [Recv msg; Send cm]))%nat
          as [|[|k]] eqn:Hd.
        -- done.
        -- injection Hi as <- <- <-. exists (length tr0), msg.
           assert (i = S (S (S (length tr0)))) as -> by lia.
           rewrite H0, H1, H2. done.
        -- cbn in Hi. apply list_elem_of_lookup_2, Hq in Hi. done.
    + intros i m [Hi | [Hge Hi]]%lookup_app_Some Hlt.
      * apply lookup_lt_Some in Hi as Hi'.
        destruct (decide (S i < length (tr0 ++ [Recv msg; Send cm]))%nat).
        { apply lookup_app_l_Some. by eapply HD. }
        assert (S i = S (S (length tr0))) as -> by lia. by rewrite H2.
      * destruct (i - length (tr0 ++ [Recv msg; Send cm]))%nat
          as [|[|k]]; [done..|].
        cbn in Hi. apply list_elem_of_lookup_2, Hq in Hi. done.
    + assert (forall m,
        last ((tr0 ++ [Recv msg; Send cm])
              ++ Acked :: MarkOffset pm (add64 (Offset msg) 1) "" :: rest)
        <> Some (Send m)) as Hlast.
      { intros m. rewrite last_app_cons. cbn [last].
        intros H. apply Hl in H. done. }
      destruct st' as [|m|m|]; [exact Hlast| | |exact Hlast].
      * by destruct (Hns m).
      * by destruct (Hnw m).
Qed.
End Checkpoint.

(** ** partitionLoop *)

Lemma getPOM_group p cmd pm cmd' :
  getPOM p cmd = Ret (pm, cmd') -> group cmd' = group cmd.
Proof.
  unfold getPOM, bind, get, put, ret, abort.
  destruct (default ∅ (poms cmd) !! p) as [pom|].
  - by intros [= _ <-].
  - destruct (ManagePartition _ _ _) as [pom [e|]]; [done|]. by intros [= _ <-].
Qed.

Lemma workerPom_group p cmd pom cmd' :
  workerPom p cmd = Ret (pom, cmd') -> group cmd <> "" ->
  exists pm, pom = Some pm /\ getPOM p cmd = Ret (pm, cmd')
             /\ group cmd' = group cmd.
Proof.
  unfold workerPom. unfold bind at 1. unfold get at 1.
  intros H Hg. destruct (String.eqb_spec (group cmd) "") as [|_]; [done|].
  cbn [negb] in H. unfold bind, ret in H.
  destruct (getPOM p cmd) as [[pm cmd1]|] eqn:E; [|done].
  injection H as <- <-. exists pm. split; [done|]. split; [done|].
  by eapply getPOM_group.
Qed.

Lemma partitionLoop_inv codecs p end' evs cmd r cmd' :
  partitionLoop codecs p end' evs cmd = Ret (r, cmd') ->
  exists pom, workerPom p cmd = Ret (pom, cmd')
    /\ r = match run codecs cmd' pom p end' Selecting evs with
           | Some (st, acts) => Some (st, loopHead cmd' ++ acts)
           | None => None
           end.
Proof.
  unfold partitionLoop, bind, get, ret.
  destruct (workerPom p cmd) as [[pom cmd1]|]; [|done].
  intros [= <- <-]. eauto.
Qed.

Lemma partitionLoop_run codecs p end' evs cmd pom cmd' :
  workerPom p cmd = Ret (pom, cmd') ->
  partitionLoop codecs p end' evs cmd
  = Ret (match run codecs cmd' pom p end' Selecting evs with
         | Some (st, acts) => Some (st, loopHead cmd' ++ acts)
         | None => None
         end, cmd').
Proof. intros H. unfold partitionLoop, bind, get, ret. by rewrite H. Qed.

(** C1: in every trace of a partition worker with a group, and so with the
    offset manager [pm] of its partition, (1) every acknowledgment [Acked]
    comes right behind the [Send] of a fetched record and is followed at
    once by [MarkOffset] with the offset of that record plus 1; (2) every
    [MarkOffset] comes right behind such a fetch, send and acknowledgment,
    on [pm], with that offset and empty metadata; (3) a [Send] is followed
    by nothing but its acknowledgment; (4) when the worker fetches its next
    record, every record sent before has been acknowledged and marked.  The
    offset plus 1 is that of [int64], the exact sum below the largest
    [int64]. *)
Theorem checkpoint_follows_ack codecs cmd p end' evs st tr cmd' :
  group cmd <> "" ->
  partitionLoop codecs p end' evs cmd = Ret (Some (st, tr), cmd') ->
  exists pm,
    getPOM p cmd = Ret (pm, cmd')
    /\ (forall i, tr !! i = Some Acked ->
        exists j msg, i = S (S j) /\ tr !! j = Some (Recv msg)
          /\ tr !! S j
             = Some (Send (newConsumedMessage codecs msg (encodeKey cmd')
                             (encodeValue cmd')))
          /\ tr !! S i = Some (MarkOffset pm (add64 (Offset msg) 1) ""))
    /\ (forall i pm' o md, tr !! i = Some (MarkOffset pm' o md) ->
        exists j msg, i = S (S (S j)) /\ tr !! j = Some (Recv msg)
          /\ tr !! S j
             = Some (Send (newConsumedMessage codecs msg (encodeKey cmd')
                             (encodeValue cmd')))
          /\ tr !! S (S j) = Some Acked
          /\ pm' = pm /\ o = add64 (Offset msg) 1 /\ md = "")
    /\ (forall i m, tr !! i = Some (Send m) -> (S i < length tr)%nat ->
        tr !! S i = Some Acked)
    /\ (forall i j m msg', tr !! j = Some (Send m) ->
        tr !! i = Some (Recv msg') -> (j < i)%nat ->
        (S (S j) < i)%nat
        /\ exists msg,
             tr !! S (S j) = Some (MarkOffset pm (add64 (Offset msg) 1) "")
             /\ cmOffset m = Offset msg)
    /\ (forall msg, minInt64 <= Offset msg < maxInt64 ->
        add64 (Offset msg) 1 = Offset msg + 1).
Proof.
  intros Hg Hloop.
  apply partitionLoop_inv in Hloop as (pom & Hpom & Hr).
  destruct (workerPom_group _ _ _ _ Hpom Hg) as (pm & -> & HgetPOM & Hg').
  exists pm. split; [done|].
  destruct (run codecs cmd' (Some pm) p end' Selecting evs) as [[st1 acts]|] eqn:Hrun;
    [|done].
  injection Hr as -> ->.
  assert (ordered codecs cmd' pm st1 (loopHead cmd' ++ acts)) as [HA HB HC HD _].
  { eapply (run_invariant codecs cmd' (Some pm) p end'); [|apply ordered_loopHead|done].
    intros. eapply ordered_step; [by rewrite Hg'|done..]. }
  split; [done|]. split; [done|]. split; [done|]. split.
  - intros i j m msg' Hj Hi Hlt.
    apply lookup_lt_Some in Hi as Hlen.
    assert ((loopHead cmd' ++ acts) !! S j = Some Acked) as Hack
      by (eapply HD; [done|lia]).
    assert (S j <> i) by (intros <-; congruence).
    destruct (HB _ Hack) as (j0 & msg & [= <-] & Hrecv & Hsend & Hmark).
    assert (S (S j) <> i) by (intros <-; congruence).
    split; [lia|]. exists msg. split; [done|].
    rewrite Hj in Hsend. by injection Hsend as ->.
  - intros msg Hoff. apply wrap64_small. unfold inInt64. lia.
Qed.

Lemma checkpoint_follows_ack_witness :
  exists pm cmd',
    getPOM 0 (testCmd "" "g" 0 42) = Ret (pm, cmd')
    /\ partitionLoop plainCodecs 0 100 (served [record 5]) (testCmd "" "g" 0 42)
       = Ret (Some (Selecting,
                    [Recv (record 5); Send (printed 5); Acked; MarkOffset pm 6 ""]),
              cmd').
Proof.
  pose (pm := {| pomPartition := 0; NextOffset := (42, "") |}).
  pose (cmd' := withPoms {[ 0 := pm ]} (testCmd "" "g" 0 42)).
  assert (partitionLoop plainCodecs 0 100 (served [record 5]) (testCmd "" "g" 0 42)
          = Ret (Some (Selecting,
                       [Recv (record 5); Send (printed 5); Acked; MarkOffset pm 6 ""]),
                 cmd')) as Hrun by reflexivity.
  destruct (checkpoint_follows_ack plainCodecs (testCmd "" "g" 0 42) 0 100
              (served [record 5]) Selecting
              [Recv (record 5); Send (printed 5); Acked; MarkOffset pm 6 ""]
              cmd' ltac:(discriminate) Hrun)
    as (pm' & Hpom & HB & _).
  exists pm', cmd'. split; [exact Hpom|].
  destruct (HB 2%nat eq_refl) as (j & msg & Hj & Hrecv & _ & Hmark).
  injection Hmark as <-. exact Hrun.
Defined.




(** The range ["0=10:20"]: the worker of partition 0 returns behind the
    record at offset 20. *)
Example end_bound_twenty :
  consumePartition plainCodecs 0
    (served [record 19; record 20]) (testCmd "0=10:20" "" 0 0)
  = Ret (Some (Exited,
               [Recv (record 19); Send (printed 19); Acked;
                Recv (record 20); Send (printed 20); Acked;
                ClosePartitionConsumer 0]),
         testCmd "0=10:20" "" 0 0).
Proof. vm_compute. reflexivity. Qed.

(** * More facts *)

Lemma append_cons c s t : String c s +:+ t = String c (s +:+ t).
Proof. reflexivity. Qed.

Lemma append_nil_l t : "" +:+ t = t.
Proof. reflexivity. Qed.

Lemma takeWhile_app p ds rest :
  all p ds = true -> headIs p rest = false ->
  takeWhile p (ds +:+ rest) = ds.
Proof.
  intros Hds Hrest. induction ds as [|c ds IH].
  - rewrite append_nil_l. destruct rest as [|c r]; [done|].
    cbn in *. by rewrite Hrest.
  - cbn in Hds. apply andb_prop in Hds as [Hc Hds].
    rewrite append_cons. cbn [takeWhile]. rewrite Hc. by rewrite IH.
Qed.

(** Digits followed by bytes that are no digits. *)
Lemma parseOffset_head_digits ds rest :
  ds <> "" -> all isDigit ds = true -> digitsValue ds <= maxInt64 ->
  headIs isDigit rest = false ->
  parseOffset (ds +:+ rest)
  = ({| relative := false; start := digitsValue ds; diff := 0 |}, None).
Proof.
  intros Hne Hds Hv Hrest. rewrite parseOffset_tokens.
  destruct ds as [|c ds']; [done|].
  pose proof Hds as [Hc _]%andb_prop.
  assert (startTok (String c ds' +:+ rest) = ""
          /\ qualifierTok (String c ds' +:+ rest) = ""
          /\ intTok (String c ds' +:+ rest) = String c ds') as (-> & -> & ->).
  { unfold startTok, qualifierTok, intTok, afterSign, afterKeyword.
    rewrite append_cons. rewrite keyword_digit by done.
    rewrite sign_digit by done. rewrite <- append_cons.
    by rewrite takeWhile_app. }
  unfold parseOffsetTokens. rewrite ParseInt_digits by done.
  destruct (Z.leb_spec (digitsValue (String c ds')) maxInt64); [|lia]. done.
Qed.

(** X1: [parseOffset] reads only the head of a token.  A token that starts with a run of decimal digits of value at most [maxInt64], followed by anything that does not start with a digit, parses to the absolute offset of that value and no error: what follows the digits is ignored. *)
Theorem parseOffset_ignores_tail ds rest :
  ds <> "" -> all isDigit ds = true -> digitsValue ds <= maxInt64 ->
  headIs isDigit rest = false ->
  parseOffset (ds +:+ rest)
  = ({| relative := false; start := digitsValue ds; diff := 0 |}, None).
Proof. apply parseOffset_head_digits. Qed.

Lemma parseOffset_ignores_tail_witness :
  parseOffset "20 messages" = ({| relative := false; start := 20; diff := 0 |}, None).
Proof.
  apply (parseOffset_ignores_tail "20" " messages");
    [discriminate | reflexivity | vm_compute; discriminate | reflexivity].
Defined.

Lemma startsNoToken_spec c :
  startsNoToken c = true ->
  isDigit c = false /\ Ascii.eqb "o" c = false /\ Ascii.eqb "n" c = false
  /\ Ascii.eqb "r" c = false /\ Ascii.eqb "-" c = false /\ Ascii.eqb "+" c = false.
Proof.
  destruct c as [[] [] [] [] [] [] [] []]; vm_compute; intros H;
    try discriminate H; done.
Qed.

(** X2: a token that is empty, or whose first byte is no digit, no sign and none of the letters o, n and r with which the anchor words start, parses to the absolute offset 0 with no error. *)
Theorem parseOffset_no_token s :
  s = "" \/ headIs startsNoToken s = true ->
  parseOffset s = ({| relative := false; start := 0; diff := 0 |}, None).
Proof.
  intros [-> | Hs]; [reflexivity|].
  destruct s as [|c s]; [done|]. cbn in Hs.
  destruct (startsNoToken_spec c Hs) as (Hd & Ho & Hn & Hr & Hm & Hp).
  rewrite parseOffset_tokens.
  assert (startTok (String c s) = "" /\ qualifierTok (String c s) = ""
          /\ intTok (String c s) = "") as (-> & -> & ->).
  { unfold startTok, qualifierTok, intTok, afterSign, afterKeyword, keyword, sign.
    cbn [stripPrefix]. rewrite Ho, Hn, Hr. cbn [stripPrefix].
    rewrite Hm, Hp. cbn [takeWhile]. by rewrite Hd. }
  reflexivity.
Qed.

Lemma parseOffset_no_token_witness :
  parseOffset "latest" = ({| relative := false; start := 0; diff := 0 |}, None).
Proof. apply parseOffset_no_token. right. reflexivity. Defined.

Lemma parseOffsetTokens_anchor_sign str w (q : ascii) ds :
  w = "oldest" \/ w = "newest" \/ w = "resume" ->
  q = "+"%char \/ q = "-"%char ->
  ds <> "" -> all isDigit ds = true -> digitsValue ds <= maxInt64 ->
  parseOffsetTokens str w (String q "") ds
  = ({| relative := true; start := anchorOf w;
        diff := if Ascii.eqb q "-" then - digitsValue ds else digitsValue ds |},
     None).
Proof.
  intros Hw Hq Hne Hds Hv. unfold parseOffsetTokens.
  rewrite ParseInt_digits by done.
  destruct (Z.leb_spec (digitsValue ds) maxInt64); [|lia].
  pose proof (digitsAcc_ge ds 0 Hds ltac:(lia)) as Hge.
  fold (digitsValue ds) in Hge.
  assert (neg64 (digitsValue ds) = - digitsValue ds) as Hneg.
  { apply wrap64_small. unfold inInt64, minInt64. rewrite maxInt64_eq in *. lia. }
  destruct Hw as [-> | [-> | ->]], Hq as [-> | ->]; cbn; by rewrite ?Hneg.
Qed.

(** X3: when a token has an anchor word, a sign and a number [N] of [int64], the anchor word alone decides the start ([oldest], [newest] or [resume]) and the sign only the direction of the diff: the result is relative, with that anchor and the diff [N] or [- N]. *)
Theorem parseOffset_anchor_and_sign w (q : ascii) N :
  w = "oldest" \/ w = "newest" \/ w = "resume" ->
  q = "+"%char \/ q = "-"%char ->
  0 <= N <= maxInt64 ->
  parseOffset (w +:+ String q (decimal N))
  = ({| relative := true; start := anchorOf w;
        diff := if Ascii.eqb q "-" then - N else N |}, None).
Proof.
  intros Hw Hq HN. destruct (decimal_spec N HN) as (Hne & Hds & Hv).
  rewrite parseOffset_tokens.
  destruct (tokens_anchored w q (decimal N)) as (-> & -> & ->); [done..|].
  rewrite parseOffsetTokens_anchor_sign by (done || lia).
  by rewrite Hv.
Qed.

Lemma parseOffset_anchor_and_sign_witness :
  parseOffset "oldest-5"
  = ({| relative := true; start := OffsetOldest; diff := -5 |}, None)
  /\ parseOffset "resume+7"
  = ({| relative := true; start := offsetResume; diff := 7 |}, None).
Proof.
  split.
  - apply (parseOffset_anchor_and_sign "oldest" "-" 5); [tauto | tauto |].
    rewrite maxInt64_eq. lia.
  - apply (parseOffset_anchor_and_sign "resume" "+" 7); [tauto | tauto |].
    rewrite maxInt64_eq. lia.
Defined.

(** X4: the ranges of what [parseOffset] returns without error: an absolute offset has a start between 0 and [maxInt64] and the diff 0; a relative offset has a diff between [- maxInt64] and [maxInt64]. *)
Theorem parseOffset_ranges str o :
  parseOffset str = (o, None) ->
  (relative o = false -> 0 <= start o <= maxInt64 /\ diff o = 0)
  /\ (relative o = true -> - maxInt64 <= diff o <= maxInt64).
Proof.
  rewrite parseOffset_tokens. unfold parseOffsetTokens.
  assert (exists n err, ParseInt (intTok str) = (n, err)
            /\ (notNil err && (0 <? String.length (intTok str))%nat = false ->
                0 <= n <= maxInt64)) as (n & err & -> & Hn).
  { destruct (ParseInt_intTok str) as [(E & ->) | [(E & Hle & ->) | (E & Hlt & ->)]].
    - eexists _, _. split; [done|]. rewrite maxInt64_eq. lia.
    - eexists _, _. split; [done|]. intros _.
      pose proof (digitsAcc_ge (intTok str) 0 (all_takeWhile _ _) ltac:(lia)).
      unfold digitsValue in *. lia.
    - eexists _, _. split; [done|]. cbn [notNil andb].
      rewrite length_pos_nonempty. by destruct (intTok str). }
  destruct (notNil err && _); [done|]. specialize (Hn eq_refl).
  assert (neg64 n = - n) as Hneg.
  { apply wrap64_small. unfold inInt64, minInt64. rewrite maxInt64_eq in *. lia. }
  destruct (startTok_cases str) as [-> | [-> | [-> | ->]]];
    destruct (qualifierTok_cases str) as [-> | [-> | ->]];
    cbn; rewrite ?Hneg; intros [= <-]; cbn; (split; intros Hrel; [|try lia]);
    try discriminate Hrel; try (split; [lia|done]); rewrite ?maxInt64_eq in *; lia.
Qed.

Lemma parseOffset_ranges_witness :
  parseOffset "newest-10"
  = ({| relative := true; start := OffsetNewest; diff := -10 |}, None)
  /\ - maxInt64 <= -10 <= maxInt64.
Proof.
  split; [reflexivity|].
  destruct (parseOffset_ranges "newest-10"
              {| relative := true; start := OffsetNewest; diff := -10 |} eq_refl)
    as [_ H].
  exact (H eq_refl).
Defined.

Section PartitionRe.
Context {R : Type} (k : string -> caps -> option R).
Hypothesis Hk : forall s c, is_Some (k s c).

Ltac total :=
  repeat match goal with
  | |- context [match k ?s ?c with _ => _ end] =>
      let r := fresh "r" in destruct (Hk s c) as [r ->]
  end.

Lemma match_partToken s c :
  matchRe (Quest (Group 1 (Alt (Lit "all") (PlusClass isDigit)))) s c k
  = if isEmpty (fst (partToken s)) then k s c
    else k (snd (partToken s)) (setCap 1 (fst (partToken s)) c).
Proof.
  cbn [matchRe]. unfold partToken.
  destruct (stripPrefix "all" s) as [s'|] eqn:E.
  { rewrite (stripPrefix_consumed _ _ _ E). cbn. by total. }
  rewrite matchPlus_total by (intros; apply Hk).
  destruct s as [|ch s]; [done|].
  cbn [takeWhile fst snd]. destruct (isDigit ch) eqn:Hp; [|done]. cbn [isEmpty].
  rewrite consumed_dropWhile. cbn [takeWhile dropWhile]. rewrite Hp. by total.
Qed.

Lemma match_skipLit l s c :
  matchRe (Quest (Lit l)) s c k = k (skipLit l s) c.
Proof.
  cbn [matchRe]. unfold skipLit. destruct (stripPrefix l s); by total.
Qed.
End PartitionRe.

Lemma dropWhile_none p s : isEmpty (takeWhile p s) = true -> dropWhile p s = s.
Proof. destruct s as [|c s]; [done|]. cbn. by destruct (p c). Qed.

Lemma partToken_none s : isEmpty (fst (partToken s)) = true -> snd (partToken s) = s.
Proof.
  unfold partToken. destruct (stripPrefix "all" s); [done|].
  cbn [fst snd]. apply dropWhile_none.
Qed.

Lemma match_run {R} (k : string -> caps -> option R) i p s c :
  (forall s c, is_Some (k s c)) ->
  matchRe (Quest (Group i (PlusClass p))) s c k
  = k (dropWhile p s)
      (if isEmpty (takeWhile p s) then c else setCap i (takeWhile p s) c).
Proof.
  intros Hk. rewrite match_digits by done.
  destruct (isEmpty (takeWhile p s)) eqn:E; [|done].
  by rewrite dropWhile_none.
Qed.

Lemma match_partitionRe {R} (k : string -> caps -> option R) s :
  (forall s c, is_Some (k s c)) ->
  matchRe partitionRe s noCaps k = k (segRest s) (partitionCaps s).
Proof.
  intros Hk. unfold partitionRe.
  assert (H3 : forall s c,
    is_Some (matchRe (Quest (Group 3 (PlusClass notNewline))) s c k)).
  { intros s0 c0. rewrite match_run by done. apply Hk. }
  assert (H4 : forall s c,
    is_Some (matchRe (Cat (Quest (Lit ":")) (Quest (Group 3 (PlusClass notNewline))))
               s c k)).
  { intros s0 c0. rewrite matchRe_Cat, match_skipLit by done. apply H3. }
  assert (H2 : forall s c,
    is_Some (matchRe (Cat (Quest (Group 2 (PlusClass notColon)))
               (Cat (Quest (Lit ":")) (Quest (Group 3 (PlusClass notNewline)))))
               s c k)).
  { intros s0 c0. rewrite matchRe_Cat, match_run by done. apply H4. }
  assert (H1 : forall s c,
    is_Some (matchRe (Cat (Quest (Lit "="))
               (Cat (Quest (Group 2 (PlusClass notColon)))
               (Cat (Quest (Lit ":")) (Quest (Group 3 (PlusClass notNewline))))))
               s c k)).
  { intros s0 c0. rewrite matchRe_Cat, match_skipLit by done. apply H2. }
  rewrite matchRe_Cat, match_partToken by done.
  assert (forall c,
    matchRe (Cat (Quest (Lit "="))
               (Cat (Quest (Group 2 (PlusClass notColon)))
               (Cat (Quest (Lit ":")) (Quest (Group 3 (PlusClass notNewline))))))
      (snd (partToken s)) c k
    = k (segRest s)
        (let c2 := if isEmpty (segStart s) then c else setCap 2 (segStart s) c in
         if isEmpty (segEnd s) then c2 else setCap 3 (segEnd s) c2)) as Htail.
  { intros c. rewrite matchRe_Cat, match_skipLit by done.
    rewrite matchRe_Cat, match_run by done.
    rewrite matchRe_Cat, match_skipLit by done.
    by rewrite match_run. }
  unfold partitionCaps.
  destruct (isEmpty (fst (partToken s))) eqn:E1.
  - rewrite <- (partToken_none s E1) at 1. apply Htail.
  - apply Htail.
Qed.

Lemma partitionCaps_1 s : default "" (partitionCaps s 1%nat) = fst (partToken s).
Proof.
  unfold partitionCaps.
  destruct (isEmpty (fst (partToken s))) eqn:E1, (isEmpty (segStart s)),
    (isEmpty (segEnd s)); cbn; try done; by apply isEmpty_true in E1.
Qed.

Lemma partitionCaps_2 s : default "" (partitionCaps s 2%nat) = segStart s.
Proof.
  unfold partitionCaps.
  destruct (isEmpty (fst (partToken s))), (isEmpty (segStart s)) eqn:E2,
    (isEmpty (segEnd s)); cbn; try done; by apply isEmpty_true in E2.
Qed.

Lemma partitionCaps_3 s : default "" (partitionCaps s 3%nat) = segEnd s.
Proof.
  unfold partitionCaps.
  destruct (isEmpty (fst (partToken s))), (isEmpty (segStart s)),
    (isEmpty (segEnd s)) eqn:E3; cbn; try done; by apply isEmpty_true in E3.
Qed.

Lemma str_take_all s : take (String.length s) s = s.
Proof. induction s as [|c s IH]; cbn; [done|]. by rewrite IH. Qed.

Lemma str_drop_all s : drop (String.length s) s = "".
Proof. induction s as [|c s IH]; cbn; done. Qed.

Lemma matchHere_partitionRe s pos :
  matchHere partitionRe s pos
  = Some {| mStart := pos;
            mEnd := (pos + (String.length s - String.length (segRest s)))%nat;
            mCaps := partitionCaps s |}.
Proof. unfold matchHere. by rewrite match_partitionRe by eauto. Qed.

(** The partition expression finds one row in a segment that it matches to
    its end, and that row holds the segment and its three tokens. *)
Lemma partitionRe_one_row s :
  segRest s = "" ->
  FindAllStringSubmatch partitionRe 3 s
  = [[s; fst (partToken s); segStart s; segEnd s]].
Proof.
  intros Hrest. unfold FindAllStringSubmatch.
  replace (String.length s + 2)%nat with (S (S (String.length s))) by lia.
  cbn [allMatches].
  replace (String.length s <? 0)%nat with false
    by (symmetry; apply Nat.ltb_ge; lia).
  change (drop 0 s) with s.
  rewrite (execute_here _ _ _ _ (matchHere_partitionRe s 0)).
  cbn [mStart mEnd mCaps]. rewrite Hrest. cbn [String.length].
  rewrite Nat.sub_0_r, Nat.add_0_l.
  replace (Z.of_nat 0 =? -1) with false by done.
  rewrite andb_false_r. cbn [negb].
  unfold submatches at 1. cbn [mStart mEnd mCaps seq map].
  rewrite partitionCaps_1, partitionCaps_2, partitionCaps_3.
  rewrite Nat.sub_0_r. change (drop 0 s) with s. rewrite str_take_all.
  f_equal.
  destruct s as [|c s'].
  - cbn. done.
  - replace (String.length (String c s') =? 0)%nat with false by done.
    cbn [allMatches].
    rewrite Nat.ltb_irrefl. rewrite str_drop_all.
    rewrite (execute_here _ _ _ _ (matchHere_partitionRe "" _)).
    cbn [mStart mEnd mCaps].
    replace (segRest "") with "" by reflexivity. cbn [String.length].
    rewrite Nat.sub_0_r, Nat.add_0_r. rewrite Nat.eqb_refl, Z.eqb_refl.
    cbn [andb negb]. cbn [utf8.runeWidth]. cbn [Nat.ltb Nat.leb].
    cbn [allMatches String.length].
    replace (S (String.length s') <? S (S (String.length s')))%nat with true
      by (symmetry; apply Nat.ltb_lt; lia).
    done.
Qed.

Lemma append_nil_r s : s +:+ "" = s.
Proof. induction s as [|c s IH]; [done|]. by rewrite append_cons, IH. Qed.

Lemma append_assoc s t u : (s +:+ t) +:+ u = s +:+ (t +:+ u).
Proof. induction s as [|c s IH]; [done|]. by rewrite !append_cons, IH. Qed.

Lemma rev_onto_twice s : forall a b,
  rev_onto (rev_onto s a) b = rev_onto a (s +:+ b).
Proof.
  induction s as [|c s IH]; intros a b; cbn [rev_onto]; [done|].
  by rewrite IH.
Qed.

Lemma str_rev_involutive s : rev (rev s) = s.
Proof. unfold rev. rewrite rev_onto_twice. cbn. apply append_nil_r. Qed.

Lemma headIs_rev_onto p s : forall acc,
  headIs p (rev_onto s acc) = if isEmpty s then headIs p acc else lastIs p s.
Proof.
  induction s as [|c s IH]; intros acc; cbn [rev_onto isEmpty]; [done|].
  rewrite IH. destruct s; done.
Qed.

Lemma headIs_rev p s : headIs p (rev s) = lastIs p s.
Proof. unfold rev. rewrite headIs_rev_onto. by destruct s. Qed.

Lemma plain_spec c :
  plain c = true ->
  strings.asciiSpace c = false
  /\ (forall k, 128 <= k -> (code c =? k) = false)
  /\ (forall lo hi, 128 <= lo -> between lo hi c = false).
Proof.
  unfold plain. intros [Hlt%Z.ltb_lt Hsp%negb_true_iff]%andb_prop.
  split; [done|]. split.
  - intros k Hk. apply Z.eqb_neq. lia.
  - intros lo hi Hlo. unfold between. apply andb_false_iff. left.
    apply Z.leb_gt. lia.
Qed.

Lemma trimHead_plain fwd s : headIs plain s = true -> strings.trimHead fwd s = s.
Proof.
  destruct s as [|c0 s1]; [done|]. cbn [headIs]. intros Hc.
  destruct (plain_spec c0 Hc) as (Hsp & Heq & Hbt).
  cbn [strings.trimHead]. rewrite Hsp.
  destruct s1 as [|c1 s2]; [done|].
  assert ((if fwd then strings.space2 c0 c1 else strings.space2 c1 c0) = false) as ->.
  { unfold strings.space2. destruct fwd; rewrite !Heq by lia;
      by rewrite ?andb_false_r. }
  destruct s2 as [|c2 s3]; [done|].
  assert ((if fwd then strings.space3 c0 c1 c2 else strings.space3 c2 c1 c0) = false)
    as ->; [|done].
  unfold strings.space3. destruct fwd; rewrite ?Heq, ?Hbt by lia;
    by rewrite ?andb_false_r.
Qed.

(** [TrimSpace] leaves a string alone that starts and ends with ASCII bytes
    that are no white space. *)
Lemma TrimSpace_plain s :
  headIs plain s = true -> lastIs plain s = true -> strings.TrimSpace s = s.
Proof.
  intros Hh Hl. unfold strings.TrimSpace.
  rewrite (trimHead_plain true) by done.
  rewrite (trimHead_plain false) by (by rewrite headIs_rev).
  apply str_rev_involutive.
Qed.

Lemma headIs_app p s t : s <> "" -> headIs p (s +:+ t) = headIs p s.
Proof. by destruct s. Qed.

Lemma lastIs_app p s t : t <> "" -> lastIs p (s +:+ t) = lastIs p t.
Proof.
  intros Ht. induction s as [|c s IH]; [done|].
  rewrite append_cons. cbn [lastIs]. rewrite IH.
  destruct (s +:+ t) eqn:E; [|done].
  destruct s; [|done]. by rewrite append_nil_l in E.
Qed.

Lemma lastIs_cons p c t : t <> "" -> lastIs p (String c t) = lastIs p t.
Proof. by destruct t. Qed.

Lemma dropWhile_app p ds rest :
  all p ds = true -> headIs p rest = false ->
  dropWhile p (ds +:+ rest) = rest.
Proof.
  intros Hds Hrest. induction ds as [|c ds IH].
  - rewrite append_nil_l. destruct rest as [|c r]; [done|].
    cbn in *. by rewrite Hrest.
  - cbn in Hds. apply andb_prop in Hds as [Hc Hds].
    rewrite append_cons. cbn [dropWhile]. rewrite Hc. by rewrite IH.
Qed.

Lemma takeWhile_whole p s : all p s = true -> takeWhile p s = s /\ dropWhile p s = "".
Proof.
  intros H. rewrite <- (append_nil_r s) at 1 3.
  by rewrite takeWhile_app, dropWhile_app.
Qed.

Lemma isDigit_plain c : isDigit c = true -> plain c = true /\ notColon c = true
  /\ notNewline c = true /\ Ascii.eqb c "," = false /\ Ascii.eqb "a" c = false.
Proof.
  destruct c as [[] [] [] [] [] [] [] []]; vm_compute; intros H;
    try discriminate H; done.
Qed.

Lemma all_impl (p q : ascii -> bool) s :
  (forall c, p c = true -> q c = true) -> all p s = true -> all q s = true.
Proof.
  intros Hpq. induction s as [|c s IH]; [done|]. cbn.
  intros [Hc Hs]%andb_prop. by rewrite (Hpq c Hc), IH.
Qed.

Lemma all_app p s t : all p (s +:+ t) = all p s && all p t.
Proof.
  induction s as [|c s IH]; [done|]. rewrite append_cons. cbn.
  by rewrite IH, andb_assoc.
Qed.

Lemma all_headIs p s : s <> "" -> all p s = true -> headIs p s = true.
Proof. destruct s; [done|]. cbn. by intros _ [? _]%andb_prop. Qed.

Lemma all_lastIs p s : s <> "" -> all p s = true -> lastIs p s = true.
Proof.
  induction s as [|c s IH]; [done|]. intros _. cbn [all].
  intros [Hc Hs]%andb_prop. destruct s; [done|]. cbn [lastIs]. by apply IH.
Qed.

Lemma String_eqb_head (c : ascii) s (d : ascii) t :
  Ascii.eqb c d = false -> String.eqb (String c s) (String d t) = false.
Proof. intros H. cbn [String.eqb]. by rewrite H. Qed.

(** [parsePartition] on a non-empty run of digits. *)
Lemma parsePartition_digits ds :
  ds <> "" -> all isDigit ds = true ->
  parsePartition ds =
    if digitsValue ds <=? maxInt64 then (wrap32 (digitsValue ds), None)
    else (0, Some ("Invalid partition [" +:+ ds +:+ "]")).
Proof.
  intros Hne Hds. unfold parsePartition, Atoi.
  destruct ds as [|c ds]; [done|].
  pose proof Hds as [Hc _]%andb_prop.
  destruct (isDigit_plain c Hc) as (_ & _ & _ & _ & Ha).
  rewrite String_eqb_head by (by rewrite Ascii.eqb_sym).
  cbn [String.length Nat.eqb orb].
  rewrite ParseInt_digits by done.
  by destruct (digitsValue (String c ds) <=? maxInt64).
Qed.

Lemma wrap32_small z : - 2 ^ 31 <= z < 2 ^ 31 -> wrap32 z = z.
Proof. intros H. unfold wrap32. rewrite Z.mod_small; lia. Qed.

Lemma stripPrefix_all_digit c s : isDigit c = true -> stripPrefix "all" (String c s) = None.
Proof.
  intros Hc. destruct (isDigit_plain c Hc) as (_ & _ & _ & _ & Ha).
  cbn [stripPrefix]. by rewrite Ha.
Qed.

Lemma partToken_head ptok rest :
  ptok = "" \/ ptok = "all" \/ (ptok <> "" /\ all isDigit ptok = true) ->
  partToken (ptok +:+ String "=" rest) = (ptok, String "=" rest).
Proof.
  intros [-> | [-> | [Hne Hds]]]; [done..|].
  unfold partToken. destruct ptok as [|c ds]; [done|].
  pose proof Hds as [Hc _]%andb_prop.
  rewrite append_cons, stripPrefix_all_digit by done. rewrite <- append_cons.
  by rewrite takeWhile_app, dropWhile_app.
Qed.

Lemma segment_tokens ptok stok etok :
  ptok = "" \/ ptok = "all" \/ (ptok <> "" /\ all isDigit ptok = true) ->
  all notColon stok = true -> all notNewline etok = true ->
  let seg := ptok +:+ String "=" (stok +:+ String ":" etok) in
  fst (partToken seg) = ptok /\ segStart seg = stok /\ segEnd seg = etok
  /\ segRest seg = "".
Proof.
  intros Hp Hs He seg. subst seg.
  unfold segRest, segEnd, afterStart, segStart, afterPartition.
  rewrite partToken_head by done. cbn [fst snd].
  change (skipLit "=" (String "=" (stok +:+ String ":" etok)))
    with (stok +:+ String ":" etok).
  rewrite takeWhile_app, dropWhile_app by done.
  change (skipLit ":" (String ":" etok)) with etok.
  destruct (takeWhile_whole notNewline etok He) as [-> ->]. done.
Qed.

Lemma offsetField_token row i dflt tok :
  (i < length row)%nat -> nth i row "" = tok -> tok <> "" ->
  headIs plain tok = true -> lastIs plain tok = true ->
  offsetField row i dflt = offsetOr dflt tok.
Proof.
  intros Hi Hnth Hne Hh Hl. unfold offsetField, offsetOr.
  rewrite Hnth, TrimSpace_plain by done.
  replace (i <? length row)%nat with true by (symmetry; by apply Nat.ltb_lt).
  rewrite length_pos_nonempty. destruct tok; [done|]. cbn [isEmpty negb andb].
  by destruct (parseOffset _) as [o [e|]].
Qed.

Lemma offsetField_fieldOr row i dflt tok :
  (i < length row)%nat -> nth i row "" = tok ->
  tok = "" \/ (headIs plain tok = true /\ lastIs plain tok = true) ->
  offsetField row i dflt = fieldOr dflt tok.
Proof.
  intros Hi Hnth [->|[Hh Hl]].
  - unfold offsetField, fieldOr. rewrite Hnth. cbn. by rewrite andb_false_r.
  - assert (tok <> "") by (by destruct tok).
    rewrite (offsetField_token row i dflt tok) by done.
    unfold fieldOr. by destruct tok.
Qed.

Lemma lastIs_segment ptok stok etok :
  etok = "" \/ lastIs plain etok = true ->
  lastIs plain (ptok +:+ String "=" (stok +:+ String ":" etok)) = true.
Proof.
  intros He. rewrite lastIs_app by done. rewrite lastIs_cons by (by destruct stok).
  rewrite lastIs_app by done. destruct He as [->|He]; [done|].
  rewrite lastIs_cons; [done|]. by destruct etok.
Qed.

(** One round of [parseOffsets] on a segment [P=S:E] whose tokens, where
    present, start and end with ASCII bytes that are no white space. *)
Lemma parseOffsetsBody_segment (result : gmap Z interval) ptok stok etok :
  ptok = "" \/ ptok = "all" \/ (ptok <> "" /\ all isDigit ptok = true) ->
  all notColon stok = true ->
  stok = "" \/ (headIs plain stok = true /\ lastIs plain stok = true) ->
  all notNewline etok = true ->
  etok = "" \/ (headIs plain etok = true /\ lastIs plain etok = true) ->
  parseOffsetsBody result (ptok +:+ String "=" (stok +:+ String ":" etok))
  = match parsePartition ptok with
    | (p, None) =>
        (<[p := {| start_ := fieldOr (start_ defaultInterval) stok;
                   end_ := fieldOr (end_ defaultInterval) etok |}]> result, None)
    | (_, Some e) => (result, Some e)
    end.
Proof.
  intros Hp Hs Hsp He Hep.
  destruct (segment_tokens ptok stok etok Hp Hs He) as (H1 & H2 & H3 & H4).
  unfold parseOffsetsBody.
  rewrite TrimSpace_plain; first last.
  - apply lastIs_segment. tauto.
  - destruct Hp as [-> | [-> | [Hne Hds]]]; [done..|].
    rewrite headIs_app by done.
    apply (all_headIs _ _ Hne). eapply all_impl; [|done].
    intros c Hc. by apply isDigit_plain.
  - rewrite partitionRe_one_row by done. rewrite H1, H2, H3.
    cbn [length Nat.ltb Nat.leb nth].
    destruct (parsePartition ptok) as [p [e|]]; [done|].
    rewrite (offsetField_fieldOr _ 2 _ stok) by (cbn; done || lia).
    rewrite (offsetField_fieldOr _ 3 _ etok) by (cbn; done || lia).
    done.
Qed.

Lemma Split_single s (sep : ascii) :
  all (fun c => negb (Ascii.eqb c sep)) s = true -> strings.Split s sep = [s].
Proof.
  induction s as [|c s IH]; [done|]. cbn [all strings.Split].
  intros [Hc Hs]%andb_prop. apply negb_true_iff in Hc. rewrite Hc.
  by rewrite IH.
Qed.

Lemma Split_app s1 s2 (sep : ascii) :
  all (fun c => negb (Ascii.eqb c sep)) s1 = true ->
  strings.Split (s1 +:+ String sep s2) sep = s1 :: strings.Split s2 sep.
Proof.
  induction s1 as [|c s IH].
  - intros _. rewrite append_nil_l. cbn [strings.Split].
    by rewrite Ascii.eqb_refl.
  - cbn [all]. intros [Hc Hs]%andb_prop. apply negb_true_iff in Hc.
    rewrite append_cons. cbn [strings.Split]. rewrite Hc. by rewrite IH.
Qed.

Lemma Split_nonempty s sep : strings.Split s sep <> [].
Proof.
  destruct s as [|c s]; [done|]. cbn [strings.Split].
  destruct (Ascii.eqb c sep); [done|]. by destruct (strings.Split s sep).
Qed.

Lemma offsetOr_decimal dflt N : 0 <= N <= maxInt64 -> fieldOr dflt (decimal N) = absolute N.
Proof.
  intros HN. destruct (decimal_spec N HN) as (Hne & Hds & Hv).
  unfold fieldOr. destruct (decimal N) as [|c ds] eqn:Hd; [done|].
  cbn [isEmpty]. rewrite <- Hd in *.
  unfold offsetOr. rewrite <- (append_nil_r (decimal N)).
  rewrite parseOffset_head_digits by (done || lia). by rewrite Hv.
Qed.

Lemma decimal_facts N :
  0 <= N <= maxInt64 ->
  decimal N <> "" /\ all isDigit (decimal N) = true
  /\ all notColon (decimal N) = true /\ all notNewline (decimal N) = true
  /\ all notComma (decimal N) = true
  /\ headIs plain (decimal N) = true /\ lastIs plain (decimal N) = true.
Proof.
  intros HN. destruct (decimal_spec N HN) as (Hne & Hds & Hv).
  assert (forall q : ascii -> bool, (forall c, isDigit c = true -> q c = true) ->
            all q (decimal N) = true) as Hall
    by (intros q Hq; by eapply all_impl).
  split; [done|]. split; [done|].
  split; [apply Hall; intros c Hc; by apply isDigit_plain|].
  split; [apply Hall; intros c Hc; by apply isDigit_plain|].
  split.
  { apply Hall. intros c Hc. unfold notComma.
    destruct (isDigit_plain c Hc) as (_ & _ & _ & -> & _). done. }
  split.
  - apply all_headIs; [done|]. apply Hall. intros c Hc. by apply isDigit_plain.
  - apply all_lastIs; [done|]. apply Hall. intros c Hc. by apply isDigit_plain.
Qed.

Lemma parsePartition_decimal N :
  0 <= N <= maxInt64 -> parsePartition (decimal N) = (wrap32 N, None).
Proof.
  intros HN. destruct (decimal_spec N HN) as (Hne & Hds & Hv).
  rewrite parsePartition_digits by done. rewrite Hv.
  destruct (Z.leb_spec N maxInt64); [done|lia].
Qed.

Lemma parseOffsetsBody_numeric (result : gmap Z interval) P S E :
  0 <= P <= maxInt64 -> 0 <= S <= maxInt64 -> 0 <= E <= maxInt64 ->
  parseOffsetsBody result (numericSegment P S E)
  = (<[wrap32 P := {| start_ := absolute S; end_ := absolute E |}]> result, None).
Proof.
  intros HP HS HE. unfold numericSegment.
  destruct (decimal_facts P HP) as (HP1 & HP2 & _).
  destruct (decimal_facts S HS) as (HS1 & _ & HS2 & _ & _ & HS3 & HS4).
  destruct (decimal_facts E HE) as (HE1 & _ & _ & HE2 & _ & HE3 & HE4).
  change (decimal P +:+ "=" +:+ decimal S +:+ ":" +:+ decimal E)
    with (decimal P +:+ String "=" (decimal S +:+ String ":" (decimal E))).
  rewrite parseOffsetsBody_segment by (done || tauto).
  rewrite parsePartition_decimal by done.
  by rewrite !offsetOr_decimal.
Qed.

Lemma numericSegment_notComma P S E :
  0 <= P <= maxInt64 -> 0 <= S <= maxInt64 -> 0 <= E <= maxInt64 ->
  all notComma (numericSegment P S E) = true /\ numericSegment P S E <> "".
Proof.
  intros HP HS HE. unfold numericSegment.
  destruct (decimal_facts P HP) as (HP1 & _ & _ & _ & HP2 & _).
  destruct (decimal_facts S HS) as (_ & _ & _ & _ & HS2 & _).
  destruct (decimal_facts E HE) as (_ & _ & _ & _ & HE2 & _).
  split.
  - rewrite !all_app, HP2, HS2, HE2. done.
  - destruct (decimal P); done.
Qed.

Lemma length_nonzero s : s <> "" -> (String.length s =? 0)%nat = false.
Proof. by destruct s. Qed.

Lemma int32_int64 P : 0 <= P < 2 ^ 31 -> 0 <= P <= maxInt64 /\ - 2 ^ 31 <= P < 2 ^ 31.
Proof. rewrite maxInt64_eq. change (2 ^ 31) with 2147483648. lia. Qed.

Lemma parseOffsets_numeric_one P S E :
  0 <= P <= maxInt64 -> 0 <= S <= maxInt64 -> 0 <= E <= maxInt64 ->
  parseOffsets (numericSegment P S E)
  = ({[ wrap32 P := {| start_ := absolute S; end_ := absolute E |} ]}, None).
Proof.
  intros HP HS HE.
  destruct (numericSegment_notComma P S E HP HS HE) as [Hc Hne].
  unfold parseOffsets. rewrite length_nonzero by done.
  rewrite Split_single by exact Hc. cbn [parseOffsetsLoop].
  by rewrite parseOffsetsBody_numeric.
Qed.

(** X5: the specification [P=S:E] of three decimal numbers of [int64] parses to the map with the one key [int32(P)] and the interval from the absolute offset [S] to the absolute offset [E]; the key is [P] itself when [P] is below 2^31. *)
Theorem parseOffsets_numeric P S E :
  0 <= P <= maxInt64 -> 0 <= S <= maxInt64 -> 0 <= E <= maxInt64 ->
  parseOffsets (numericSegment P S E)
  = ({[ wrap32 P := {| start_ := absolute S; end_ := absolute E |} ]}, None)
  /\ (P < 2 ^ 31 -> wrap32 P = P).
Proof.
  intros HP HS HE. split; [by apply parseOffsets_numeric_one|].
  intros. apply wrap32_small. lia.
Qed.

Lemma parseOffsets_numeric_witness :
  parseOffsets "7=10:20"
  = ({[ 7 := {| start_ := absolute 10; end_ := absolute 20 |} ]}, None).
Proof.
  destruct (parseOffsets_numeric 7 10 20) as [H Hw];
    [rewrite maxInt64_eq; lia..|].
  rewrite Hw in H by lia. exact H.
Defined.

(** X6: two numeric segments separated by a comma give the map of the first segment updated with the second: each partition has its own interval, and when both segments name the same partition only the interval of the later segment is kept. *)
Theorem parseOffsets_later_segment_wins P1 S1 E1 P2 S2 E2 :
  0 <= P1 <= maxInt64 -> 0 <= S1 <= maxInt64 -> 0 <= E1 <= maxInt64 ->
  0 <= P2 <= maxInt64 -> 0 <= S2 <= maxInt64 -> 0 <= E2 <= maxInt64 ->
  let spec := numericSegment P1 S1 E1 +:+ "," +:+ numericSegment P2 S2 E2 in
  let i1 := {| start_ := absolute S1; end_ := absolute E1 |} in
  let i2 := {| start_ := absolute S2; end_ := absolute E2 |} in
  parseOffsets spec = (<[wrap32 P2 := i2]> {[ wrap32 P1 := i1 ]}, None)
  /\ fst (parseOffsets spec) !! wrap32 P2 = Some i2
  /\ (wrap32 P1 <> wrap32 P2 -> fst (parseOffsets spec) !! wrap32 P1 = Some i1)
  /\ (wrap32 P1 = wrap32 P2 -> fst (parseOffsets spec) = {[ wrap32 P2 := i2 ]}).
Proof.
  intros HP1 HS1 HE1 HP2 HS2 HE2 spec i1 i2.
  destruct (numericSegment_notComma P1 S1 E1 HP1 HS1 HE1) as [Hc1 Hne1].
  destruct (numericSegment_notComma P2 S2 E2 HP2 HS2 HE2) as [Hc2 Hne2].
  assert (parseOffsets spec = (<[wrap32 P2 := i2]> {[ wrap32 P1 := i1 ]}, None)) as ->.
  { unfold parseOffsets, spec. rewrite length_nonzero by (by destruct (numericSegment P1 S1 E1)).
    change (numericSegment P1 S1 E1 +:+ "," +:+ numericSegment P2 S2 E2)
      with (numericSegment P1 S1 E1 +:+ String "," (numericSegment P2 S2 E2)).
    rewrite Split_app by exact Hc1. rewrite Split_single by exact Hc2.
    cbn [parseOffsetsLoop]. rewrite !parseOffsetsBody_numeric by done. done. }
  split; [done|]. cbn [fst]. split; [by rewrite lookup_insert_eq|]. split.
  - intros Hne. rewrite lookup_insert_ne by done. by rewrite lookup_singleton_eq.
  - intros ->. by rewrite <- insert_empty, insert_insert_eq, insert_empty.
Qed.

Lemma parseOffsets_later_segment_wins_witness :
  parseOffsets "2=1:10,2=5:20"
  = ({[ 2 := {| start_ := absolute 5; end_ := absolute 20 |} ]}, None).
Proof.
  destruct (parseOffsets_later_segment_wins 2 1 10 2 5 20)
    as (H & _ & _ & Hsame); [rewrite maxInt64_eq; lia..|].
  cbn zeta in H, Hsame. rewrite H in Hsame. cbn [fst] in Hsame.
  rewrite (Hsame eq_refl), (wrap32_small 2) in H by lia. exact H.
Defined.

Lemma dropWhile_weaker (p q : ascii -> bool) s :
  (forall c, p c = true -> q c = true) ->
  dropWhile q (dropWhile p s) = dropWhile q s.
Proof.
  intros Hpq. induction s as [|c s IH]; [done|]. cbn [dropWhile].
  destruct (p c) eqn:Hp.
  - by rewrite (Hpq c Hp).
  - done.
Qed.

Lemma dropWhile_stripPrefix q l : forall s s',
  all q l = true -> stripPrefix l s = Some s' -> dropWhile q s' = dropWhile q s.
Proof.
  induction l as [|a l IH]; intros s s'; cbn [stripPrefix all].
  - by intros _ [= ->].
  - intros [Ha Hl]%andb_prop. destruct s as [|b s]; [done|].
    destruct (Ascii.eqb a b) eqn:Hab; [|done].
    apply Ascii.eqb_eq in Hab as <-. intros H. cbn [dropWhile]. rewrite Ha.
    by apply IH.
Qed.

Lemma dropWhile_skipLit q l s :
  all q l = true -> dropWhile q (skipLit l s) = dropWhile q s.
Proof.
  intros Hl. unfold skipLit. destruct (stripPrefix l s) eqn:H; [|done].
  by eapply dropWhile_stripPrefix.
Qed.

Lemma dropWhile_partToken s :
  dropWhile notColon (snd (partToken s)) = dropWhile notColon s.
Proof.
  unfold partToken. destruct (stripPrefix "all" s) eqn:H; cbn [snd].
  - by apply (dropWhile_stripPrefix notColon "all" s).
  - apply dropWhile_weaker. intros c Hc. by apply isDigit_plain.
Qed.

Lemma skipColon s : skipLit ":" (dropWhile notColon s) = afterColon s.
Proof.
  unfold afterColon. induction s as [|c s IH]; [done|]. cbn [dropWhile].
  destruct (notColon c) eqn:Hc; [done|].
  unfold notColon in Hc. apply negb_false_iff, Ascii.eqb_eq in Hc as ->.
  done.
Qed.

(** What the partition expression leaves of a segment is what follows the
    first line break behind the first colon. *)
Lemma segRest_afterColon s : segRest s = dropWhile notNewline (afterColon s).
Proof.
  unfold segRest, afterStart, afterPartition.
  rewrite (dropWhile_skipLit notColon "=") by done.
  by rewrite dropWhile_partToken, skipColon.
Qed.

Lemma dropWhile_empty_iff p s : dropWhile p s = "" <-> all p s = true.
Proof.
  induction s as [|c s IH]; [done|]. cbn [dropWhile all].
  destruct (p c); cbn [andb]; [done|]. split; done.
Qed.

Lemma segRest_empty_iff s : segRest s = "" <-> all notNewline (afterColon s) = true.
Proof. rewrite segRest_afterColon. apply dropWhile_empty_iff. Qed.

(** *** Lengths *)

Lemma length_dropWhile p s : (String.length (dropWhile p s) <= String.length s)%nat.
Proof.
  induction s as [|c s IH]; [done|]. cbn [dropWhile].
  destruct (p c); cbn [String.length]; lia.
Qed.

Lemma dropWhile_suffix p s : exists pre, s = pre +:+ dropWhile p s.
Proof.
  induction s as [|c s [pre IH]]; [by exists ""|]. cbn [dropWhile].
  destruct (p c).
  - exists (String c pre). rewrite append_cons. by rewrite <- IH.
  - by exists "".
Qed.

Lemma afterColon_suffix s : s = "" \/ exists c pre, s = String c pre +:+ afterColon s \/ (afterColon s = "" /\ s = String c pre).
Proof.
  destruct s as [|c s]; [by left|]. right.
  unfold afterColon. destruct (dropWhile_suffix notColon (String c s)) as [pre Hpre].
  destruct (dropWhile notColon (String c s)) as [|d r] eqn:Hd.
  - exists c, s. by right.
  - destruct pre as [|c' pre].
    + rewrite append_nil_l in Hpre. injection Hpre as -> ->.
      exists d, "". left. done.
    + rewrite append_cons in Hpre. injection Hpre as -> ->.
      exists c', (pre +:+ String d ""). left.
      rewrite append_cons. f_equal. by rewrite append_assoc.
Qed.

Lemma str_length_app s t : String.length (s +:+ t) = (String.length s + String.length t)%nat.
Proof. induction s as [|c s IH]; [done|]. rewrite append_cons. cbn. by rewrite IH. Qed.

Lemma str_drop_app_length pre r : drop (String.length pre) (pre +:+ r) = r.
Proof. induction pre as [|c pre IH]; [by rewrite append_nil_l|]. rewrite append_cons. apply IH. Qed.

(** The expression consumes at least one byte of a segment that is not
    empty. *)
Lemma segRest_consumes s :
  s <> "" -> exists c pre, s = String c pre +:+ segRest s.
Proof.
  intros Hs. rewrite segRest_afterColon.
  destruct (afterColon_suffix s) as [->|(c & pre & [H|[H1 H2]])]; [done| |].
  - destruct (dropWhile_suffix notNewline (afterColon s)) as [pre' H'].
    exists c, (pre +:+ pre'). rewrite append_cons, append_assoc.
    rewrite <- H'. by rewrite <- append_cons.
  - rewrite H1. exists c, pre. by rewrite append_cons, append_nil_r.
Qed.

Lemma matchHere_partitionRe_end s pos :
  s <> "" ->
  exists c pre, s = String c pre +:+ segRest s
    /\ matchHere partitionRe s pos
       = Some {| mStart := pos; mEnd := (pos + S (String.length pre))%nat;
                 mCaps := partitionCaps s |}.
Proof.
  intros Hs. destruct (segRest_consumes s Hs) as (c & pre & H).
  exists c, pre. split; [done|]. rewrite matchHere_partitionRe. do 2 f_equal.
  rewrite H at 1. rewrite str_length_app. cbn [String.length]. lia.
Qed.

(** A segment that the partition expression does not match to its end has
    a second match behind the first. *)
Lemma partitionRe_two_rows s :
  segRest s <> "" ->
  exists r1 r2 rest, FindAllStringSubmatch partitionRe 3 s = r1 :: r2 :: rest.
Proof.
  intros Hrest. unfold FindAllStringSubmatch.
  assert (s <> "") as Hs by (intros ->; by apply Hrest).
  destruct (matchHere_partitionRe_end s 0 Hs) as (c & pre & Hsplit & Hm).
  assert (String.length s = (S (String.length pre) + String.length (segRest s))%nat) as Hlen.
  { rewrite Hsplit at 1. by rewrite str_length_app. }
  assert (exists n, String.length (segRest s) = S n) as [n Hn]
    by (destruct (segRest s); [done|by eexists]).
  replace (String.length s + 2)%nat with (S (S (String.length s))) by lia.
  cbn [allMatches].
  replace (String.length s <? 0)%nat with false
    by (symmetry; apply Nat.ltb_ge; lia).
  change (drop 0 s) with s.
  rewrite (execute_here _ _ _ _ Hm). cbn [mStart mEnd mCaps].
  rewrite Nat.add_0_l. cbn [Nat.eqb andb negb].
  replace (String.length s <? S (String.length pre))%nat with false
    by (symmetry; apply Nat.ltb_ge; lia).
  assert (drop (S (String.length pre)) s = segRest s) as ->.
  { rewrite Hsplit at 1. apply (str_drop_app_length (String c pre)). }
  destruct (matchHere_partitionRe_end (segRest s) (S (String.length pre)) Hrest)
    as (c2 & pre2 & _ & Hm2).
  rewrite (execute_here _ _ _ _ Hm2). cbn [mStart mEnd mCaps].
  replace (S (String.length pre) + S (String.length pre2) =? S (String.length pre))%nat
    with false by (symmetry; apply Nat.eqb_neq; lia).
  cbn [andb negb]. by eexists _, _, _.
Qed.

Lemma info_not_partition seg tok :
  "Invalid partition [" +:+ tok +:+ "]" <> "Invalid partition info [" +:+ seg +:+ "]".
Proof. cbn. intros H. discriminate H. Qed.

(** [parseOffsetsBody] without the matcher. *)
Lemma parseOffsetsBody_tokens (result : gmap Z interval) seg :
  let t := strings.TrimSpace seg in
  parseOffsetsBody result seg
  = if all notNewline (afterColon t)
    then match parsePartition (fst (partToken t)) with
         | (p, None) =>
             (<[p := {| start_ := offsetField [t; fst (partToken t); segStart t; segEnd t] 2 (start_ defaultInterval);
                        end_ := offsetField [t; fst (partToken t); segStart t; segEnd t] 3 (end_ defaultInterval) |}]> result, None)
         | (_, Some e) => (result, Some e)
         end
    else (result, errorf "Invalid partition info " seg).
Proof.
  intros t. unfold parseOffsetsBody. fold t.
  destruct (all notNewline (afterColon t)) eqn:Hall.
  - apply segRest_empty_iff in Hall. rewrite (partitionRe_one_row t Hall).
    cbn [length Nat.ltb Nat.leb nth]. done.
  - assert (segRest t <> "") as Hrest.
    { intros H%segRest_empty_iff. congruence. }
    destruct (partitionRe_two_rows t Hrest) as (r1 & r2 & rest & ->). done.
Qed.

(** X7: one round of the loop of [parseOffsets] reports [Invalid partition info] for its segment exactly when the segment, trimmed of white space, has a line break behind its first colon. *)
Theorem parseOffsetsBody_shape_iff (result : gmap Z interval) seg :
  snd (parseOffsetsBody result seg) = errorf "Invalid partition info " seg
  <-> all notNewline (afterColon (strings.TrimSpace seg)) = false.
Proof.
  rewrite parseOffsetsBody_tokens. cbn zeta.
  destruct (all notNewline _); [|done].
  split; [|done]. unfold parsePartition.
  destruct (_ || _); [done|].
  destruct (Atoi _) as [i [?|]]; [|done].
  cbn [snd]. unfold errorf. intros H. apply (inj Some) in H.
  by apply info_not_partition in H.
Qed.

Lemma all_rev_onto p s : forall acc, all p (rev_onto s acc) = all p s && all p acc.
Proof.
  induction s as [|c s IH]; intros acc; cbn [rev_onto all]; [done|].
  rewrite IH. cbn [all]. by destruct (p c), (all p s), (all p acc).
Qed.

Lemma all_rev p s : all p (rev s) = all p s.
Proof. unfold rev. rewrite all_rev_onto. cbn [all]. by rewrite andb_true_r. Qed.

Lemma all_trimHead_bounded p fwd n : forall s,
  (String.length s <= n)%nat -> all p s = true -> all p (strings.trimHead fwd s) = true.
Proof.
  induction n as [|n IH]; intros [|c0 s1]; cbn [String.length]; try done; try lia.
  intros Hn H. pose proof H as [H0 H1]%andb_prop.
  cbn [strings.trimHead].
  destruct (strings.asciiSpace c0); [apply IH; [lia|done]|].
  destruct s1 as [|c1 s2]; [done|].
  pose proof H1 as [_ H2]%andb_prop. cbn [String.length] in Hn.
  destruct (if fwd then _ else _); [apply IH; [lia|done]|].
  destruct s2 as [|c2 s3]; [done|].
  pose proof H2 as [_ H3]%andb_prop. cbn [String.length] in Hn.
  destruct (if fwd then _ else _); [apply IH; [lia|done]|].
  done.
Qed.

Lemma all_trimHead p fwd s : all p s = true -> all p (strings.trimHead fwd s) = true.
Proof. by apply (all_trimHead_bounded p fwd (String.length s)). Qed.

Lemma all_TrimSpace p s : all p s = true -> all p (strings.TrimSpace s) = true.
Proof.
  intros H. unfold strings.TrimSpace. rewrite all_rev. apply all_trimHead.
  rewrite all_rev. by apply all_trimHead.
Qed.

Lemma all_dropWhile p q s : all p s = true -> all p (dropWhile q s) = true.
Proof.
  induction s as [|c s IH]; [done|]. cbn [dropWhile all].
  intros [Hc Hs]%andb_prop. destruct (q c); [by apply IH|].
  cbn [all]. by rewrite Hc, Hs.
Qed.

Lemma all_afterColon p s : all p s = true -> all p (afterColon s) = true.
Proof.
  intros H. unfold afterColon. pose proof (all_dropWhile p notColon s H) as Hd.
  destruct (dropWhile notColon s) as [|c r]; [done|].
  cbn [all] in Hd. by apply andb_prop in Hd as [_ ?].
Qed.

Lemma all_Split p sep s :
  all p s = true -> forall seg, seg ∈ strings.Split s sep -> all p seg = true.
Proof.
  induction s as [|c s IH]; cbn [strings.Split all].
  - intros _ seg ->%list_elem_of_singleton. done.
  - intros [Hc Hs]%andb_prop seg. destruct (Ascii.eqb c sep).
    + intros [->|Hin]%elem_of_cons; [done|by apply IH].
    + destruct (strings.Split s sep) as [|hd tl] eqn:HS.
      * intros ->%list_elem_of_singleton. cbn [all]. by rewrite Hc.
      * intros [->|Hin]%elem_of_cons.
        -- cbn [all]. rewrite Hc. apply (IH Hs). apply elem_of_cons; by left.
        -- apply (IH Hs). apply elem_of_cons; by right.
Qed.

(** An error of one round, classified. *)
Lemma parseOffsetsBody_error (result : gmap Z interval) seg m e :
  parseOffsetsBody result seg = (m, Some e) ->
  m = result
  /\ ((e = "Invalid partition info [" +:+ seg +:+ "]"
       /\ all notNewline (afterColon (strings.TrimSpace seg)) = false)
      \/ (let tok := takeWhile isDigit (strings.TrimSpace seg) in
          e = "Invalid partition [" +:+ tok +:+ "]"
          /\ maxInt64 < digitsValue tok)).
Proof.
  rewrite parseOffsetsBody_tokens. cbn zeta.
  destruct (all notNewline _) eqn:Hall.
  - unfold partToken.
    destruct (stripPrefix "all" (strings.TrimSpace seg)) eqn:Hp; cbn [fst].
    { done. }
    destruct (takeWhile isDigit (strings.TrimSpace seg)) as [|c ds] eqn:Htok.
    { done. }
    rewrite parsePartition_digits; [| done |].
    + destruct (Z.leb_spec (digitsValue (String c ds)) maxInt64); [done|].
      intros [= <- <-]. split; [done|]. right. done.
    + rewrite <- Htok. apply all_takeWhile.
  - intros [= <- <-]. split; [done|]. by left.
Qed.

Lemma parseOffsetsLoop_error segs : forall result m e,
  parseOffsetsLoop segs result = (m, Some e) ->
  exists seg, seg ∈ segs
    /\ ((e = "Invalid partition info [" +:+ seg +:+ "]"
         /\ all notNewline (afterColon (strings.TrimSpace seg)) = false)
        \/ (let tok := takeWhile isDigit (strings.TrimSpace seg) in
            e = "Invalid partition [" +:+ tok +:+ "]"
            /\ maxInt64 < digitsValue tok)).
Proof.
  induction segs as [|seg segs IH]; intros result m e; cbn [parseOffsetsLoop].
  - done.
  - destruct (parseOffsetsBody result seg) as [result' [e'|]] eqn:Hb.
    + intros [= <- <-]. exists seg. split; [apply elem_of_cons; by left|].
      by apply parseOffsetsBody_error in Hb as [_ ?].
    + intros H. destruct (IH _ _ _ H) as (seg' & Hin & He).
      exists seg'. split; [apply elem_of_cons; by right|done].
Qed.

(** X8: every error of [parseOffsets] belongs to one segment of the comma separated input and is one of two: [Invalid partition info] with that segment, whose trimmed text then has a line break behind its first colon, or [Invalid partition] with the run of digits at the head of the trimmed segment, whose value then exceeds [maxInt64]. *)
Theorem parseOffsets_errors str m e :
  parseOffsets str = (m, Some e) ->
  exists seg, seg ∈ strings.Split str ","
    /\ ((e = "Invalid partition info [" +:+ seg +:+ "]"
         /\ all notNewline (afterColon (strings.TrimSpace seg)) = false)
        \/ (let tok := takeWhile isDigit (strings.TrimSpace seg) in
            e = "Invalid partition [" +:+ tok +:+ "]"
            /\ maxInt64 < digitsValue tok)).
Proof.
  unfold parseOffsets. destruct (_ =? _)%nat; [done|].
  apply parseOffsetsLoop_error.
Qed.

Lemma parseOffsets_errors_witness :
  exists seg, seg ∈ strings.Split "1=0:5,99999999999999999999=1:2" ","
    /\ let tok := takeWhile isDigit (strings.TrimSpace seg) in
       maxInt64 < digitsValue tok.
Proof.
  destruct (parseOffsets_errors "1=0:5,99999999999999999999=1:2"
              {[ 1 := {| start_ := absolute 0; end_ := absolute 5 |} ]}
              "Invalid partition [99999999999999999999]")
    as (seg & Hin & [[He _]|[_ Hv]]).
  - vm_compute. reflexivity.
  - exfalso. cbn in He. discriminate He.
  - exists seg. split; [exact Hin|exact Hv].
Defined.

(** X9: on an input without line break the only error of [parseOffsets] is [Invalid partition], for a segment that starts with a run of digits whose value exceeds [maxInt64]. *)
Theorem parseOffsets_single_line str m e :
  all notNewline str = true ->
  parseOffsets str = (m, Some e) ->
  exists seg, seg ∈ strings.Split str ","
    /\ let tok := takeWhile isDigit (strings.TrimSpace seg) in
       e = "Invalid partition [" +:+ tok +:+ "]" /\ maxInt64 < digitsValue tok.
Proof.
  intros Hline H. unfold parseOffsets in H. destruct (_ =? _)%nat; [done|].
  apply parseOffsetsLoop_error in H as (seg & Hin & [[_ Hbad]|H]).
  - pose proof (all_Split _ _ _ Hline seg Hin) as Hseg.
    apply (all_TrimSpace notNewline) in Hseg.
    apply (all_afterColon notNewline) in Hseg. congruence.
  - by exists seg.
Qed.

Lemma parsePartition_token ptok :
  ptok = "" \/ ptok = "all"
  \/ (ptok <> "" /\ all isDigit ptok = true /\ digitsValue ptok <= maxInt64) ->
  parsePartition ptok
  = (if isEmpty ptok || String.eqb ptok "all" then -1
     else wrap32 (digitsValue ptok), None).
Proof.
  intros [-> | [-> | (Hne & Hds & Hv)]]; [done..|].
  rewrite parsePartition_digits by done.
  destruct (Z.leb_spec (digitsValue ptok) maxInt64); [|lia].
  destruct ptok as [|c ds]; [done|]. cbn [isEmpty orb].
  pose proof Hds as [Hc _]%andb_prop.
  destruct (isDigit_plain c Hc) as (_ & _ & _ & _ & Ha).
  by rewrite String_eqb_head by (by rewrite Ascii.eqb_sym).
Qed.

(** X10: [parseOffsets] hands the tokens of a segment [P=S:E] to [parseOffset]: with [P] empty, [all] or a number of [int64], and tokens [S] and [E] without comma that are empty or start and end with bytes that are no white space, the result is the one entry for the partition ([-1] for the empty [P] and for [all]) whose start and end are what [parseOffset] reads from [S] and [E]; an empty token, and one that [parseOffset] rejects, leaves the default of the field. *)
Theorem parseOffsets_segment ptok stok etok :
  ptok = "" \/ ptok = "all"
  \/ (ptok <> "" /\ all isDigit ptok = true /\ digitsValue ptok <= maxInt64) ->
  all notColon stok = true -> all notComma stok = true ->
  stok = "" \/ (headIs plain stok = true /\ lastIs plain stok = true) ->
  all notNewline etok = true -> all notComma etok = true ->
  etok = "" \/ (headIs plain etok = true /\ lastIs plain etok = true) ->
  parseOffsets (ptok +:+ "=" +:+ stok +:+ ":" +:+ etok)
  = ({[ (if isEmpty ptok || String.eqb ptok "all" then -1
         else wrap32 (digitsValue ptok))
        := {| start_ := fieldOr (start_ defaultInterval) stok;
              end_ := fieldOr (end_ defaultInterval) etok |} ]}, None).
Proof.
  intros Hp Hs Hsc Hsp He Hec Hep.
  change (ptok +:+ "=" +:+ stok +:+ ":" +:+ etok)
    with (ptok +:+ String "=" (stok +:+ String ":" etok)).
  unfold parseOffsets.
  rewrite length_nonzero by (by destruct ptok).
  rewrite Split_single; first last.
  { change (fun c => negb (Ascii.eqb c ",")) with notComma.
    rewrite all_app. cbn [all]. rewrite all_app. cbn [all].
    rewrite Hsc, Hec.
    destruct Hp as [-> | [-> | (Hne & Hds & _)]]; [done..|].
    rewrite (all_impl isDigit notComma ptok); [done| |done].
    intros c Hc. unfold notComma.
    by destruct (isDigit_plain c Hc) as (_ & _ & _ & -> & _). }
  cbn [parseOffsetsLoop].
  rewrite parseOffsetsBody_segment by (done || tauto).
  rewrite parsePartition_token by done. done.
Qed.

Lemma parseOffsets_segment_witness :
  parseOffsets "all=resume:"
  = ({[ -1 := {| start_ := fieldOr (start_ defaultInterval) "resume";
                 end_ := end_ defaultInterval |} ]}, None).
Proof.
  apply (parseOffsets_segment "all" "resume" ""); (by right; left) || (by left)
    || (by right) || reflexivity.
Defined.

Lemma wrap32_mod P Q : P mod 2 ^ 32 = Q mod 2 ^ 32 -> wrap32 P = wrap32 Q.
Proof.
  intros H. unfold wrap32. f_equal.
  rewrite (Z.add_mod P) by lia. rewrite H. by rewrite <- Z.add_mod by lia.
Qed.

Lemma wrap32_all_ones P : P mod 2 ^ 32 = 2 ^ 32 - 1 -> wrap32 P = -1.
Proof.
  intros H. rewrite (wrap32_mod P (2 ^ 32 - 1)); [done|].
  rewrite H. done.
Qed.

(** X11: the partition number of a segment is cut to 32 bits: two numbers of [int64] that agree modulo 2^32 give the same map, and a number that is 2^32 - 1 modulo 2^32 gives the key [-1] of all partitions. *)
Theorem parseOffsets_partition_truncated P Q S E :
  0 <= P <= maxInt64 -> 0 <= Q <= maxInt64 ->
  0 <= S <= maxInt64 -> 0 <= E <= maxInt64 ->
  P mod 2 ^ 32 = Q mod 2 ^ 32 ->
  parseOffsets (numericSegment P S E) = parseOffsets (numericSegment Q S E)
  /\ (P mod 2 ^ 32 = 2 ^ 32 - 1 ->
      parseOffsets (numericSegment P S E)
      = ({[ -1 := {| start_ := absolute S; end_ := absolute E |} ]}, None)).
Proof.
  intros HP HQ HS HE Hmod.
  rewrite !parseOffsets_numeric_one by done. split.
  - by rewrite (wrap32_mod P Q).
  - intros H. by rewrite wrap32_all_ones.
Qed.

Lemma parseOffsets_partition_truncated_witness :
  parseOffsets "4294967295=3:9" = parseOffsets "8589934591=3:9"
  /\ parseOffsets "4294967295=3:9"
     = ({[ -1 := {| start_ := absolute 3; end_ := absolute 9 |} ]}, None).
Proof.
  destruct (parseOffsets_partition_truncated 4294967295 8589934591 3 9)
    as [H1 H2]; [rewrite maxInt64_eq; lia..|reflexivity|].
  split; [exact H1|exact (H2 eq_refl)].
Defined.

Lemma parseOffsetsBody_success (result : gmap Z interval) seg m :
  parseOffsetsBody result seg = (m, None) -> exists p i, m = <[p := i]> result.
Proof.
  rewrite parseOffsetsBody_tokens. cbn zeta.
  destruct (all notNewline _); [|done].
  destruct (parsePartition _) as [p [e|]]; [done|].
  intros [= <-]. by eexists _, _.
Qed.

Lemma parseOffsetsLoop_nonempty segs : forall result m,
  parseOffsetsLoop segs result = (m, None) ->
  segs <> [] \/ result <> ∅ -> m <> ∅.
Proof.
  induction segs as [|seg segs IH]; intros result m; cbn [parseOffsetsLoop].
  - intros [= <-] [?|?]; done.
  - destruct (parseOffsetsBody result seg) as [result' [e|]] eqn:Hb; [done|].
    intros H _. apply (IH _ _ H). right.
    apply parseOffsetsBody_success in Hb as (p & i & ->).
    apply insert_non_empty.
Qed.

Lemma parseOffsets_success_nonempty str m :
  parseOffsets str = (m, None) -> m <> ∅.
Proof.
  unfold parseOffsets. destruct (_ =? _)%nat.
  - intros [= <-]. apply (insert_non_empty (M := gmap Z)).
  - intros H. apply (parseOffsetsLoop_nonempty _ _ _ H). left.
    apply Split_nonempty.
Qed.

(** X12: a map that [parseOffsets] returns without error is never empty. *)
Theorem parseOffsets_nonempty str m :
  parseOffsets str = (m, None) -> m <> ∅.
Proof. apply parseOffsets_success_nonempty. Qed.

(** ** More on the partition worker *)

(** [getPOM] writes [poms] and nothing else. *)
Lemma getPOM_frame p cmd pm cmd' :
  getPOM p cmd = Ret (pm, cmd') -> exists m, cmd' = withPoms m cmd.
Proof.
  unfold getPOM, bind, get, put, ret, abort.
  destruct (default ∅ (poms cmd) !! p) as [pom|].
  - intros [= _ <-]. by eexists.
  - destruct (ManagePartition _ _ _) as [pom [e|]]; [done|].
    intros [= _ <-]. by eexists.
Qed.

Lemma workerPom_frame p cmd pom cmd' :
  workerPom p cmd = Ret (pom, cmd') ->
  timeout cmd' = timeout cmd /\ encodeKey cmd' = encodeKey cmd
  /\ encodeValue cmd' = encodeValue cmd /\ group cmd' = group cmd.
Proof.
  unfold workerPom. unfold bind at 1. unfold get at 1.
  destruct (negb _).
  - unfold bind, ret. destruct (getPOM p cmd) as [[pm cmd1]|] eqn:E; [|done].
    intros [= _ <-]. by apply getPOM_frame in E as [m ->].
  - by intros [= _ <-].
Qed.

Lemma workerPom_no_group p cmd :
  group cmd = "" -> workerPom p cmd = Ret (None, cmd).
Proof. intros Hg. unfold workerPom, bind, get, ret. by rewrite Hg. Qed.

Section TraceFacts.
Variable codecs : Codecs.
Variable cmd : consumeCmd.
Variable pom : option PartitionOffsetManager.
Variable p : Z.
Variable end' : Z.


Lemma recvs_app a b : recvs (a ++ b) = recvs a ++ recvs b.
Proof. apply omap_app. Qed.
Lemma sends_app a b : sends (a ++ b) = sends a ++ sends b.
Proof. apply omap_app. Qed.
Lemma messages_app a b : messages (a ++ b) = messages a ++ messages b.
Proof. apply omap_app. Qed.

Lemma mark_silent msg :
  recvs (mark cmd pom msg) = [] /\ sends (mark cmd pom msg) = []
  /\ Forall (fun a => isClose a = false) (mark cmd pom msg)
  /\ Forall (fun a => isTimerAction a = false) (mark cmd pom msg)
  /\ forall d b, timerScan d b (mark cmd pom msg) = Some b.
Proof. unfold mark. destruct (negb _); [|by repeat constructor]. destruct pom; by repeat constructor. Qed.

Lemma loopHead_silent :
  recvs (loopHead cmd) = [] /\ sends (loopHead cmd) = []
  /\ Forall (fun a => isClose a = false) (loopHead cmd).
Proof. unfold loopHead. destruct (0 <? timeout cmd); by repeat constructor. Qed.


Lemma step_projections st ev st' acts :
  step codecs cmd pom p end' st ev = Some (st', acts) ->
  recvs acts = messages [ev]
  /\ map (emitted codecs cmd) (unsent st) ++ map (emitted codecs cmd) (recvs acts) = sends acts ++ map (emitted codecs cmd) (unsent st').
Proof.
  destruct st, ev; cbn [step]; try done.
  - destruct (0 <? timeout cmd); [|done]. by intros [= <- <-].
  - by intros [= <- <-].
  - by intros [= <- <-].
  - by intros [= <- <-].
  - by intros [= <- <-].
  - destruct (mark_silent msg) as (Hr & Hs & _).
    destruct loopHead_silent as (Hr' & Hs' & _).
    destruct (_ && _); intros [= <- <-]; cbn [messages omap list_omap];
      change (Acked :: ?l) with ([Acked] ++ l);
      rewrite !recvs_app, !sends_app, ?Hr, ?Hs, ?Hr', ?Hs'; done.
Qed.

Lemma run_recvs evs : forall st st' tr,
  run codecs cmd pom p end' st evs = Some (st', tr) ->
  recvs tr = messages evs
  /\ map (emitted codecs cmd) (unsent st) ++ map (emitted codecs cmd) (recvs tr) = sends tr ++ map (emitted codecs cmd) (unsent st').
Proof.
  induction evs as [|ev evs IH]; intros st st' tr; cbn [run].
  - intros [= <- <-]. cbn. by rewrite app_nil_r.
  - destruct (step codecs cmd pom p end' st ev) as [[st1 acts1]|] eqn:Hs; [|done].
    destruct (run codecs cmd pom p end' st1 evs) as [[st2 acts2]|] eqn:Hr; [|done].
    intros [= <- <-].
    destruct (step_projections _ _ _ _ Hs) as [H1 H2].
    destruct (IH _ _ _ Hr) as [H3 H4].
    rewrite recvs_app, sends_app, map_app. split.
    + rewrite H1, H3. by rewrite <- messages_app.
    + rewrite app_assoc, H2, <- !app_assoc. by rewrite H4.
Qed.

Lemma closedOnce_step st tr ev st' acts :
  closedOnce p st tr -> step codecs cmd pom p end' st ev = Some (st', acts) ->
  closedOnce p st' (tr ++ acts).
Proof.
  intros HI Hs.
  destruct st, ev; cbn [step] in Hs; try done; cbn [closedOnce] in HI.
  - destruct (0 <? timeout cmd); [|done]. injection Hs as <- <-.
    eexists (tr ++ [_]). rewrite <- app_assoc. split; [done|].
    apply Forall_app. split; [done|]. by repeat constructor.
  - injection Hs as <- <-. eexists (tr ++ [_]). rewrite <- app_assoc.
    split; [done|]. apply Forall_app. split; [done|]. by repeat constructor.
  - injection Hs as <- <-. eexists (tr ++ [_]). rewrite <- app_assoc.
    split; [done|]. apply Forall_app. split; [done|]. by repeat constructor.
  - injection Hs as <- <-. apply Forall_app. split; [done|]. by repeat constructor.
  - injection Hs as <- <-. apply Forall_app. split; [done|]. by repeat constructor.
  - destruct (mark_silent msg) as (_ & _ & Hm & _).
    destruct loopHead_silent as (_ & _ & Hl).
    destruct (_ && _); injection Hs as <- <-.
    + exists (tr ++ Acked :: mark cmd pom msg). split.
      * by rewrite <- app_assoc.
      * apply Forall_app. split; [done|]. by constructor.
    + apply Forall_app. split; [done|]. constructor; [done|].
      by apply Forall_app.
Qed.

(** The timer of a worker with a timeout. *)
Lemma timerScan_app d tr1 : forall b tr2,
  timerScan d b (tr1 ++ tr2)
  = match timerScan d b tr1 with
    | Some b' => timerScan d b' tr2
    | None => None
    end.
Proof.
  induction tr1 as [|a tr1 IH]; intros b tr2; [done|].
  destruct a; cbn [app timerScan]; try apply IH.
  - destruct (d0 =? d); [apply IH|done].
  - destruct b; [apply IH|done].
Qed.

Lemma timerInv_step st tr ev st' acts :
  0 < timeout cmd ->
  timerInv cmd st tr -> step codecs cmd pom p end' st ev = Some (st', acts) ->
  timerInv cmd st' (tr ++ acts).
Proof.
  intros Ht (b & Hb & Hsel) Hs. unfold timerInv. rewrite timerScan_app, Hb.
  destruct st, ev; cbn [step] in Hs; try done.
  - destruct (0 <? timeout cmd); [|done]. injection Hs as <- <-. by exists b.
  - injection Hs as <- <-. by exists b.
  - injection Hs as <- <-. by exists b.
  - injection Hs as <- <-. rewrite (Hsel eq_refl). by exists false.
  - injection Hs as <- <-. by exists b.
  - destruct (mark_silent msg) as (_ & _ & _ & _ & Hm).
    destruct (_ && _); injection Hs as <- <-.
    + exists b. cbn [timerScan]. rewrite timerScan_app, Hm. done.
    + exists true. cbn [timerScan]. rewrite timerScan_app, Hm.
      unfold loopHead. destruct (Z.ltb_spec 0 (timeout cmd)); [|lia].
      cbn [timerScan]. by rewrite Z.eqb_refl.
Qed.

Lemma untimed_step st ev st' acts :
  timeout cmd <= 0 ->
  step codecs cmd pom p end' st ev = Some (st', acts) ->
  ev <> TimerFired /\ Forall (fun a => isTimerAction a = false) acts.
Proof.
  intros Ht Hs. assert ((0 <? timeout cmd) = false) as Hlt by (apply Z.ltb_ge; lia).
  destruct st, ev; cbn [step] in Hs; try done.
  - by rewrite Hlt in Hs.
  - injection Hs as <- <-. split; [done|]. by repeat constructor.
  - injection Hs as <- <-. split; [done|]. by repeat constructor.
  - injection Hs as <- <-. split; [done|]. by repeat constructor.
  - injection Hs as <- <-. split; [done|]. by repeat constructor.
  - destruct (mark_silent msg) as (_ & _ & _ & Hm & _).
    split; [done|]. destruct (_ && _); injection Hs as <- <-.
    + constructor; [done|]. apply Forall_app. split; [done|]. by repeat constructor.
    + constructor; [done|]. apply Forall_app. split; [done|].
      unfold loopHead. rewrite Hlt. constructor.
Qed.

Lemma untimed_run evs : forall st st' tr,
  timeout cmd <= 0 ->
  run codecs cmd pom p end' st evs = Some (st', tr) ->
  (TimerFired ∉ evs) /\ Forall (fun a => isTimerAction a = false) tr.
Proof.
  induction evs as [|ev evs IH]; intros st st' tr Ht; cbn [run].
  - intros [= <- <-]. split; [apply not_elem_of_nil|constructor].
  - destruct (step codecs cmd pom p end' st ev) as [[st1 acts1]|] eqn:Hs; [|done].
    destruct (run codecs cmd pom p end' st1 evs) as [[st2 acts2]|] eqn:Hr; [|done].
    intros [= <- <-].
    destruct (untimed_step _ _ _ _ Ht Hs) as [H1 H2].
    destruct (IH _ _ _ Ht Hr) as [H3 H4]. split.
    + intros [?|?]%elem_of_cons; [done|]. done.
    + by apply Forall_app.
Qed.



End TraceFacts.

Lemma emitted_frame codecs cmd cmd' :
  encodeKey cmd' = encodeKey cmd -> encodeValue cmd' = encodeValue cmd ->
  emitted codecs cmd' = emitted codecs cmd.
Proof. intros Hk Hv. unfold emitted. by rewrite Hk, Hv. Qed.

(** The traces of [partitionLoop] are those of [run] behind the head of
    the loop. *)
Lemma partitionLoop_trace codecs p end' evs cmd st tr cmd' :
  partitionLoop codecs p end' evs cmd = Ret (Some (st, tr), cmd') ->
  exists pom acts,
    workerPom p cmd = Ret (pom, cmd')
    /\ run codecs cmd' pom p end' Selecting evs = Some (st, acts)
    /\ tr = loopHead cmd' ++ acts.
Proof.
  intros (pom & Hpom & Hr)%partitionLoop_inv.
  destruct (run codecs cmd' pom p end' Selecting evs) as [[st1 acts]|] eqn:Hrun;
    [|done].
  injection Hr as -> ->. by exists pom, acts.
Qed.

(** X13: the records go through the worker in the order of arrival, none lost and none twice: the records it has fetched are the records that the fetch stream delivered, in their order, and the records handed to the sequencer are these records encoded with the key and value encodings of the command, but for the one record that is fetched and not yet handed over. *)
Theorem partitionLoop_pipeline codecs p end' evs cmd st tr cmd' :
  partitionLoop codecs p end' evs cmd = Ret (Some (st, tr), cmd') ->
  recvs tr = messages evs
  /\ sends tr ++ map (emitted codecs cmd) (unsent st)
     = map (emitted codecs cmd) (messages evs).
Proof.
  intros (pom & acts & Hpom & Hrun & ->)%partitionLoop_trace.
  destruct (workerPom_frame _ _ _ _ Hpom) as (_ & Hk & Hv & _).
  destruct (run_recvs codecs cmd' pom p end' evs _ _ _ Hrun) as [H1 H2].
  destruct (loopHead_silent cmd') as (Hr & Hs & _).
  rewrite recvs_app, sends_app, Hr, Hs. cbn [app]. split; [done|].
  rewrite <- (emitted_frame codecs cmd cmd' Hk Hv). rewrite <- H2.
  cbn [unsent map app]. by rewrite H1.
Qed.

Lemma partitionLoop_pipeline_witness :
  let evs := served [record 3; record 4] ++ [Message (record 5)] in
  exists tr,
    partitionLoop plainCodecs 0 0 evs (testCmd "" "" 0 0)
    = Ret (Some (Sending (record 5), tr), testCmd "" "" 0 0)
    /\ recvs tr = [record 3; record 4; record 5]
    /\ sends tr = [printed 3; printed 4].
Proof.
  intros evs.
  destruct (partitionLoop plainCodecs 0 0 evs (testCmd "" "" 0 0))
    as [[[[st tr]|] cmd']|] eqn:H; try discriminate H.
  assert (st = Sending (record 5) /\ cmd' = testCmd "" "" 0 0) as [-> ->].
  { vm_compute in H. injection H as <- _. done. }
  exists tr. split; [reflexivity|].
  destruct (partitionLoop_pipeline _ _ _ _ _ _ _ _ H) as [H1 H2].
  split; [exact H1|].
  apply (app_inv_tail [emitted plainCodecs (testCmd "" "" 0 0) (record 5)]).
  exact H2.
Defined.

Lemma step_no_marks codecs cmd p end' st ev st' acts :
  group cmd = "" ->
  step codecs cmd None p end' st ev = Some (st', acts) ->
  Forall (fun a => isMark a = false) acts.
Proof.
  intros Hg Hs. destruct st, ev; cbn [step] in Hs; try done.
  - destruct (0 <? timeout cmd); [|done]. injection Hs as <- <-. by repeat constructor.
  - injection Hs as <- <-. by repeat constructor.
  - injection Hs as <- <-. by repeat constructor.
  - injection Hs as <- <-. by repeat constructor.
  - injection Hs as <- <-. by repeat constructor.
  - unfold mark, loopHead, logClose in Hs.
    destruct (negb _), (_ && _), (0 <? timeout cmd); injection Hs as <- <-;
      by repeat constructor.
Qed.

(** X14: a worker without group never fails fatally, leaves the command as it is and marks no offset. *)
Theorem partitionLoop_no_group codecs p end' evs cmd :
  group cmd = "" ->
  exists r, partitionLoop codecs p end' evs cmd = Ret (r, cmd)
    /\ forall st tr, r = Some (st, tr) -> Forall (fun a => isMark a = false) tr.
Proof.
  intros Hg. rewrite (partitionLoop_run _ _ _ _ _ _ _ (workerPom_no_group p cmd Hg)).
  eexists. split; [done|]. intros st tr.
  destruct (run codecs cmd None p end' Selecting evs) as [[st1 acts]|] eqn:Hrun;
    [|done].
  intros [= -> <-].
  apply (run_invariant codecs cmd None p end'
           (fun _ tr => Forall (fun a => isMark a = false) tr))
    with (evs := evs) (st := Selecting) (st' := st); [| |done].
  - intros st0 tr0 ev st' acts0 HI Hs. apply Forall_app. split; [done|].
    by eapply step_no_marks.
  - unfold loopHead. destruct (0 <? timeout cmd); by repeat constructor.
Qed.

Lemma partitionLoop_no_group_witness :
  exists tr,
    partitionLoop plainCodecs 0 0 (served [record 3; record 4]) (testCmd "" "" 0 0)
    = Ret (Some (Selecting, tr), testCmd "" "" 0 0)
    /\ Forall (fun a => isMark a = false) tr.
Proof.
  destruct (partitionLoop_no_group plainCodecs 0 0 (served [record 3; record 4])
              (testCmd "" "" 0 0) eq_refl) as (r & Hr & Hm).
  assert (exists tr, r = Some (Selecting, tr)) as [tr ->].
  { vm_compute in Hr. injection Hr as <-. by eexists. }
  exists tr. split; [exact Hr|]. by apply (Hm Selecting).
Defined.

(** X15: a worker that has returned has closed its fetch stream once, as its last action, and takes no further event; a worker that has not returned has not closed it. *)
Theorem partitionLoop_closes_once codecs p end' evs cmd st tr cmd' :
  partitionLoop codecs p end' evs cmd = Ret (Some (st, tr), cmd') ->
  (st = Exited ->
     (exists tr0, tr = tr0 ++ [ClosePartitionConsumer p]
                  /\ Forall (fun a => isClose a = false) tr0)
     /\ forall ev, partitionLoop codecs p end' (evs ++ [ev]) cmd = Ret (None, cmd'))
  /\ (st <> Exited -> Forall (fun a => isClose a = false) tr).
Proof.
  intros (pom & acts & Hpom & Hrun & ->)%partitionLoop_trace.
  assert (closedOnce p st (loopHead cmd' ++ acts)) as Hc.
  { apply (run_invariant codecs cmd' pom p end' (closedOnce p))
      with (evs := evs) (st := Selecting); [| |done].
    - intros. by eapply closedOnce_step.
    - apply loopHead_silent. }
  split.
  - intros ->. split; [exact Hc|]. intros ev.
    rewrite (partitionLoop_run _ _ _ _ _ _ _ Hpom), run_app, Hrun.
    by rewrite run_Exited.
  - intros Hne. by destruct st.
Qed.

Lemma partitionLoop_closes_once_witness :
  let evs := served [record 3] ++ [ConsumerError "lost"] in
  partitionLoop plainCodecs 0 0 evs (testCmd "" "" 0 0)
  = Ret (Some (Exited,
               [Recv (record 3); Send (printed 3); Acked;
                Log (LogConsumerErr 0 "lost"); ClosePartitionConsumer 0]),
         testCmd "" "" 0 0)
  /\ partitionLoop plainCodecs 0 0 (evs ++ [Message (record 4)]) (testCmd "" "" 0 0)
     = Ret (None, testCmd "" "" 0 0).
Proof.
  intros evs.
  assert (partitionLoop plainCodecs 0 0 evs (testCmd "" "" 0 0)
          = Ret (Some (Exited,
               [Recv (record 3); Send (printed 3); Acked;
                Log (LogConsumerErr 0 "lost"); ClosePartitionConsumer 0]),
               testCmd "" "" 0 0)) as H by reflexivity.
  split; [exact H|].
  destruct (partitionLoop_closes_once _ _ _ _ _ _ _ _ H) as [Hex _].
  destruct (Hex eq_refl) as [_ Hno]. apply Hno.
Defined.



(** X17: without a timeout (a timeout of 0 or less) the worker never arms a timer, never takes a timeout event and never logs one; with a timeout the timer is armed anew before every fetch and whenever the worker waits in its [select]. *)
Theorem partitionLoop_timer codecs p end' evs cmd st tr cmd' :
  partitionLoop codecs p end' evs cmd = Ret (Some (st, tr), cmd') ->
  (timeout cmd <= 0 ->
     (TimerFired ∉ evs) /\ Forall (fun a => isTimerAction a = false) tr)
  /\ (0 < timeout cmd ->
      exists armed, timerScan (timeout cmd) false tr = Some armed
                    /\ (st = Selecting -> armed = true)).
Proof.
  intros (pom & acts & Hpom & Hrun & ->)%partitionLoop_trace.
  destruct (workerPom_frame _ _ _ _ Hpom) as (Ht & _).
  rewrite <- Ht. split.
  - intros Hle.
    destruct (untimed_run codecs cmd' pom p end' evs _ _ _ Hle Hrun) as [H1 H2].
    split; [done|]. apply Forall_app. split; [|done].
    unfold loopHead. destruct (Z.ltb_spec 0 (timeout cmd')); [lia|constructor].
  - intros Hlt.
    apply (run_invariant codecs cmd' pom p end' (timerInv cmd'))
      with (evs := evs) (st := Selecting); [| |done].
    + intros. by eapply timerInv_step.
    + exists true. unfold loopHead.
      destruct (Z.ltb_spec 0 (timeout cmd')); [|lia].
      cbn [timerScan]. by rewrite Z.eqb_refl.
Qed.

Lemma partitionLoop_timer_witness :
  (exists tr,
     partitionLoop plainCodecs 0 0 (served [record 3]) (timedCmd 30 "" "" 0 0)
     = Ret (Some (Selecting, tr), timedCmd 30 "" "" 0 0)
     /\ timerScan 30 false tr = Some true)
  /\ (exists tr,
        partitionLoop plainCodecs 0 0 (served [record 3]) (testCmd "" "" 0 0)
        = Ret (Some (Selecting, tr), testCmd "" "" 0 0)
        /\ Forall (fun a => isTimerAction a = false) tr).
Proof.
  split.
  - epose proof (partitionLoop_timer plainCodecs 0 0 (served [record 3])
                   (timedCmd 30 "" "" 0 0) Selecting _ (timedCmd 30 "" "" 0 0)
                   eq_refl) as [_ H].
    destruct (H ltac:(cbn; lia)) as (b & Hb & Hsel).
    rewrite (Hsel eq_refl) in Hb.
    eexists. split; [reflexivity|exact Hb].
  - epose proof (partitionLoop_timer plainCodecs 0 0 (served [record 3])
                   (testCmd "" "" 0 0) Selecting _ (testCmd "" "" 0 0) eq_refl)
      as [H _].
    destruct (H ltac:(cbn; lia)) as [_ Hf].
    eexists. split; [reflexivity|exact Hf].
Defined.

(** ** getPOM *)

Lemma getPOM_cached p cmd m pm :
  poms cmd = Some m -> m !! p = Some pm -> getPOM p cmd = Ret (pm, withPoms m cmd).
Proof.
  intros Hp Hm. unfold getPOM, bind, get, put, ret. rewrite Hp.
  change (default ∅ (Some m)) with m. by rewrite Hm.
Qed.

Lemma getPOM_result p cmd pm cmd1 :
  getPOM p cmd = Ret (pm, cmd1) ->
  exists m, cmd1 = withPoms m cmd /\ m !! p = Some pm
    /\ (forall q, q <> p -> m !! q = default ∅ (poms cmd) !! q)
    /\ (forall pm', default ∅ (poms cmd) !! p = Some pm' -> pm' = pm).
Proof.
  unfold getPOM, bind, get, put, ret, abort.
  destruct (default ∅ (poms cmd) !! p) as [pom|] eqn:Hl.
  - intros [= <- <-]. exists (default ∅ (poms cmd)).
    split; [done|]. split; [done|]. split; [done|]. by intros ? [= <-].
  - destruct (ManagePartition _ _ _) as [pom [e|]]; [done|].
    intros [= <- <-]. exists (<[p := pom]> (default ∅ (poms cmd))).
    split; [done|]. split; [by rewrite lookup_insert_eq|].
    split; [|done]. intros q Hq. by rewrite lookup_insert_ne.
Qed.

Lemma getPOM_stable p cmd pm cmd1 :
  getPOM p cmd = Ret (pm, cmd1) ->
  getPOM p cmd1 = Ret (pm, cmd1)
  /\ (forall q pm', default ∅ (poms cmd) !! q = Some pm' ->
        getPOM q cmd1 = Ret (pm', cmd1))
  /\ topic cmd1 = topic cmd /\ offsets cmd1 = offsets cmd
  /\ group cmd1 = group cmd /\ timeout cmd1 = timeout cmd.
Proof.
  intros (m & -> & Hp & Hother & Hsame)%getPOM_result.
  split; [by apply (getPOM_cached p (withPoms m cmd) m)|].
  split; [|done]. intros q pm' Hq.
  apply (getPOM_cached q (withPoms m cmd) m); [done|].
  destruct (decide (q = p)) as [->|Hne].
  - by rewrite (Hsame _ Hq).
  - by rewrite Hother.
Qed.

(** X18: [getPOM] creates the offset manager of a partition once: behind a call that returned, the same call returns the same manager and changes nothing, the managers stored before are still returned, and topic, offsets, group and timeout of the command are untouched. *)
Theorem getPOM_caches p cmd pm cmd1 :
  getPOM p cmd = Ret (pm, cmd1) ->
  getPOM p cmd1 = Ret (pm, cmd1)
  /\ (forall q pm', default ∅ (poms cmd) !! q = Some pm' ->
        getPOM q cmd1 = Ret (pm', cmd1))
  /\ topic cmd1 = topic cmd /\ offsets cmd1 = offsets cmd
  /\ group cmd1 = group cmd /\ timeout cmd1 = timeout cmd.
Proof. apply getPOM_stable. Qed.

Lemma getPOM_caches_witness :
  let pm := {| pomPartition := 1; NextOffset := (42, "") |} in
  let cmd1 := withPoms {[ 1 := pm ]} (testCmd "" "g" 0 42) in
  getPOM 1 (testCmd "" "g" 0 42) = Ret (pm, cmd1)
  /\ getPOM 1 cmd1 = Ret (pm, cmd1).
Proof.
  intros pm cmd1.
  assert (getPOM 1 (testCmd "" "g" 0 42) = Ret (pm, cmd1)) as H by reflexivity.
  split; [exact H|]. by destruct (getPOM_caches _ _ _ _ H) as [H1 _].
Defined.

(** ** resolveOffset *)

Lemma resolveOffset_cases o p cmd :
  resolveOffset o p cmd
  = if negb (relative o) then Ret ((start o, None), cmd)
    else if (start o =? OffsetNewest) || (start o =? OffsetOldest) then
      match GetOffset (client cmd) (topic cmd) p (start o) with
      | (_, Some e) => Ret ((0, Some e), cmd)
      | (res, None) =>
          Ret ((add64 (if start o =? OffsetNewest then sub64 res 1 else res)
                  (diff o), None), cmd)
      end
    else if start o =? offsetResume then
      if String.eqb (group cmd) ""
      then Ret ((0, Some "cannot resume without -group argument"), cmd)
      else match getPOM p cmd with
           | Ret (pm, cmd1) => Ret ((fst (NextOffset pm), None), cmd1)
           | Fatal msg => Fatal msg
           end
    else Ret ((add64 (start o) (diff o), None), cmd).
Proof.
  unfold resolveOffset. destruct (negb (relative o)); [done|].
  unfold bind at 1. unfold get at 1.
  destruct (_ || _).
  - by destruct (GetOffset _ _ _ _) as [res [e|]].
  - destruct (start o =? offsetResume); [|done].
    destruct (String.eqb _ _); [done|].
    unfold bind, ret. destruct (getPOM p cmd) as [[pm cmd1]|]; [|done].
    by destruct (NextOffset pm).
Qed.

(** X19: how [resolveOffset] fails.  It ends the process exactly when a relative [resume] offset is resolved with a group and [getPOM] ends the process; it returns an error exactly for a relative offset at [newest] or [oldest] for which [GetOffset] reports that error, and for [resume] without a group, then with the value 0 and the command unchanged; for an absolute offset, for a start other than [resume] and without a group it returns with the command unchanged. *)
Theorem resolveOffset_failures o p cmd :
  (forall msg, resolveOffset o p cmd = Fatal msg <->
     relative o = true /\ start o = offsetResume /\ group cmd <> ""
     /\ getPOM p cmd = Fatal msg)
  /\ (forall v e cmd', resolveOffset o p cmd = Ret ((v, Some e), cmd') <->
        v = 0 /\ cmd' = cmd /\ relative o = true
        /\ (((start o = OffsetNewest \/ start o = OffsetOldest)
             /\ snd (GetOffset (client cmd) (topic cmd) p (start o)) = Some e)
            \/ (start o = offsetResume /\ group cmd = ""
                /\ e = "cannot resume without -group argument")))
  /\ (relative o = false \/ start o <> offsetResume \/ group cmd = "" ->
      exists r, resolveOffset o p cmd = Ret (r, cmd)).
Proof.
  rewrite resolveOffset_cases.
  destruct (relative o) eqn:Hrel; cbn [negb].
  2:{ split; [|split].
      - intros msg. split; [done|]. by intros (? & _).
      - intros v e cmd'. split; [done|]. by intros (_ & _ & ? & _).
      - intros _. by eexists. }
  destruct (Z.eqb_spec (start o) OffsetNewest) as [Hn|Hn];
    [|destruct (Z.eqb_spec (start o) OffsetOldest) as [Ho|Ho]]; cbn [orb].
  - assert (start o <> offsetResume) as Hr by (rewrite Hn; done).
    destruct (GetOffset _ _ _ _) as [res [e0|]] eqn:HG; cbn [snd].
    + split; [|split].
      * intros msg. split; [done|]. by intros (_ & ? & _).
      * intros v e cmd'. split.
        -- intros [= <- <- <-]. repeat split; try done. left. by split; [left|].
        -- intros (-> & -> & _ & [[_ [= ->]]|[? _]]); done.
      * intros _. by eexists.
    + split; [|split].
      * intros msg. split; [done|]. by intros (_ & ? & _).
      * intros v e cmd'. split; [done|].
        intros (_ & _ & _ & [[_ ?]|[? _]]); done.
      * intros _. by eexists.
  - assert (start o <> offsetResume) as Hr by (rewrite Ho; done).
    destruct (GetOffset _ _ _ _) as [res [e0|]] eqn:HG; cbn [snd].
    + split; [|split].
      * intros msg. split; [done|]. by intros (_ & ? & _).
      * intros v e cmd'. split.
        -- intros [= <- <- <-]. repeat split; try done. left. by split; [right|].
        -- intros (-> & -> & _ & [[_ [= ->]]|[? _]]); done.
      * intros _. by eexists.
    + split; [|split].
      * intros msg. split; [done|]. by intros (_ & ? & _).
      * intros v e cmd'. split; [done|].
        intros (_ & _ & _ & [[_ ?]|[? _]]); done.
      * intros _. by eexists.
  - destruct (Z.eqb_spec (start o) offsetResume) as [Hr|Hr].
    + destruct (String.eqb_spec (group cmd) "") as [Hg|Hg].
      * split; [|split].
        -- intros msg. split; [done|]. by intros (_ & _ & ? & _).
        -- intros v e cmd'. split.
           ++ intros [= <- <- <-]. repeat split; try done. by right.
           ++ intros (-> & -> & _ & [[[?|?] _]|(_ & _ & ->)]); done.
        -- intros _. by eexists.
      * destruct (getPOM p cmd) as [[pm cmd1]|msg0] eqn:HP.
        -- split; [|split].
           ++ intros msg. split; [done|]. by intros (_ & _ & _ & ?).
           ++ intros v e cmd'. split; [done|].
              intros (_ & _ & _ & [[[?|?] _]|(_ & ? & _)]); done.
           ++ intros [?|[?|?]]; done.
        -- split; [|split].
           ++ intros msg. split.
              ** intros [= ->]. done.
              ** by intros (_ & _ & _ & [= ->]).
           ++ intros v e cmd'. split; [done|].
              intros (_ & _ & _ & [[[?|?] _]|(_ & ? & _)]); done.
           ++ intros [?|[?|?]]; done.
    + split; [|split].
      * intros msg. split; [done|]. by intros (_ & ? & _).
      * intros v e cmd'. split; [done|].
        intros (_ & _ & _ & [[[?|?] _]|(? & _)]); done.
      * intros _. by eexists.
Qed.

(** ** From the token to the offset *)

Lemma parseOffset_decimal N :
  0 <= N <= maxInt64 -> parseOffset (decimal N) = (absolute N, None).
Proof.
  intros HN. destruct (decimal_spec N HN) as (Hne & Hds & Hv).
  rewrite <- (append_nil_r (decimal N)).
  rewrite parseOffset_head_digits by (done || lia). by rewrite Hv.
Qed.

(** X20: from the token to the offset, with boundaries [Bo] of [oldest] and [Bn] of [newest] reported by the broker: the decimal [N] resolves to [N]; [+N] to [Bo + N]; [-N] to [Bn - 1 - N]; [oldest] to [Bo]; [newest] to [Bn - 1], in [int64] arithmetic and with the command unchanged. *)
Theorem resolveOffset_of_token cmd p N Bo Bn :
  0 <= N <= maxInt64 ->
  GetOffset (client cmd) (topic cmd) p OffsetOldest = (Bo, None) ->
  GetOffset (client cmd) (topic cmd) p OffsetNewest = (Bn, None) ->
  let resolve tok := resolveOffset (fst (parseOffset tok)) p cmd in
  resolve (decimal N) = Ret ((N, None), cmd)
  /\ resolve ("+" +:+ decimal N) = Ret ((add64 Bo N, None), cmd)
  /\ resolve ("-" +:+ decimal N) = Ret ((add64 (sub64 Bn 1) (- N), None), cmd)
  /\ resolve "oldest" = Ret ((add64 Bo 0, None), cmd)
  /\ resolve "newest" = Ret ((add64 (sub64 Bn 1) 0, None), cmd).
Proof.
  intros HN Ho Hn resolve. subst resolve. cbv beta.
  destruct (decimal_spec N HN) as (Hne & Hds & Hv).
  destruct (parseOffset_signed_digits (decimal N) Hne Hds ltac:(lia))
    as (Hplus & _ & Hminus & _).
  rewrite parseOffset_decimal by done.
  change ("+" +:+ decimal N) with (String "+" (decimal N)).
  change ("-" +:+ decimal N) with (String "-" (decimal N)).
  rewrite Hplus, Hminus, Hv.
  change (parseOffset "oldest")
    with ({| relative := true; start := OffsetOldest; diff := 0 |}, @None string).
  change (parseOffset "newest")
    with ({| relative := true; start := OffsetNewest; diff := 0 |}, @None string).
  cbn [fst]. rewrite !resolveOffset_cases. cbn [relative start diff negb absolute].
  change (OffsetOldest =? OffsetNewest) with false.
  change (OffsetNewest =? OffsetNewest) with true.
  change (OffsetOldest =? OffsetOldest) with true.
  cbn [orb]. by rewrite Ho, Hn.
Qed.

Lemma resolveOffset_of_token_witness :
  let cmd := testCmd "" "" 100 0 in
  resolveOffset (fst (parseOffset "7")) 0 cmd = Ret ((7, None), cmd)
  /\ resolveOffset (fst (parseOffset "+7")) 0 cmd = Ret ((107, None), cmd)
  /\ resolveOffset (fst (parseOffset "-7")) 0 cmd = Ret ((92, None), cmd).
Proof.
  intros cmd.
  destruct (resolveOffset_of_token cmd 0 7 100 100) as (H1 & H2 & H3 & _);
    [rewrite maxInt64_eq; lia|reflexivity|reflexivity|].
  split; [exact H1|]. split; [exact H2|exact H3].
Defined.

(** ** findPartitions *)

(** X21: [findPartitions] leaves the command unchanged, and every partition it selects has an interval in the offsets of the command, its own or that of the key [-1], which is the interval [consumePartition] looks up: the zero interval is never used for a selected partition. *)
Theorem findPartitions_covered cmd ps cmd' :
  findPartitions cmd = Ret (ps, cmd') ->
  cmd' = cmd
  /\ forall p, p ∈ ps ->
       offsets cmd !! p = Some (lookupInterval (offsets cmd) p)
       \/ (offsets cmd !! p = None
           /\ offsets cmd !! (-1) = Some (lookupInterval (offsets cmd) p)).
Proof.
  unfold findPartitions, bind, get, ret, abort.
  destruct (Partitions _ _) as [all [e|]]; [done|].
  unfold lookupInterval.
  destruct (offsets cmd !! (-1)) as [d|] eqn:Hd; cbn [notNil].
  - intros [= <- <-]. split; [done|]. intros p _.
    destruct (offsets cmd !! p); [by left|by right].
  - intros [= <- <-]. split; [done|]. intros p.
    rewrite findPartitionsLoop_filter. intros [[i Hi] _]%list_elem_of_filter.
    left. by rewrite Hi.
Qed.

Lemma findPartitions_covered_witness :
  findPartitions (testCmd "1=5:9" "" 0 0) = Ret ([1], testCmd "1=5:9" "" 0 0)
  /\ offsets (testCmd "1=5:9" "" 0 0) !! 1
     = Some (lookupInterval (offsets (testCmd "1=5:9" "" 0 0)) 1).
Proof.
  assert (findPartitions (testCmd "1=5:9" "" 0 0)
          = Ret ([1], testCmd "1=5:9" "" 0 0)) as H by reflexivity.
  split; [exact H|].
  destruct (findPartitions_covered _ _ _ H) as [_ Hc].
  destruct (Hc 1) as [Hl|[Hn _]].
  - apply elem_of_cons. by left.
  - exact Hl.
  - discriminate Hn.
Defined.

(** X22: the ranges decide the partitions: with the offsets of the empty specification [findPartitions] returns all partitions of the topic, and with those of the specification [P=S:E], [P] below 2^31, the partitions equal to [P]. *)
Theorem findPartitions_of_spec cmd all P S E :
  Partitions (consumer cmd) (topic cmd) = (all, None) ->
  (offsets cmd = fst (parseOffsets "") -> findPartitions cmd = Ret (all, cmd))
  /\ (0 <= P < 2 ^ 31 -> 0 <= S <= maxInt64 -> 0 <= E <= maxInt64 ->
      offsets cmd = fst (parseOffsets (numericSegment P S E)) ->
      findPartitions cmd = Ret (filter (fun q => q = P) all, cmd)).
Proof.
  intros Hall. unfold findPartitions, bind, get, ret. rewrite Hall. split.
  - intros ->. done.
  - intros HP HS HE ->.
    destruct (int32_int64 P HP) as [HP64 HP32].
    rewrite parseOffsets_numeric_one by done.
    rewrite wrap32_small by done. cbn [fst].
    rewrite lookup_singleton_ne by lia. cbn [notNil].
    rewrite findPartitionsLoop_filter. do 2 f_equal.
    apply list_filter_iff. intros q. split.
    + intros [i Hi]. by apply lookup_singleton_Some in Hi as [-> _].
    + intros ->. rewrite lookup_singleton_eq. by eexists.
Qed.

Lemma findPartitions_of_spec_witness :
  findPartitions (testCmd "" "" 0 0) = Ret ([0; 1; 2], testCmd "" "" 0 0)
  /\ findPartitions (testCmd "2=5:9" "" 0 0) = Ret ([2], testCmd "2=5:9" "" 0 0).
Proof.
  split.
  - destruct (findPartitions_of_spec (testCmd "" "" 0 0) [0; 1; 2] 0 0 0 eq_refl)
      as [H _]. by apply H.
  - destruct (findPartitions_of_spec (testCmd "2=5:9" "" 0 0) [0; 1; 2] 2 5 9 eq_refl)
      as [_ H]. apply H; rewrite ?maxInt64_eq; (lia || reflexivity).
Defined.

(** ** consumePartition *)

Lemma consumePartition_cases codecs partition evs cmd :
  consumePartition codecs partition evs cmd
  = let i := lookupInterval (offsets cmd) partition in
    match resolveOffset (start_ i) partition cmd with
    | Fatal msg => Fatal msg
    | Ret ((_, Some err), cmd1) =>
        Ret (Some (Exited, [Log (LogStartOffset partition err)]), cmd1)
    | Ret ((s, None), cmd1) =>
        match resolveOffset (end_ i) partition cmd1 with
        | Fatal msg => Fatal msg
        | Ret ((_, Some err), cmd2) =>
            Ret (Some (Exited, [Log (LogEndOffset partition err)]), cmd2)
        | Ret ((e, None), cmd2) =>
            match ConsumePartition (consumer cmd) (topic cmd) partition s with
            | Some err => Ret (Some (Exited, [Log (LogConsume partition err)]), cmd2)
            | None => partitionLoop codecs partition e evs cmd2
            end
        end
    end.
Proof.
  unfold consumePartition. unfold bind at 1. unfold get at 1. cbv zeta.
  unfold bind at 1.
  destruct (resolveOffset _ _ cmd) as [[[s [err|]] cmd1]|]; [done| |done].
  unfold bind at 1.
  destruct (resolveOffset _ _ cmd1) as [[[e [err|]] cmd2]|]; [done| |done].
  by destruct (ConsumePartition _ _ _ _).
Qed.

(** X23: with the offsets of a numeric specification [P=S:E] the worker of partition [P] asks the broker for no boundary: it opens the fetch stream at [S] and runs the loop with the end bound [E], or logs the error of opening the stream and returns. *)
Theorem consumePartition_numeric codecs cmd P S E evs :
  0 <= P < 2 ^ 31 -> 0 <= S <= maxInt64 -> 0 <= E <= maxInt64 ->
  offsets cmd = fst (parseOffsets (numericSegment P S E)) ->
  consumePartition codecs P evs cmd
  = match ConsumePartition (consumer cmd) (topic cmd) P S with
    | Some err => Ret (Some (Exited, [Log (LogConsume P err)]), cmd)
    | None => partitionLoop codecs P E evs cmd
    end.
Proof.
  intros HP HS HE Hoff. rewrite consumePartition_cases, Hoff.
  destruct (int32_int64 P HP) as [HP64 HP32].
  rewrite parseOffsets_numeric_one by done.
  rewrite wrap32_small by done. cbn [fst]. unfold lookupInterval.
  rewrite lookup_singleton_eq. cbv zeta. cbn [start_ end_].
  by rewrite !resolveOffset_absolute.
Qed.

Lemma consumePartition_numeric_witness :
  consumePartition plainCodecs 1 (served [record 5]) (testCmd "1=5:9" "" 0 0)
  = partitionLoop plainCodecs 1 9 (served [record 5]) (testCmd "1=5:9" "" 0 0).
Proof.
  apply (consumePartition_numeric plainCodecs (testCmd "1=5:9" "" 0 0) 1 5 9);
    rewrite ?maxInt64_eq; (lia || reflexivity).
Defined.

(** X24: a partition whose start is [resume] and whose end is absolute: without a group the worker logs that it cannot resume and returns, whatever the events; with a group and the offset manager [pm] of [getPOM] it opens the fetch stream at [pm]'s next offset and its loop marks offsets on that same [pm]. *)
Theorem consumePartition_resume codecs cmd p d evs :
  start_ (lookupInterval (offsets cmd) p)
    = {| relative := true; start := offsetResume; diff := d |} ->
  relative (end_ (lookupInterval (offsets cmd) p)) = false ->
  (group cmd = "" ->
     consumePartition codecs p evs cmd
     = Ret (Some (Exited,
                  [Log (LogStartOffset p "cannot resume without -group argument")]),
            cmd))
  /\ (group cmd <> "" -> forall pm cmd1,
        getPOM p cmd = Ret (pm, cmd1) ->
        consumePartition codecs p evs cmd
        = match ConsumePartition (consumer cmd) (topic cmd) p (fst (NextOffset pm)) with
          | Some err => Ret (Some (Exited, [Log (LogConsume p err)]), cmd1)
          | None =>
              Ret (match run codecs cmd1 (Some pm) p
                           (start (end_ (lookupInterval (offsets cmd) p)))
                           Selecting evs with
                   | Some (st, acts) => Some (st, loopHead cmd1 ++ acts)
                   | None => None
                   end, cmd1)
          end).
Proof.
  intros Hs He. rewrite consumePartition_cases. cbv zeta. rewrite Hs.
  rewrite resolveOffset_cases. cbn [relative start negb].
  change (offsetResume =? OffsetNewest) with false.
  change (offsetResume =? OffsetOldest) with false.
  change (offsetResume =? offsetResume) with true. cbn [orb]. split.
  - intros ->. done.
  - intros Hg pm cmd1 Hpom.
    destruct (String.eqb_spec (group cmd) ""); [done|].
    rewrite Hpom. rewrite resolveOffset_absolute by done.
    destruct (ConsumePartition _ _ _ _); [done|].
    destruct (getPOM_stable _ _ _ _ Hpom) as (Hagain & _ & _ & _ & Hg1 & _).
    apply partitionLoop_run. unfold workerPom, bind, get, ret.
    rewrite Hg1. destruct (String.eqb_spec (group cmd) ""); [done|].
    cbn [negb]. by rewrite Hagain.
Qed.

(** ** parseArgs *)

Lemma containsByte_app c s t :
  containsByte c (s +:+ t) = containsByte c s || containsByte c t.
Proof.
  induction s as [|b s IH]; [by rewrite append_nil_l|].
  rewrite append_cons. cbn [containsByte]. rewrite IH. by rewrite orb_assoc.
Qed.

Lemma withPort_colon b : containsByte ":" (withPort b) = true.
Proof.
  unfold withPort. destruct (containsByte ":" b) eqn:H; [done|].
  rewrite containsByte_app, H. done.
Qed.

Lemma isEmpty_false s : isEmpty s = false <-> s <> "".
Proof. by destruct s. Qed.

Lemma supportedEncoding_spec e :
  supportedEncoding e = true
  <-> e = "string" \/ e = "hex" \/ e = "base64" \/ e = "avro".
Proof.
  unfold supportedEncoding. rewrite !orb_true_iff, !String.eqb_eq. tauto.
Qed.

Section ParseArgsFacts.
Context {V : Type} (kafkaVersion : string -> outcome V).
Variables envTopic envBrokers schemaRegistryUrl : string.

(** What the fields hold when [parseArgs] returns. *)
Lemma parseArgs_success args lines r :
  parseArgs V kafkaVersion envTopic envBrokers schemaRegistryUrl args
    = (lines, Ret r) ->
  lines = []
  /\ parsed.topic r <> ""
  /\ parsed.topic r
     = (if isEmpty (consumeArgs.topic args) then envTopic
        else consumeArgs.topic args)
  /\ kafkaVersion (consumeArgs.version args) = Ret (parsed.version r)
  /\ supportedEncoding (parsed.encodeValue r) = true
  /\ supportedEncoding (parsed.encodeKey r) = true
  /\ (consumeArgs.encodeAvro args = true ->
      parsed.encodeValue r = "avro" /\ parsed.encodeKey r = "avro")
  /\ (consumeArgs.encodeAvro args = false ->
      parsed.encodeValue r = consumeArgs.encodeValue args
      /\ parsed.encodeKey r = consumeArgs.encodeKey args)
  /\ (parsed.encodeKey r = "avro" \/ parsed.encodeValue r = "avro" ->
      schemaRegistryUrl <> "")
  /\ parsed.brokers r
     = map withPort
         (strings.Split
            (if isEmpty (consumeArgs.brokers args)
             then if isEmpty envBrokers then "localhost:9092" else envBrokers
             else consumeArgs.brokers args) ",")
  /\ parseOffsets (consumeArgs.offsets args) = (parsed.offsets r, None).
Proof.
  unfold parseArgs, failStartup, failf.
  destruct (isEmpty (consumeArgs.topic args) && isEmpty envTopic) eqn:Ht; [done|].
  destruct (kafkaVersion _) as [version|]; [|done].
  destruct (negb (supportedEncoding _)) eqn:Hv; [done|].
  destruct (negb (supportedEncoding (if consumeArgs.encodeAvro args then _ else consumeArgs.encodeKey args))) eqn:Hk; [done|].
  destruct (_ && isEmpty schemaRegistryUrl) eqn:Hs; [done|].
  destruct (parseOffsets _) as [offs [e|]] eqn:Ho; [done|].
  intros [= <- <-]. cbn [parsed.topic parsed.version parsed.encodeKey
    parsed.encodeValue parsed.brokers parsed.offsets].
  apply negb_false_iff in Hv, Hk.
  split; [done|]. split.
  { destruct (isEmpty (consumeArgs.topic args)) eqn:Ha; by apply isEmpty_false. }
  split; [done|]. split; [done|]. split; [done|]. split; [done|].
  split; [by intros ->|]. split; [by intros ->|]. split.
  { intros Havro. apply andb_false_iff in Hs as [Hs|Hs].
    - apply orb_false_iff in Hs as [H1 H2].
      apply String.eqb_neq in H1, H2. by destruct Havro.
    - by apply isEmpty_false. }
  split; [|done]. by destruct (isEmpty envBrokers).
Qed.

End ParseArgsFacts.

(** X25: when [parseArgs] returns, nothing was printed; the topic is not empty and is the flag or, for an empty flag, the environment value; both encodings are among string, hex, base64 and avro, both avro under the flag [-avro], and avro only with a schema registry URL; the offsets are those of [parseOffsets] without error and are not empty. *)
Theorem parseArgs_fields {V : Type} (kafkaVersion : string -> outcome V)
    envTopic envBrokers schemaRegistryUrl args lines r :
  parseArgs V kafkaVersion envTopic envBrokers schemaRegistryUrl args
    = (lines, Ret r) ->
  lines = []
  /\ parsed.topic r <> ""
  /\ parsed.topic r
     = (if isEmpty (consumeArgs.topic args) then envTopic
        else consumeArgs.topic args)
  /\ (parsed.encodeValue r = "string" \/ parsed.encodeValue r = "hex"
      \/ parsed.encodeValue r = "base64" \/ parsed.encodeValue r = "avro")
  /\ (parsed.encodeKey r = "string" \/ parsed.encodeKey r = "hex"
      \/ parsed.encodeKey r = "base64" \/ parsed.encodeKey r = "avro")
  /\ (consumeArgs.encodeAvro args = true ->
      parsed.encodeValue r = "avro" /\ parsed.encodeKey r = "avro")
  /\ (parsed.encodeKey r = "avro" \/ parsed.encodeValue r = "avro" ->
      schemaRegistryUrl <> "")
  /\ parseOffsets (consumeArgs.offsets args) = (parsed.offsets r, None)
  /\ parsed.offsets r <> ∅.
Proof.
  intros H.
  destruct (parseArgs_success _ _ _ _ _ _ _ H)
    as (H1 & H2 & H3 & _ & H5 & H6 & H7 & _ & H9 & _ & H11).
  apply supportedEncoding_spec in H5, H6.
  repeat (split; [done|]). by eapply parseOffsets_success_nonempty.
Qed.

(** X26: when [parseArgs] returns, the list of brokers is not empty and every broker has a colon; it is [localhost:9092] when neither the flag nor the environment names a broker, and a single broker named by the flag, or by the environment when the flag is empty, is kept when it has a colon and gets the port 9092 otherwise. *)
Theorem parseArgs_brokers {V : Type} (kafkaVersion : string -> outcome V)
    envTopic envBrokers schemaRegistryUrl args lines r :
  parseArgs V kafkaVersion envTopic envBrokers schemaRegistryUrl args
    = (lines, Ret r) ->
  parsed.brokers r <> []
  /\ Forall (fun b => containsByte ":" b = true) (parsed.brokers r)
  /\ (consumeArgs.brokers args = "" -> envBrokers = "" ->
      parsed.brokers r = ["localhost:9092"])
  /\ (forall b, all notComma b = true ->
      consumeArgs.brokers args = b \/ (consumeArgs.brokers args = "" /\ envBrokers = b) ->
      b <> "" ->
      parsed.brokers r = [if containsByte ":" b then b else b +:+ ":9092"]).
Proof.
  intros H.
  destruct (parseArgs_success _ _ _ _ _ _ _ H) as (_ & _ & _ & _ & _ & _ & _ & _ & _ & Hb & _).
  rewrite Hb. split.
  { intros Hnil%fmap_nil_inv. by apply Split_nonempty in Hnil. }
  split.
  { apply Forall_fmap, Forall_forall. intros b _. apply withPort_colon. }
  split.
  - intros -> ->. done.
  - intros b Hc [->|[-> ->]] Hne.
    + apply isEmpty_false in Hne. rewrite Hne.
      by rewrite Split_single by exact Hc.
    + apply isEmpty_false in Hne. cbn [isEmpty]. rewrite Hne.
      by rewrite Split_single by exact Hc.
Qed.

(** X27: when the value encoding is supported and the key encoding is not, [parseArgs] ends the process and the line it prints for the key encoding shows the value encoding, not the rejected key encoding. *)
Theorem parseArgs_encodekey_line {V : Type} (kafkaVersion : string -> outcome V)
    envTopic envBrokers schemaRegistryUrl args version :
  consumeArgs.topic args <> "" \/ envTopic <> "" ->
  kafkaVersion (consumeArgs.version args) = Ret version ->
  consumeArgs.encodeAvro args = false ->
  supportedEncoding (consumeArgs.encodeValue args) = true ->
  supportedEncoding (consumeArgs.encodeKey args) = false ->
  parseArgs V kafkaVersion envTopic envBrokers schemaRegistryUrl args
  = ([UnsupportedEncodeKey (consumeArgs.encodeValue args)], Fatal usageHint).
Proof.
  intros Ht Hver Havro Hv Hk. unfold parseArgs, failStartup, failf.
  replace (isEmpty (consumeArgs.topic args) && isEmpty envTopic) with false.
  2:{ symmetry. apply andb_false_iff.
      destruct Ht as [Ht|Ht]; [left|right]; by apply isEmpty_false. }
  rewrite Hver, Havro, Hv, Hk. done.
Qed.

(** X28: [parseOffset] returns an error exactly when the run of digits it reads at the head of the token, behind the anchor word and the sign, is not empty and exceeds [maxInt64]; the error is [Invalid offset] with the token. *)
Theorem parseOffset_fails_iff str e :
  snd (parseOffset str) = Some e <->
  intTok str <> "" /\ maxInt64 < digitsValue (intTok str)
  /\ e = "Invalid offset [" +:+ str +:+ "]".
Proof. apply parseOffset_error_iff. Qed.

Lemma parseOffsets_single_line_witness :
  exists seg, seg ∈ strings.Split "1=0:5,99999999999999999999=1:2" ","
    /\ maxInt64 < digitsValue (takeWhile isDigit (strings.TrimSpace seg)).
Proof.
  destruct (parseOffsets_single_line "1=0:5,99999999999999999999=1:2"
              {[ 1 := {| start_ := absolute 0; end_ := absolute 5 |} ]}
              "Invalid partition [99999999999999999999]")
    as (seg & Hin & _ & Hv).
  - reflexivity.
  - vm_compute. reflexivity.
  - exists seg. split; [exact Hin|exact Hv].
Defined.

Lemma parseOffsets_nonempty_witness :
  fst (parseOffsets "all=5:") <> ∅.
Proof.
  apply (parseOffsets_nonempty "all=5:"). vm_compute. reflexivity.
Defined.

Lemma consumePartition_resume_witness :
  let pm := {| pomPartition := 0; NextOffset := (42, "") |} in
  consumePartition plainCodecs 0 (served [record 42]) (testCmd "resume" "" 0 42)
  = Ret (Some (Exited,
               [Log (LogStartOffset 0 "cannot resume without -group argument")]),
         testCmd "resume" "" 0 42)
  /\ consumePartition plainCodecs 0 (served [record 42]) (testCmd "resume" "g" 0 42)
     = Ret (Some (Selecting,
                  [Recv (record 42); Send (printed 42); Acked; MarkOffset pm 43 ""]),
            withPoms {[ 0 := pm ]} (testCmd "resume" "g" 0 42)).
Proof.
  intros pm. split.
  - destruct (consumePartition_resume plainCodecs (testCmd "resume" "" 0 42) 0 0
                (served [record 42]) eq_refl eq_refl) as [H _].
    by apply H.
  - destruct (consumePartition_resume plainCodecs (testCmd "resume" "g" 0 42) 0 0
                (served [record 42]) eq_refl eq_refl) as [_ H].
    rewrite (H ltac:(discriminate) pm (withPoms {[ 0 := pm ]} (testCmd "resume" "g" 0 42))
               eq_refl).
    reflexivity.
Defined.

Lemma parseArgs_fields_witness :
  exists r,
    parseArgs unit (fun _ => Ret tt) "" "" "" (flagDefaults "events") = ([], Ret r)
    /\ parsed.topic r = "events"
    /\ parsed.offsets r <> ∅.
Proof.
  destruct (parseArgs unit (fun _ => Ret tt) "" "" "" (flagDefaults "events"))
    as [lines [r|msg]] eqn:H; [|discriminate H].
  destruct (parseArgs_fields _ _ _ _ _ _ _ H) as (-> & _ & Ht & _ & _ & _ & _ & _ & Hne).
  exists r. split; [reflexivity|]. split; [exact Ht|exact Hne].
Defined.

Lemma parseArgs_brokers_witness :
  exists r,
    parseArgs unit (fun _ => Ret tt) "" "" ""
      (flagsWith "events" "string" "string" "kafka1") = ([], Ret r)
    /\ parsed.brokers r = ["kafka1:9092"].
Proof.
  destruct (parseArgs unit (fun _ => Ret tt) "" "" ""
              (flagsWith "events" "string" "string" "kafka1"))
    as [lines [r|msg]] eqn:H; [|discriminate H].
  destruct (parseArgs_brokers _ _ _ _ _ _ _ H) as (_ & _ & _ & Hb).
  assert (lines = []) as -> by (vm_compute in H; by injection H as <- _).
  exists r. split; [reflexivity|].
  apply (Hb "kafka1"); [reflexivity|by left|discriminate].
Defined.

Lemma parseArgs_encodekey_line_witness :
  parseArgs unit (fun _ => Ret tt) "" "" "" (flagsWith "events" "hex" "json" "")
  = ([UnsupportedEncodeKey "hex"], Fatal usageHint).
Proof.
  apply (parseArgs_encodekey_line (fun _ => Ret tt) "" "" ""
           (flagsWith "events" "hex" "json" "") tt);
    [left; discriminate|reflexivity..].
Defined.
